(** * Vortludo: the game core, the session cache and the rate-limiter cache

    A shallow embedding of the Go sources
    - [internal/game/game.go]       (word choice, scoring, the transition),
    - [internal/session]            (get-or-create and save of a session),
    - [internal/handlers]           (the guess and retry handlers),
    - package [main]                (the sweeps and [getLimiter]),
    followed by the properties proved about them.

    Conventions of the embedding.
    - A Go [string] is a sequence of bytes: Rocq's [string], one [ascii] per
      byte.  [int] values are [Z]; the one operation below that can leave
      the 64-bit range, the negation of a duration in the sweeps, is written
      with its wrap-around ([Go.neg]).
    - A Go map is a [gmap]; a slice is a [list], and every index expression
      is bounds-checked as Go does it.
    - A run-time panic is [None] in the [option] monad.
    - [time.Now()] is an argument [now : Z] (nanoseconds): every reading of
      the clock within one call gives that instant.  A [time.Duration] is a
      [Z] (nanoseconds too).
    - Logging is dropped: it reads state only. *)

From Stdlib Require Import ZArith String Ascii List Lia Permutation.
From stdpp Require Import base option list gmap strings sorting pretty.

Local Open Scope string_scope.

(** ** Go primitives *)

Module Go.

(** [s[i] = x] on a slice, for a Go [int] index: a panic outside [0, len s). *)
Definition assign {A} (s : list A) (i : Z) (x : A) : option (list A) :=
  if bool_decide (0 ≤ i < Z.of_nat (length s))%Z
  then Some (<[Z.to_nat i := x]> s) else None.

(** [s[i]] and [s[i] = x] for a loop index that is a natural number. *)
Definition at_nat {A} (s : list A) (i : nat) : option A := s !! i.

Definition assign_nat {A} (s : list A) (i : nat) (x : A) : option (list A) :=
  if bool_decide (i < length s)%nat then Some (<[i := x]> s) else None.

(** The value of a byte. *)
Definition byte_val (a : ascii) : Z := Z.of_N (N_of_ascii a).

(** [s[i]] on a string: the byte at [i]. *)
Definition byte_at (s : string) (i : nat) : option Z :=
  byte_val <$> String.get i s.

(** [len(s)] on a string. *)
Definition len (s : string) : Z := Z.of_nat (String.length s).

(** The [int64] that an integer wraps around to, and [-d] on an [int64] (a
    [time.Duration]): the smallest [int64] is its own negation. *)
Definition wrap64 (z : Z) : Z := ((z + 2 ^ 63) mod 2 ^ 64 - 2 ^ 63)%Z.

Definition neg (d : Z) : Z := wrap64 (- d).

(** [a / b] on integers: truncated, and a panic when [b] is zero. *)
Definition div (a b : Z) : option Z :=
  if bool_decide (b = 0)%Z then None else Some (Z.quot a b).

(** [for i := range n], the body threading a state and able to panic. *)
Fixpoint for_range {S} (body : S → nat → option S) (idxs : list nat) (s : S)
  : option S :=
  match idxs with
  | [] => Some s
  | i :: idxs' =>
      match body s i with
      | Some s' => for_range body idxs' s'
      | None => None
      end
  end.

End Go.

(** ** [internal/constants] *)

Module constants.

Definition MaxGuesses : Z := 6.
Definition WordLength : nat := 5.

Definition GuessStatusCorrect : string := "correct".
Definition GuessStatusPresent : string := "present".
Definition GuessStatusAbsent : string := "absent".

Definition ErrorCodeGameOver : string := "game_over".
Definition ErrorCodeInvalidLength : string := "invalid_length".
Definition ErrorCodeNoMoreGuesses : string := "no_more_guesses".
Definition ErrorCodeNotInWordList : string := "not_in_word_list".
Definition ErrorCodeWordNotAccepted : string := "word_not_accepted".
Definition ErrorCodeDuplicateGuess : string := "duplicate_guess".

End constants.

(** ** [internal/models] *)

Module models.

Record WordEntry := { Word : string; Hint : string }.

Record GuessResult := { Letter : string; Status : string }.

Record GameState := {
  Guesses : list (list GuessResult);
  CurrentRow : Z;
  GameOver : bool;
  Won : bool;
  TargetWord : string;
  SessionWord : string;
  GuessHistory : list string;
  LastAccessTime : Z
}.

(** A token bucket as [rate.NewLimiter(rate.Every(interval), burst)] makes
    it: the refill interval in nanoseconds and the capacity. *)
Record Limiter := { Interval : Z; Burst : Z }.

Record RateLimiterWithTime := { TheLimiter : Limiter; LastAccess : Z }.

(** [RuneBufPool] is [true] for a pool as [main] builds it (its buffers are
    zeroed slices of [WordLength] runes) and [false] for a nil pool. *)
Record App := {
  WordList : list WordEntry;
  WordSet : gset string;
  AcceptedWordSet : gset string;
  HintMap : gmap string string;
  GameSessions : gmap string GameState;
  LimiterMap : gmap string RateLimiterWithTime;
  RateLimitRPS : Z;
  RateLimitBurst : Z;
  RateLimiterTTL : Z;
  SessionTTL : Z;
  RuneBufPool : bool
}.

Definition set_GameSessions (app : App) (m : gmap string GameState) : App :=
  {| WordList := WordList app; WordSet := WordSet app;
     AcceptedWordSet := AcceptedWordSet app; HintMap := HintMap app;
     GameSessions := m; LimiterMap := LimiterMap app;
     RateLimitRPS := RateLimitRPS app; RateLimitBurst := RateLimitBurst app;
     RateLimiterTTL := RateLimiterTTL app; SessionTTL := SessionTTL app;
     RuneBufPool := RuneBufPool app |}.

Definition set_LimiterMap (app : App) (m : gmap string RateLimiterWithTime) : App :=
  {| WordList := WordList app; WordSet := WordSet app;
     AcceptedWordSet := AcceptedWordSet app; HintMap := HintMap app;
     GameSessions := GameSessions app; LimiterMap := m;
     RateLimitRPS := RateLimitRPS app; RateLimitBurst := RateLimitBurst app;
     RateLimiterTTL := RateLimiterTTL app; SessionTTL := SessionTTL app;
     RuneBufPool := RuneBufPool app |}.

Definition set_Guesses (g : GameState) (x : list (list GuessResult)) : GameState :=
  {| Guesses := x; CurrentRow := CurrentRow g; GameOver := GameOver g;
     Won := Won g; TargetWord := TargetWord g; SessionWord := SessionWord g;
     GuessHistory := GuessHistory g; LastAccessTime := LastAccessTime g |}.

Definition set_CurrentRow (g : GameState) (x : Z) : GameState :=
  {| Guesses := Guesses g; CurrentRow := x; GameOver := GameOver g;
     Won := Won g; TargetWord := TargetWord g; SessionWord := SessionWord g;
     GuessHistory := GuessHistory g; LastAccessTime := LastAccessTime g |}.

Definition set_GameOver (g : GameState) (x : bool) : GameState :=
  {| Guesses := Guesses g; CurrentRow := CurrentRow g; GameOver := x;
     Won := Won g; TargetWord := TargetWord g; SessionWord := SessionWord g;
     GuessHistory := GuessHistory g; LastAccessTime := LastAccessTime g |}.

Definition set_Won (g : GameState) (x : bool) : GameState :=
  {| Guesses := Guesses g; CurrentRow := CurrentRow g; GameOver := GameOver g;
     Won := x; TargetWord := TargetWord g; SessionWord := SessionWord g;
     GuessHistory := GuessHistory g; LastAccessTime := LastAccessTime g |}.

Definition set_TargetWord (g : GameState) (x : string) : GameState :=
  {| Guesses := Guesses g; CurrentRow := CurrentRow g; GameOver := GameOver g;
     Won := Won g; TargetWord := x; SessionWord := SessionWord g;
     GuessHistory := GuessHistory g; LastAccessTime := LastAccessTime g |}.

Definition set_SessionWord (g : GameState) (x : string) : GameState :=
  {| Guesses := Guesses g; CurrentRow := CurrentRow g; GameOver := GameOver g;
     Won := Won g; TargetWord := TargetWord g; SessionWord := x;
     GuessHistory := GuessHistory g; LastAccessTime := LastAccessTime g |}.

Definition set_GuessHistory (g : GameState) (x : list string) : GameState :=
  {| Guesses := Guesses g; CurrentRow := CurrentRow g; GameOver := GameOver g;
     Won := Won g; TargetWord := TargetWord g; SessionWord := SessionWord g;
     GuessHistory := x; LastAccessTime := LastAccessTime g |}.

Definition set_LastAccessTime (g : GameState) (x : Z) : GameState :=
  {| Guesses := Guesses g; CurrentRow := CurrentRow g; GameOver := GameOver g;
     Won := Won g; TargetWord := TargetWord g; SessionWord := SessionWord g;
     GuessHistory := GuessHistory g; LastAccessTime := x |}.

Definition set_LastAccess (e : RateLimiterWithTime) (x : Z) : RateLimiterWithTime :=
  {| TheLimiter := TheLimiter e; LastAccess := x |}.

End models.

(** ** Strings and runes

    [[]rune(s)] decodes UTF-8 the way the Go runtime does: an ill-formed byte
    yields [RuneError] and is one byte wide.  [string(b)] for a byte [b] is
    the UTF-8 encoding of the code point [b]. *)

Module utf8.

Local Open Scope Z_scope.

Definition RuneError : Z := 65533.

Definition between (lo b hi : Z) : bool := (lo <=? b) && (b <=? hi).

Definition cont (b : Z) : bool := between 128 b 191.

Fixpoint runes (s : string) : list Z :=
  match s with
  | EmptyString => []
  | String a0 s1 =>
      let b0 := Go.byte_val a0 in
      if b0 <? 128 then b0 :: runes s1
      else if between 194 b0 223 then
        match s1 with
        | String a1 s2 =>
            let b1 := Go.byte_val a1 in
            if cont b1 then (b0 mod 32 * 64 + b1 mod 64) :: runes s2
            else RuneError :: runes s1
        | EmptyString => RuneError :: runes s1
        end
      else if between 224 b0 239 then
        match s1 with
        | String a1 s2 =>
            match s2 with
            | String a2 s3 =>
                let b1 := Go.byte_val a1 in
                let b2 := Go.byte_val a2 in
                let lo := if b0 =? 224 then 160 else 128 in
                let hi := if b0 =? 237 then 159 else 191 in
                if between lo b1 hi && cont b2
                then (b0 mod 16 * 4096 + b1 mod 64 * 64 + b2 mod 64) :: runes s3
                else RuneError :: runes s1
            | EmptyString => RuneError :: runes s1
            end
        | EmptyString => RuneError :: runes s1
        end
      else if between 240 b0 244 then
        match s1 with
        | String a1 s2 =>
            match s2 with
            | String a2 s3 =>
                match s3 with
                | String a3 s4 =>
                    let b1 := Go.byte_val a1 in
                    let b2 := Go.byte_val a2 in
                    let b3 := Go.byte_val a3 in
                    let lo := if b0 =? 240 then 144 else 128 in
                    let hi := if b0 =? 244 then 143 else 191 in
                    if between lo b1 hi && cont b2 && cont b3
                    then (b0 mod 8 * 262144 + b1 mod 64 * 4096
                          + b2 mod 64 * 64 + b3 mod 64) :: runes s4
                    else RuneError :: runes s1
                | EmptyString => RuneError :: runes s1
                end
            | EmptyString => RuneError :: runes s1
            end
        | EmptyString => RuneError :: runes s1
        end
      else RuneError :: runes s1
  end.

Definition ascii_of_Z (b : Z) : ascii := ascii_of_N (Z.to_N b).

(** [string(b)] for a byte [b]. *)
Definition string_of_byte (b : Z) : string :=
  if b <? 128 then String (ascii_of_Z b) EmptyString
  else String (ascii_of_Z (192 + b / 64))
         (String (ascii_of_Z (128 + b mod 64)) EmptyString).

End utf8.

(** ** [internal/game] *)

Module game.
Import constants models.

(** What [rand.Int(rand.Reader, max)] gave: an error, or a number. *)
Inductive RandOutcome := RandErr | RandVal (n : nat).

Section WithEnvironment.

(** [ctxDone]: the request's context is cancelled when it is polled.
    [randInt max]: the outcome of [rand.Int] for a positive [max]. *)
Variable ctxDone : bool.
Variable randInt : nat → RandOutcome.

Definition GetRandomWordEntry (app : App) : option WordEntry :=
  if ctxDone then WordList app !! 0%nat
  else
    match length (WordList app) with
    | O => None   (* rand.Int panics: argument to Int is <= 0 *)
    | S _ =>
        match randInt (length (WordList app)) with
        | RandErr => WordList app !! 0%nat
        | RandVal n => WordList app !! n
        end
    end.

Definition GetRandomWordEntryExcluding (app : App) (completedWords : list string)
  : option (WordEntry * bool) :=
  if bool_decide (length completedWords = 0%nat) then
    e ← GetRandomWordEntry app; Some (e, false)
  else
    let availableWords :=
      filter (λ entry, Word entry ∉ completedWords) (WordList app) in
    if bool_decide (length availableWords = 0%nat) then
      e ← GetRandomWordEntry app; Some (e, true)
    else if ctxDone then
      e ← availableWords !! 0%nat; Some (e, false)
    else
      match randInt (length availableWords) with
      | RandErr => e ← availableWords !! 0%nat; Some (e, false)
      | RandVal n => selected ← availableWords !! n; Some (selected, false)
      end.

Definition GetHintForWord (app : App) (wordValue : string) : string :=
  if String.eqb wordValue "" then ""
  else match HintMap app !! wordValue with
       | Some hint => hint
       | None => ""
       end.

(** The game is updated in place; the updated game is returned with the word. *)
Definition GetTargetWord (app : App) (game : GameState)
  : option (GameState * string) :=
  if String.eqb (SessionWord game) "" then
    selectedEntry ← GetRandomWordEntry app;
    Some (set_SessionWord game (Word selectedEntry), Word selectedEntry)
  else Some (game, SessionWord game).

Definition emptyBoard : list (list GuessResult) :=
  replicate (Z.to_nat MaxGuesses)
    (replicate WordLength {| Letter := ""; Status := "" |}).

Definition CreateNewGame (app : App) (now : Z) (sessionID : string)
  : option (App * GameState) :=
  selectedEntry ← GetRandomWordEntry app;
  let game := {|
    Guesses := emptyBoard;
    CurrentRow := 0;
    GameOver := false;
    Won := false;
    TargetWord := "";
    SessionWord := Word selectedEntry;
    GuessHistory := [];
    LastAccessTime := now |} in
  Some (set_GameSessions app (<[sessionID := game]> (GameSessions app)), game).

Definition CreateNewGameWithCompletedWords (app : App) (now : Z)
    (sessionID : string) (completedWords : list string)
  : option (App * GameState * bool) :=
  '(selectedEntry, needsReset) ← GetRandomWordEntryExcluding app completedWords;
  let game := {|
    Guesses := emptyBoard;
    CurrentRow := 0;
    GameOver := false;
    Won := false;
    TargetWord := "";
    SessionWord := Word selectedEntry;
    GuessHistory := [];
    LastAccessTime := now |} in
  Some (set_GameSessions app (<[sessionID := game]> (GameSessions app)),
        game, needsReset).

End WithEnvironment.

Definition UpdateGameState (now : Z) (game : GameState) (guess targetWord : string)
    (result : list GuessResult) (isInvalid : bool) : option GameState :=
  if bool_decide (MaxGuesses ≤ CurrentRow game)%Z then Some game
  else
    guesses ← Go.assign (Guesses game) (CurrentRow game) result;
    let game := set_Guesses game guesses in
    let game := set_GuessHistory game (GuessHistory game ++ [guess]) in
    let game := set_LastAccessTime game now in
    let game :=
      if negb isInvalid && String.eqb guess targetWord then
        set_GameOver (set_Won game true) true
      else
        let game := set_CurrentRow game (CurrentRow game + 1) in
        if bool_decide (MaxGuesses ≤ CurrentRow game)%Z
        then set_GameOver game true else game in
    Some (if GameOver game then set_TargetWord game targetWord else game).

Definition IsValidWord (app : App) (word : string) : bool :=
  bool_decide (word ∈ WordSet app).

Definition IsAcceptedWord (app : App) (word : string) : bool :=
  bool_decide (word ∈ AcceptedWordSet app).

(** *** Scoring *)

Definition blank : Z := 32.

(** [copy(dst, src)]: the first [min (len dst) (len src)] elements. *)
Definition copy {A} (dst src : list A) : list A :=
  take (length dst) src ++ drop (length src) dst.

(** First loop of [CheckGuess], one iteration. *)
Definition markCorrect (guess target : string)
    (st : list GuessResult * list Z) (i : nat) : option (list GuessResult * list Z) :=
  let '(result, targetCopy) := st in
  g ← Go.byte_at guess i;
  t ← Go.byte_at target i;
  if bool_decide (g = t) then
    result ← Go.assign_nat result i
      {| Letter := utf8.string_of_byte g; Status := GuessStatusCorrect |};
    targetCopy ← Go.assign_nat targetCopy i blank;
    Some (result, targetCopy)
  else Some (result, targetCopy).

(** The inner loop: the first [j] with [targetCopy[j] == r], if any. *)
Fixpoint findRune (targetCopy : list Z) (r : Z) (js : list nat) : option (option nat) :=
  match js with
  | [] => Some None
  | j :: js' =>
      t ← Go.at_nat targetCopy j;
      if bool_decide (t = r) then Some (Some j) else findRune targetCopy r js'
  end.

(** Second loop of [CheckGuess], one iteration. *)
Definition markPresent (guess : string)
    (st : list GuessResult * list Z) (i : nat) : option (list GuessResult * list Z) :=
  let '(result, targetCopy) := st in
  r ← Go.at_nat result i;
  if String.eqb (Status r) "" then
    g ← Go.byte_at guess i;
    let letter := utf8.string_of_byte g in
    found ← findRune targetCopy g (seq 0 WordLength);
    match found with
    | Some j =>
        targetCopy' ← Go.assign_nat targetCopy j blank;
        Some (<[i := {| Letter := letter; Status := GuessStatusPresent |}]> result,
              targetCopy')
    | None =>
        Some (<[i := {| Letter := letter; Status := GuessStatusAbsent |}]> result,
              targetCopy)
    end
  else Some (result, targetCopy).

(** [pool] is what [app.RuneBufPool.Get()] handed out: [None] when the pool
    is nil or gave nothing usable, [Some buf] for a buffer, whose length
    stands for its capacity in [pooledBuf[:WordLength]].  The result comes
    with the buffer put back into the pool, if one was used. *)
Definition CheckGuess (guess target : string) (pool : option (list Z))
  : option (list GuessResult * option (list Z)) :=
  let result := replicate WordLength {| Letter := ""; Status := "" |} in
  targetCopy ←
    match pool with
    | Some pooledBuf =>
        if bool_decide (WordLength ≤ length pooledBuf)%nat
        then Some (copy (take WordLength pooledBuf) (utf8.runes target))
        else None
    | None => Some (utf8.runes target)
    end;
  st ← Go.for_range (markCorrect guess target) (seq 0 WordLength) (result, targetCopy);
  st ← Go.for_range (markPresent guess) (seq 0 WordLength) st;
  Some (st.1, (λ pooledBuf, replicate (length pooledBuf) 0%Z) <$> pool).

(** [lo.Associate]: the entries in order, a later one overwriting an earlier
    one with the same word. *)
Definition BuildHintMap (wordList : list WordEntry) : gmap string string :=
  foldl (λ result entry, <[Word entry := Hint entry]> result) ∅ wordList.

End game.

(** ** [internal/session]

    A session's game is reached through a pointer kept in [GameSessions]; a
    handler runs on one session, so the map holds the game itself and an
    update in place is an update of the map's entry. *)

Module session.
Import constants models game.

Section WithEnvironment.
Variable ctxDone : bool.
Variable randInt : nat → RandOutcome.

Definition GetGameState (app : App) (now : Z) (sessionID : string)
  : option (App * GameState) :=
  match GameSessions app !! sessionID with
  | Some gameState =>
      let gameState := set_LastAccessTime gameState now in
      Some (set_GameSessions app (<[sessionID := gameState]> (GameSessions app)),
            gameState)
  | None => CreateNewGame ctxDone randInt app now sessionID
  end.

End WithEnvironment.

Definition SaveGameState (app : App) (now : Z) (sessionID : string)
    (game : GameState) : App :=
  set_GameSessions app
    (<[sessionID := set_LastAccessTime game now]> (GameSessions app)).

(** The largest and the smallest [time.Duration]. *)
Definition maxDuration : Z := 9223372036854775807.
Definition minDuration : Z := -9223372036854775808.

(** [t.Sub(u)]: the difference, or the largest (smallest) duration when the
    difference is beyond it. *)
Definition Sub (t u : Z) : Z :=
  if bool_decide (maxDuration < t - u)%Z then maxDuration
  else if bool_decide (t - u < minDuration)%Z then minDuration
  else (t - u)%Z.

(** [sessionTimeout] is [app.SessionTimeout], a field of this package's
    [App] that the one of package [main] does not have. *)
Definition CleanupExpiredSessions (sessionTimeout : Z) (app : App) (now : Z) : App :=
  set_GameSessions app
    (map_fold (λ sessionID game sessions,
                 if bool_decide (sessionTimeout < Sub now (LastAccessTime game))%Z
                 then delete sessionID sessions else sessions)
       (GameSessions app) (GameSessions app)).

End session.

(** ** [internal/handlers]

    A handler is given the session id that [GetOrCreateSession] resolved and
    the posted form value; it yields the new state of the application and the
    error code it rendered ([""] for none). *)

Module handlers.
Import constants models game session.

Section WithEnvironment.
Variable ctxDone : bool.
Variable randInt : nat → RandOutcome.
(** [strings.ToUpper] and [strings.TrimSpace]. *)
Variable ToUpper TrimSpace : string → string.

Definition ValidateGameState (game : GameState) : option string :=
  if GameOver game then Some ErrorCodeGameOver else None.

Definition NormalizeGuess (input : string) : string :=
  ToUpper (TrimSpace input).

Definition poolGet (app : App) : option (list Z) :=
  if RuneBufPool app then Some (replicate WordLength 0%Z) else None.

Definition ProcessGuess (app : App) (now : Z) (sessionID : string)
    (gameState : GameState) (guess : string) : option (App * string) :=
  if bool_decide (Go.len guess ≠ Z.of_nat WordLength) then
    Some (app, ErrorCodeInvalidLength)
  else if bool_decide (MaxGuesses ≤ CurrentRow gameState)%Z then
    Some (app, ErrorCodeNoMoreGuesses)
  else
    '(gameState, targetWord) ← GetTargetWord ctxDone randInt app gameState;
    let isInvalid := negb (IsValidWord app guess) in
    '(result, _) ← CheckGuess guess targetWord (poolGet app);
    gameState ← UpdateGameState now gameState guess targetWord result isInvalid;
    Some (SaveGameState app now sessionID gameState, "").

Definition GuessHandler (app : App) (now : Z) (sessionID : string)
    (rawGuess : string) : option (App * string) :=
  '(app, gameState) ← GetGameState ctxDone randInt app now sessionID;
  match ValidateGameState gameState with
  | Some errCode => Some (app, errCode)
  | None =>
      let guess := NormalizeGuess rawGuess in
      if negb (IsAcceptedWord app guess) then
        Some (app, ErrorCodeWordNotAccepted)
      else if bool_decide (guess ∈ GuessHistory gameState) then
        Some (app, ErrorCodeDuplicateGuess)
      else ProcessGuess app now sessionID gameState guess
  end.

Definition RetryWordHandler (app : App) (now : Z) (sessionID : string)
  : option App :=
  match GameSessions app !! sessionID with
  | None => fst <$> CreateNewGame ctxDone randInt app now sessionID
  | Some gameState =>
      let sessionWord := SessionWord gameState in
      let newGame := {|
        Guesses := emptyBoard;
        CurrentRow := 0;
        GameOver := false;
        Won := false;
        TargetWord := "";
        SessionWord := sessionWord;
        GuessHistory := [];
        LastAccessTime := now |} in
      Some (set_GameSessions app (<[sessionID := newGame]> (GameSessions app)))
  end.

(** [HomeHandler] and [GameStateHandler] render the same two values, the
    first one in the full page and the second one in the board alone: the
    game of the session and the hint of its word. *)
Definition HomeHandler (app : App) (now : Z) (sessionID : string)
  : option (App * GameState * string) :=
  '(app, gameState) ← GetGameState ctxDone randInt app now sessionID;
  let hint := GetHintForWord app (SessionWord gameState) in
  Some (app, gameState, hint).

Definition GameStateHandler (app : App) (now : Z) (sessionID : string)
  : option (App * GameState * string) :=
  '(app, gameState) ← GetGameState ctxDone randInt app now sessionID;
  let hint := GetHintForWord app (SessionWord gameState) in
  Some (app, gameState, hint).

End WithEnvironment.

Section NewGame.
Variable ctxDone : bool.
Variable randInt : nat → RandOutcome.
(** [json.Unmarshal] of the form value into a [[]string]: [None] for an error. *)
Variable unmarshal : string → option (list string).

(** [isPost]: the method is POST; [completedWordsStr]: the form value
    [completedWords]; [reset]: the query has [reset=1]; [newSessionID]: what
    [uuid.NewString()] gives; [isHTMX]: the request has [HX-Request: true].
    The answer is the new state, the session id the client is left with,
    and whether the [clear-completed-words] trigger was sent. *)
Definition NewGameHandler (app : App) (now : Z) (sessionID : string)
    (isPost : bool) (completedWordsStr : string) (reset : bool)
    (newSessionID : string) (isHTMX : bool) : option (App * string * bool) :=
  let completedWords :=
    if isPost then
      if negb (String.eqb completedWordsStr "") then
        match unmarshal completedWordsStr with
        | None => []
        | Some completedWords => filter (λ word, word ∈ WordSet app) completedWords
        end
      else []
    else [] in
  let app := set_GameSessions app (delete sessionID (GameSessions app)) in
  '(app, sessionID, needsReset) ←
    (if reset then
       if bool_decide (0 < length completedWords)%nat then
         '(app, _, needsReset) ←
           CreateNewGameWithCompletedWords ctxDone randInt app now newSessionID
             completedWords;
         Some (app, newSessionID, needsReset)
       else
         '(app, _) ← CreateNewGame ctxDone randInt app now newSessionID;
         Some (app, newSessionID, false)
     else
       if bool_decide (0 < length completedWords)%nat then
         '(app, _, needsReset) ←
           CreateNewGameWithCompletedWords ctxDone randInt app now sessionID
             completedWords;
         Some (app, sessionID, needsReset)
       else
         '(app, _) ← CreateNewGame ctxDone randInt app now sessionID;
         Some (app, sessionID, false));
  if isHTMX then
    '(app, _) ← GetGameState ctxDone randInt app now sessionID;
    Some (app, sessionID, needsReset)
  else Some (app, sessionID, needsReset).

End NewGame.

End handlers.

(** ** Package [main]: the sweeps *)

Module sweeps.
Import models.

(** [t.Before(u)] *)
Definition Before (t u : Z) : bool := bool_decide (t < u)%Z.

(** The cutoff is [time.Now().Add(-app.SessionTTL)]: the negation is the one
    of [int64], and [Add] moves the instant by that many nanoseconds.  A
    [range] over a map that deletes the entry it stands on visits every
    entry of the map once. *)
Definition cleanupStaleSessions (app : App) (now : Z) : App :=
  let cutoffTime := (now + Go.neg (SessionTTL app))%Z in
  set_GameSessions app
    (map_fold (λ sessionID game sessions,
                 if Before (LastAccessTime game) cutoffTime
                 then delete sessionID sessions else sessions)
       (GameSessions app) (GameSessions app)).

Record limiterInfo := { key : string; lastAccess : Z }.

(** The comparison handed to [sort.Slice]. *)
Definition less (a b : limiterInfo) : bool := Before (lastAccess a) (lastAccess b).

Definition removeOldest (limiters : list limiterInfo)
    (m : gmap string RateLimiterWithTime) : gmap string RateLimiterWithTime :=
  let entriesToRemove := Z.to_nat (Z.quot (Z.of_nat (length limiters)) 2) in
  foldl (λ m li, delete (key li) m) m (take entriesToRemove limiters).

Section WithSort.
(** [sortSlice l] is the slice after [sort.Slice(limiters, less)], for the
    slice [l] collected from the map.  Neither the order in which [range]
    yields a map's entries nor the order [sort.Slice] leaves equal
    elements in is fixed by Go: both are part of [sortSlice]. *)
Variable sortSlice : list limiterInfo → list limiterInfo.

Definition cleanupStaleRateLimiters (app : App) (now : Z) : App :=
  let cutoffTime := (now + Go.neg (RateLimiterTTL app))%Z in
  let m :=
    map_fold (λ key limWithTime m,
                if Before (LastAccess limWithTime) cutoffTime
                then delete key m else m)
      (LimiterMap app) (LimiterMap app) in
  let m :=
    if bool_decide (10000 < Z.of_nat (size m))%Z then
      if bool_decide (50000 < Z.of_nat (size m))%Z then
        let limiters :=
          sortSlice
            ((λ kv, {| key := kv.1; lastAccess := LastAccess kv.2 |})
               <$> map_to_list m) in
        removeOldest limiters m
      else m
    else m in
  set_LimiterMap app m.

End WithSort.

End sweeps.

(** ** Package [main]: the rate limiter of a client *)

Module middleware.
Import models.

Definition Second : Z := 1000000000.

(** The divisor of [time.Second/time.Duration(rps)]. *)
Definition refillDivisor (app : App) : Z :=
  let rps := RateLimitRPS app in
  if bool_decide (rps ≤ 0)%Z then 1%Z else rps.

(** [seen] is the map as the lookup under the shared lock found it; the
    map of [app] is the one found under the exclusive lock. *)
Definition getLimiterAfter (seen : gmap string RateLimiterWithTime)
    (app : App) (now : Z) (key : string) : option (App * Limiter) :=
  match seen !! key with
  | Some _ =>
      match LimiterMap app !! key with
      | Some limWithTime =>
          let limWithTime := set_LastAccess limWithTime now in
          Some (set_LimiterMap app (<[key := limWithTime]> (LimiterMap app)),
                TheLimiter limWithTime)
      | None => None   (* limWithTime is nil: limWithTime.Limiter panics *)
      end
  | None =>
      match LimiterMap app !! key with
      | Some limWithTime =>
          let limWithTime := set_LastAccess limWithTime now in
          Some (set_LimiterMap app (<[key := limWithTime]> (LimiterMap app)),
                TheLimiter limWithTime)
      | None =>
          interval ← Go.div Second (refillDivisor app);
          let lim := {| Interval := interval; Burst := RateLimitBurst app |} in
          let limWithTime := {| TheLimiter := lim; LastAccess := now |} in
          Some (set_LimiterMap app (<[key := limWithTime]> (LimiterMap app)), lim)
      end
  end.

(** A call that no other goroutine interleaves with. *)
Definition getLimiter (app : App) (now : Z) (key : string) : option (App * Limiter) :=
  getLimiterAfter (LimiterMap app) app now key.

(** [validateCSRFMiddleware]: [true] when the request goes on to the next
    handler, [false] when it is aborted with 403.  [cookie] is the value of
    the [csrf_token] cookie ([""] when there is none), [header] the
    [X-CSRF-Token] header, [form] the posted [csrf_token] field. *)
Definition validateCSRF (method cookie header form : string) : bool :=
  if String.eqb method "POST" || String.eqb method "PUT"
     || String.eqb method "DELETE" || String.eqb method "PATCH" then
    let token :=
      if negb (String.eqb header "") then header
      else if negb (String.eqb form "") then form
      else "" in
    if String.eqb token "" || String.eqb cookie "" || negb (String.eqb token cookie)
    then false else true
  else true.

End middleware.


(** ** Package [main]: loading the words *)

Module startup.
Import models.

(** [parsed] is the word list that [os.ReadFile] and [json.Unmarshal] gave,
    [None] when either failed (the error is returned as it is). *)
Definition loadWords (parsed : option (list WordEntry))
  : option (list WordEntry * gset string) :=
  wl ← parsed;
  let wordList := filter (λ entry, Go.len (Word entry) = 5%Z) wl in
  let wordSet := foldl (λ wordSet entry, {[Word entry]} ∪ wordSet) ∅ wordList in
  Some (wordList, wordSet).

Section WithStrings.
(** [strings.ToUpper] and [strings.TrimSpace]. *)
Variable ToUpper TrimSpace : string → string.

(** [lines] is what [strings.Split] made of the file that [os.ReadFile]
    gave, [None] when reading failed. *)
Definition loadAcceptedWords (lines : option (list string)) : option (gset string) :=
  lines ← lines;
  Some (foldl (λ acceptedWordSet w,
                 let w := TrimSpace w in
                 if String.eqb w "" then acceptedWordSet
                 else {[ToUpper w]} ∪ acceptedWordSet)
          ∅ lines).

End WithStrings.

(** The [App] that [main] builds before it sets up the router, [None] where
    [main] ends in [logFatal].  [words] and [accepted] are what [loadWords]
    and [loadAcceptedWords] returned, [buildHintMap] is the function of that
    name, and the four numbers are what [getEnvInt] and [getEnvDuration]
    gave for the limits and the TTLs. *)
Definition mainApp (buildHintMap : list WordEntry → gmap string string)
    (words : option (list WordEntry * gset string)) (accepted : option (gset string))
    (rateLimitRPS rateLimitBurst rateLimiterTTL sessionTTL : Z) : option App :=
  '(wordList, wordSet) ← words;
  acceptedWordSet ← accepted;
  let hintMap := buildHintMap wordList in
  Some {| WordList := wordList;
          WordSet := wordSet;
          AcceptedWordSet := acceptedWordSet;
          HintMap := hintMap;
          GameSessions := ∅;
          LimiterMap := ∅;
          RateLimitRPS := rateLimitRPS;
          RateLimitBurst := rateLimitBurst;
          RateLimiterTTL := rateLimiterTTL;
          SessionTTL := sessionTTL;
          RuneBufPool := true |}.

End startup.

(** ** Goroutines calling [session.GetGameState]

    Several requests run [GetGameState] for one session id.  A [*GameState]
    is an address into [heap]; [sessions] is [app.GameSessions].  A thread
    moves from one critical section to the next in one step; the store of
    [CreateNewGame], which takes no lock, is one step as well.  A schedule
    lists which thread moves next. *)

Module race.
Import models game.

Record World := { sessions : gmap string nat; heap : list GameState }.

Inductive Thread :=
| AtLookup                      (* about to take the shared lock *)
| AtTouch (gameState : nat)     (* the lookup found [gameState] *)
| AtCreate                      (* the lookup found nothing *)
| Returned (gameState : nat).

Section WithEnvironment.
Variable ctxDone : bool.
Variable randInt : nat → RandOutcome.
Variable app : App.
Variable now : Z.
Variable sessionID : string.

Definition stepThread (w : World) (t : Thread) : option (World * Thread) :=
  match t with
  | AtLookup =>
      match sessions w !! sessionID with
      | Some gameState => Some (w, AtTouch gameState)
      | None => Some (w, AtCreate)
      end
  | AtTouch p =>
      g ← heap w !! p;
      Some ({| sessions := sessions w;
               heap := <[p := set_LastAccessTime g now]> (heap w) |}, Returned p)
  | AtCreate =>
      '(_, game) ← CreateNewGame ctxDone randInt app now sessionID;
      let p := length (heap w) in
      Some ({| sessions := <[sessionID := p]> (sessions w);
               heap := heap w ++ [game] |}, Returned p)
  | Returned p => Some (w, Returned p)
  end.

Fixpoint run (schedule : list nat) (w : World) (threads : list Thread)
  : option (World * list Thread) :=
  match schedule with
  | [] => Some (w, threads)
  | i :: schedule' =>
      t ← threads !! i;
      '(w', t') ← stepThread w t;
      run schedule' w' (<[i := t']> threads)
  end.

End WithEnvironment.

End race.

(** ** The scoring of the specification

    Modelled from the spec: section 4.1 describes the two passes with
    target positions that are consumed; the code has no such flags (it
    overwrites the consumed rune with a blank).  This definition follows the
    words of section 4.1, on sequences of letters; [CheckGuess] is compared
    with it below. *)

Module scoring_spec.

Inductive Class := Correct | Present | Absent.

Definition statusOf (c : Class) : string :=
  match c with
  | Correct => constants.GuessStatusCorrect
  | Present => constants.GuessStatusPresent
  | Absent => constants.GuessStatusAbsent
  end.

(** Pass 1: a position whose letters agree is Correct and consumed. *)
Fixpoint pass1 (guess target : list Z) : list (option Class) * list bool :=
  match guess, target with
  | g :: guess', t :: target' =>
      let '(marks, consumed) := pass1 guess' target' in
      if bool_decide (g = t) then (Some Correct :: marks, true :: consumed)
      else (None :: marks, false :: consumed)
  | _, _ => ([], [])
  end.

(** The first position, from the left, that is not consumed and holds [c]. *)
Fixpoint firstUnconsumed (c : Z) (target : list Z) (consumed : list bool) : option nat :=
  match target, consumed with
  | t :: target', b :: consumed' =>
      if negb b && bool_decide (t = c) then Some 0%nat
      else S <$> firstUnconsumed c target' consumed'
  | _, _ => None
  end.

(** Pass 2, over the positions left to right. *)
Fixpoint pass2 (target : list Z) (todo : list (Z * option Class)) (consumed : list bool)
  : list Class :=
  match todo with
  | [] => []
  | (_, Some m) :: todo' => m :: pass2 target todo' consumed
  | (g, None) :: todo' =>
      match firstUnconsumed g target consumed with
      | Some j => Present :: pass2 target todo' (<[j := true]> consumed)
      | None => Absent :: pass2 target todo' consumed
      end
  end.

Definition score (guess target : list Z) : list Class :=
  let '(marks, consumed) := pass1 guess target in
  pass2 target (zip guess marks) consumed.

End scoring_spec.

(** * The vocabulary of the statements *)

Import constants models.

Section Vocabulary.
Import game scoring_spec.

(** The states a session goes through: a new game, then transitions. *)
Inductive reachable : GameState → Prop :=
| reachable_new word now :
    reachable {| Guesses := emptyBoard; CurrentRow := 0; GameOver := false;
                 Won := false; TargetWord := ""; SessionWord := word;
                 GuessHistory := []; LastAccessTime := now |}
| reachable_step g g' now guess target row isInvalid :
    reachable g →
    UpdateGameState now g guess target row isInvalid = Some g' →
    reachable g'.

(** The board has its [MaxGuesses] rows and the row index is on it. *)
Definition wellFormed (g : GameState) : Prop :=
  length (Guesses g) = Z.to_nat MaxGuesses ∧ (0 ≤ CurrentRow g ≤ MaxGuesses)%Z.

(** [targetWord] is non-empty iff [gameOver]. *)
Definition revealInvariant (g : GameState) : Prop :=
  TargetWord g ≠ "" ↔ GameOver g = true.

(** [rand.Int] answers below its bound. *)
Definition randInRange (randInt : nat → RandOutcome) : Prop :=
  ∀ max n, (0 < max)%nat → randInt max = RandVal n → (n < max)%nat.

(** A catalog of two words, every word accepted, no session yet. *)
Definition demoApp : App := {|
  WordList := [ {| Word := "APPLE"; Hint := "fruit" |};
                {| Word := "TABLE"; Hint := "furniture" |} ];
  WordSet := {[ "APPLE"; "TABLE" ]};
  AcceptedWordSet := {[ "APPLE"; "TABLE"; "WRONG" ]};
  HintMap := {[ "APPLE" := "fruit"; "TABLE" := "furniture" ]};
  GameSessions := ∅;
  LimiterMap := ∅;
  RateLimitRPS := 5;
  RateLimitBurst := 10;
  RateLimiterTTL := 3600000000000;
  SessionTTL := 10800000000000;
  RuneBufPool := true |}.

(** A source of randomness that always answers 0. *)
Definition randZero : nat → game.RandOutcome := λ _, game.RandVal 0.

(** The six fields of a game that a rejected guess must leave alone. *)
Definition sameProgress (g g' : GameState) : Prop :=
  Guesses g' = Guesses g ∧ GuessHistory g' = GuessHistory g ∧
  CurrentRow g' = CurrentRow g ∧ Won g' = Won g ∧
  GameOver g' = GameOver g ∧ TargetWord g' = TargetWord g.

(** A new game on the word APPLE, the row of an all-correct guess, and the
    game after that guess: won on the first row. *)
Definition appleGame : GameState := {|
  Guesses := game.emptyBoard; CurrentRow := 0; GameOver := false; Won := false;
  TargetWord := ""; SessionWord := "APPLE"; GuessHistory := [];
  LastAccessTime := 0 |}.

Definition appleRow : list GuessResult :=
  [ {| Letter := "A"; Status := GuessStatusCorrect |};
    {| Letter := "P"; Status := GuessStatusCorrect |};
    {| Letter := "P"; Status := GuessStatusCorrect |};
    {| Letter := "L"; Status := GuessStatusCorrect |};
    {| Letter := "E"; Status := GuessStatusCorrect |} ].

Definition wrongRow : list GuessResult :=
  [ {| Letter := "W"; Status := GuessStatusAbsent |};
    {| Letter := "R"; Status := GuessStatusAbsent |};
    {| Letter := "O"; Status := GuessStatusAbsent |};
    {| Letter := "N"; Status := GuessStatusAbsent |};
    {| Letter := "G"; Status := GuessStatusAbsent |} ].

Definition wonGame : GameState := {|
  Guesses := <[0%nat := appleRow]> game.emptyBoard; CurrentRow := 0;
  GameOver := true; Won := true; TargetWord := "APPLE"; SessionWord := "APPLE";
  GuessHistory := ["APPLE"]; LastAccessTime := 1 |}.

(** The application with the won game stored for session "s". *)
Definition wonApp : App := set_GameSessions demoApp {[ "s" := wonGame ]}.

(** A game with one guess played, stored for session "s". *)
Definition playedGame : GameState := {|
  Guesses := <[0%nat := wrongRow]> game.emptyBoard; CurrentRow := 1;
  GameOver := false; Won := false; TargetWord := ""; SessionWord := "APPLE";
  GuessHistory := ["WRONG"]; LastAccessTime := 1 |}.

Definition playedApp : App := set_GameSessions demoApp {[ "s" := playedGame ]}.

(** The limiter map after the first loop of [cleanupStaleRateLimiters]. *)
Definition afterTTL (app : App) (now : Z) : gmap string RateLimiterWithTime :=
  map_fold (λ key limWithTime m,
              if sweeps.Before (LastAccess limWithTime) (now + Go.neg (RateLimiterTTL app))%Z
              then delete key m else m)
    (LimiterMap app) (LimiterMap app).

(** What [sort.Slice] promises for [less]: the same elements, and no
    element before one that is less than it. *)
Definition sortsByLastAccess
    (sortSlice : list sweeps.limiterInfo → list sweeps.limiterInfo) : Prop :=
  ∀ l, sortSlice l ≡ₚ l
       ∧ StronglySorted (λ a b, sweeps.less b a = false) (sortSlice l).

(** Two limiters: "old" was last used at time 0, "new" an hour and 100
    nanoseconds later. *)
Definition twoLimiters : App :=
  set_LimiterMap demoApp
    {[ "old" := {| TheLimiter := {| Interval := 200000000; Burst := 10 |};
                   LastAccess := 0 |};
       "new" := {| TheLimiter := {| Interval := 200000000; Burst := 10 |};
                   LastAccess := 3600000000100 |} ]}.

(** The bytes of a string, as [s[i]] reads them. *)
Fixpoint bytes (s : string) : list Z :=
  match s with
  | EmptyString => []
  | String a s' => Go.byte_val a :: bytes s'
  end.

Definition isASCII (s : string) : Prop := Forall (λ b, (b < 128)%Z) (bytes s).

(** How the code represents the state of the specification's two passes. *)
Definition render (g : Z) (mark : option Class) : GuessResult :=
  match mark with
  | Some c => {| Letter := utf8.string_of_byte g; Status := statusOf c |}
  | None => {| Letter := ""; Status := "" |}
  end.

Definition blanked (target : list Z) (consumed : list bool) : list Z :=
  zip_with (λ t (b : bool), if b then blank else t) target consumed.

Definition final (g : Z) (c : Class) : GuessResult :=
  {| Letter := utf8.string_of_byte g; Status := statusOf c |}.

(** The first position holding [r]. *)
Fixpoint firstIndex (r : Z) (l : list Z) : option nat :=
  match l with
  | [] => None
  | x :: l' => if bool_decide (x = r) then Some 0%nat else S <$> firstIndex r l'
  end.

(** The buffer that goes back to the pool. *)
Definition cleared (pool : option (list Z)) : option (list Z) :=
  (λ pooledBuf, replicate (length pooledBuf) 0%Z) <$> pool.

Fixpoint occurrences (c : Z) (l : list Z) : nat :=
  match l with
  | [] => 0
  | x :: l' => (if bool_decide (x = c) then 1 else 0) + occurrences c l'
  end.

Definition isMarked (status : string) : bool :=
  String.eqb status GuessStatusCorrect || String.eqb status GuessStatusPresent.

(** The positions holding the letter [c] whose status is Correct or Present. *)
Fixpoint countMarked (c : Z) (letters : list Z) (statuses : list string) : nat :=
  match letters, statuses with
  | g :: letters', s :: statuses' =>
      (if bool_decide (g = c) && isMarked s then 1 else 0)
      + countMarked c letters' statuses'
  | _, _ => 0
  end.

Fixpoint available (c : Z) (target : list Z) (consumed : list bool) : nat :=
  match target, consumed with
  | t :: target', b :: consumed' =>
      (if bool_decide (t = c) && negb b then 1 else 0) + available c target' consumed'
  | _, _ => 0
  end.

Definition isCorrect (m : option Class) : bool :=
  match m with Some Correct => true | _ => false end.

Fixpoint corrects (c : Z) (todo : list (Z * option Class)) : nat :=
  match todo with
  | [] => 0
  | (g, m) :: todo' =>
      (if bool_decide (g = c) && isCorrect m then 1 else 0) + corrects c todo'
  end.

(** A five-byte word that starts with a two-byte letter (U+00E9), and a
    five-byte guess that starts with a three-byte one (U+9000, whose first
    byte is 0xE9). *)
Definition accentedWord : string :=
  String (ascii_of_nat 195) (String (ascii_of_nat 169) "XYZ").

Definition wideGuess : string :=
  String (ascii_of_nat 233) (String (ascii_of_nat 128) (String (ascii_of_nat 128) "AB")).

End Vocabulary.

(** [merge_sort] on the last access times is one possible [sort.Slice]. *)
Definition notLater (a b : sweeps.limiterInfo) : Prop :=
  (sweeps.lastAccess a ≤ sweeps.lastAccess b)%Z.

#[local] Instance notLater_dec : RelDecision notLater :=
  λ a b, decide (sweeps.lastAccess a ≤ sweeps.lastAccess b)%Z.

Definition sortByLastAccess : list sweeps.limiterInfo → list sweeps.limiterInfo :=
  merge_sort notLater.

(** A limiter map with [n] clients, client [i] last seen at time [i]. *)
Definition manyLimiters (n : nat) : gmap string RateLimiterWithTime :=
  list_to_map
    ((λ i : nat, (pretty i,
                  {| TheLimiter := {| Interval := 200000000; Burst := 10 |};
                     LastAccess := Z.of_nat i |}))
       <$> seq 0 n).

Definition crowdedApp : App :=
  set_LimiterMap demoApp (manyLimiters (Z.to_nat 50001)).

(** A guess submitted to the transition: the guess, its score row and
    whether it is outside the target words. *)
Definition Move : Type := string * list GuessResult * bool.

Definition isWinning (target : string) (move : Move) : bool :=
  negb move.2 && String.eqb move.1.1 target.

(** The transitions of a sequence of moves, one after the other. *)
Fixpoint playAll (now : Z) (g : GameState) (target : string) (moves : list Move)
  : option GameState :=
  match moves with
  | [] => Some g
  | move :: moves' =>
      match game.UpdateGameState now g move.1.1 target move.1.2 move.2 with
      | Some g' => playAll now g' target moves'
      | None => None
      end
  end.

(** What the guess handler keeps true of a game: the board has its rows,
    the session word has five bytes, a won game is over, a game is over
    exactly when it is won or out of rows, a won game is not out of rows,
    the history has one guess per filled row plus the winning one and no
    guess twice, and the target word is the session word once the game is
    over and empty before. *)
Definition consistent (g : GameState) : Prop :=
  wellFormed g
  ∧ String.length (SessionWord g) = WordLength
  ∧ (Won g = true → GameOver g = true ∧ (CurrentRow g < MaxGuesses)%Z)
  ∧ (GameOver g = true ↔ Won g = true ∨ CurrentRow g = MaxGuesses)
  ∧ Z.of_nat (length (GuessHistory g))
    = (CurrentRow g + if Won g then 1 else 0)%Z
  ∧ NoDup (GuessHistory g)
  ∧ TargetWord g = (if GameOver g then SessionWord g else "").

(** A catalog as [loadWords] leaves it: five bytes per word. *)
Definition fiveByteWords (app : App) : Prop :=
  Forall (λ entry, String.length (Word entry) = WordLength) (WordList app).

(** Six guesses, none of them the word. *)
Definition sixMisses : list Move :=
  [ ("WRONG", wrongRow, true); ("TABLE", wrongRow, false);
    ("CHAIR", wrongRow, true); ("GRAPE", wrongRow, true);
    ("LEMON", wrongRow, true); ("PEACH", wrongRow, true) ].

(** The row of [CheckGuess] while its first loop is at index [k]: a position
    before [k] whose bytes agree is Correct, every other one is untouched. *)
Definition markedUpTo (guess target : string) (k : nat) (result : list GuessResult)
  : Prop :=
  length result = WordLength
  ∧ ∀ i g t, bytes guess !! i = Some g → bytes target !! i = Some t →
      (i < WordLength)%nat →
      result !! i
      = Some (if bool_decide (g = t) && bool_decide (i < k)%nat
              then {| Letter := utf8.string_of_byte g; Status := GuessStatusCorrect |}
              else {| Letter := ""; Status := "" |}).

(** The row while the second loop is at index [k]: the positions whose
    bytes agree are Correct, the other ones before [k] are Present or
    Absent, and those from [k] on are untouched. *)
Definition scoredUpTo (guess target : string) (k : nat) (result : list GuessResult)
  : Prop :=
  length result = WordLength
  ∧ ∀ i g t, bytes guess !! i = Some g → bytes target !! i = Some t →
      (i < WordLength)%nat →
      ∃ r, result !! i = Some r
           ∧ if bool_decide (g = t)
             then r = {| Letter := utf8.string_of_byte g;
                         Status := GuessStatusCorrect |}
             else if bool_decide (i < k)%nat
                  then Letter r = utf8.string_of_byte g
                       ∧ (Status r = GuessStatusPresent ∨ Status r = GuessStatusAbsent)
                  else r = {| Letter := ""; Status := "" |}.

(** An application as [main] sets it up and the handlers keep it: a catalog
    that has a word, five bytes per word, a rune pool, and consistent games. *)
Definition served (app : App) : Prop :=
  WordList app ≠ [] ∧ fiveByteWords app ∧ RuneBufPool app = true
  ∧ map_Forall (λ _ g, consistent g) (GameSessions app).

(** The two applications differ in their sessions at most. *)
Definition sameSetup (app app' : App) : Prop :=
  WordList app' = WordList app ∧ WordSet app' = WordSet app
  ∧ AcceptedWordSet app' = AcceptedWordSet app ∧ HintMap app' = HintMap app
  ∧ LimiterMap app' = LimiterMap app ∧ RateLimitRPS app' = RateLimitRPS app
  ∧ RateLimitBurst app' = RateLimitBurst app
  ∧ RateLimiterTTL app' = RateLimiterTTL app ∧ SessionTTL app' = SessionTTL app
  ∧ RuneBufPool app' = RuneBufPool app.

(** * Properties *)

(** ** The transition *)

Section Transition.
Import game.

Lemma UpdateGameState_guard now g guess target row isInvalid :
  (MaxGuesses ≤ CurrentRow g)%Z →
  UpdateGameState now g guess target row isInvalid = Some g.
Proof.
  intros H. unfold UpdateGameState. by rewrite bool_decide_eq_true_2.
Qed.

(** What a transition below the guard computes, field by field. *)
Lemma UpdateGameState_open now g guess target row isInvalid :
  (0 ≤ CurrentRow g < MaxGuesses)%Z →
  (CurrentRow g < Z.of_nat (length (Guesses g)))%Z →
  ∃ g', UpdateGameState now g guess target row isInvalid = Some g' ∧
    let win := negb isInvalid && String.eqb guess target in
    Guesses g' = <[Z.to_nat (CurrentRow g) := row]> (Guesses g) ∧
    GuessHistory g' = (GuessHistory g ++ [guess])%list ∧
    LastAccessTime g' = now ∧
    SessionWord g' = SessionWord g ∧
    CurrentRow g' = (if win then CurrentRow g else CurrentRow g + 1)%Z ∧
    Won g' = (if win then true else Won g) ∧
    GameOver g' = (if win then true
                   else if bool_decide (MaxGuesses ≤ CurrentRow g + 1)%Z then true
                        else GameOver g) ∧
    TargetWord g' = (if GameOver g' then target else TargetWord g).
Proof.
  intros Hrow Hlen. unfold UpdateGameState, Go.assign.
  rewrite bool_decide_eq_false_2 by lia.
  rewrite bool_decide_eq_true_2 by lia. cbn.
  destruct (negb isInvalid && String.eqb guess target); cbn.
  - eexists; split; [reflexivity|]. cbn. repeat split.
  - case_bool_decide; cbn.
    + eexists; split; [reflexivity|]. cbn. repeat split.
    + destruct (GameOver g) eqn:Hover; cbn; rewrite ?Hover;
        (eexists; split; [reflexivity|]); cbn; rewrite ?Hover; repeat split.
Qed.

Lemma UpdateGameState_below_guard now g guess target row isInvalid :
  (CurrentRow g < MaxGuesses)%Z →
  UpdateGameState now g guess target row isInvalid ≠ Some g.
Proof.
  intros Hlt Heq.
  destruct (decide (0 ≤ CurrentRow g < Z.of_nat (length (Guesses g)))%Z) as [Hin|Hout].
  - destruct (UpdateGameState_open now g guess target row isInvalid)
      as (g' & Heq' & _ & Hhist & _); [lia | lia |].
    rewrite Heq in Heq'. simplify_eq.
    apply (f_equal length) in Hhist. rewrite length_app in Hhist. cbn in Hhist. lia.
  - unfold UpdateGameState, Go.assign in Heq.
    rewrite bool_decide_eq_false_2 in Heq by lia.
    by rewrite bool_decide_eq_false_2 in Heq by done.
Qed.

Lemma reachable_lost g :
  reachable g →
  (0 ≤ CurrentRow g ≤ MaxGuesses)%Z ∧
  length (Guesses g) = Z.to_nat MaxGuesses ∧
  (GameOver g = true → Won g = true ∨ CurrentRow g = MaxGuesses).
Proof.
  induction 1 as [word now|g g' now guess target row isInvalid Hg IH Hstep].
  - cbn. unfold MaxGuesses. repeat split; try lia; try done.
  - destruct IH as (Hrow & Hlen & Hover).
    destruct (decide (MaxGuesses ≤ CurrentRow g)%Z) as [Hge|Hlt].
    + rewrite UpdateGameState_guard in Hstep by done. by simplify_eq.
    + destruct (UpdateGameState_open now g guess target row isInvalid)
        as (g'' & Heq & HG & _ & _ & _ & HR & HW & HO & _);
        [lia | rewrite Hlen; unfold MaxGuesses in *; lia |].
      rewrite Heq in Hstep. simplify_eq. cbn in *.
      rewrite HR, HW, HO, HG, length_insert.
      destruct (negb isInvalid && String.eqb guess target);
        [repeat split; try lia; auto|].
      case_bool_decide; repeat split; try lia; auto.
      intros Ho. destruct (Hover Ho) as [?|?]; [auto | lia].
Qed.

End Transition.

(** ** Word choice *)

Section WordChoice.
Import game.

Variable ctxDone : bool.
Variable randInt : nat → RandOutcome.
Hypothesis randInt_bound : randInRange randInt.

Lemma pick_total {A} (l : list A) :
  l ≠ [] →
  ∃ e, (if ctxDone then l !! 0%nat
        else match randInt (length l) with
             | RandErr => l !! 0%nat
             | RandVal n => l !! n
             end) = Some e ∧ e ∈ l.
Proof using randInt_bound.
  intros Hne. destruct l as [|a l]; [done|].
  destruct ctxDone.
  - exists a. split; [done | left].
  - destruct (randInt (length (a :: l))) as [|n] eqn:Hr.
    + exists a. split; [done | left].
    + apply randInt_bound in Hr; [|cbn; lia].
      destruct (lookup_lt_is_Some_2 (a :: l) n Hr) as [e He].
      exists e. split; [done|]. by eapply list_elem_of_lookup_2.
Qed.

Lemma GetRandomWordEntry_total app :
  WordList app ≠ [] →
  ∃ e, GetRandomWordEntry ctxDone randInt app = Some e ∧ e ∈ WordList app.
Proof using randInt_bound.
  intros Hne. unfold GetRandomWordEntry.
  destruct (pick_total (WordList app) Hne) as (e & He & Hin).
  exists e. split; [|done].
  destruct ctxDone; [done|].
  destruct (WordList app) as [|a l] eqn:Hl; [done|]. done.
Qed.

Lemma GetRandomWordEntryExcluding_available app completedWords :
  (∃ e, e ∈ WordList app ∧ Word e ∉ completedWords) →
  ∃ e, GetRandomWordEntryExcluding ctxDone randInt app completedWords = Some (e, false)
       ∧ e ∈ WordList app ∧ Word e ∉ completedWords.
Proof using randInt_bound.
  intros (e0 & Hin0 & Hout0). unfold GetRandomWordEntryExcluding.
  case_bool_decide as Hc.
  - destruct (GetRandomWordEntry_total app) as (e & -> & Hin).
    { intros Hnil. rewrite Hnil in Hin0. by apply elem_of_nil in Hin0. }
    exists e. cbn. split_and!; [done..|].
    destruct completedWords; [apply not_elem_of_nil | done].
  - set (avail := filter (λ entry, Word entry ∉ completedWords) (WordList app)).
    assert (Havail : e0 ∈ avail) by (apply list_elem_of_filter; done).
    assert (Hne : avail ≠ []).
    { intros Hnil. rewrite Hnil in Havail. by apply elem_of_nil in Havail. }
    rewrite bool_decide_eq_false_2
      by (intros Hz; apply Hne; by apply length_zero_iff_nil).
    destruct (pick_total avail Hne) as (e & He & Hin).
    apply list_elem_of_filter in Hin as [Hout Hin].
    exists e. split; [|done].
    destruct ctxDone; [by rewrite He|].
    destruct (randInt (length avail)); by rewrite He.
Qed.

Lemma GetRandomWordEntryExcluding_exhausted app completedWords :
  WordList app ≠ [] →
  (∀ e, e ∈ WordList app → Word e ∈ completedWords) →
  ∃ e, GetRandomWordEntryExcluding ctxDone randInt app completedWords = Some (e, true)
       ∧ e ∈ WordList app.
Proof using randInt_bound.
  intros Hne Hall. unfold GetRandomWordEntryExcluding.
  destruct (GetRandomWordEntry_total app Hne) as (e & He & Hin).
  rewrite bool_decide_eq_false_2.
  2:{ intros Hz. apply length_zero_iff_nil in Hz.
      specialize (Hall e Hin). rewrite Hz in Hall. by apply elem_of_nil in Hall. }
  rewrite bool_decide_eq_true_2.
  2:{ apply length_zero_iff_nil.
      destruct (filter _ (WordList app)) as [|x l] eqn:Hf; [done|].
      assert (Hx : x ∈ filter (λ entry, Word entry ∉ completedWords) (WordList app))
        by (rewrite Hf; left).
      apply list_elem_of_filter in Hx as [Hnot Hx]. destruct Hnot. by apply Hall. }
  rewrite He. exists e. done.
Qed.

(** Every outcome of the choice with exclusions, when the catalog has a word. *)
Lemma GetRandomWordEntryExcluding_total app completedWords :
  WordList app ≠ [] →
  ∃ e b, GetRandomWordEntryExcluding ctxDone randInt app completedWords = Some (e, b)
         ∧ e ∈ WordList app.
Proof using randInt_bound.
  intros Hne.
  destruct (decide (Forall (λ e, Word e ∈ completedWords) (WordList app))) as [Hall|Hex].
  - destruct (GetRandomWordEntryExcluding_exhausted app completedWords Hne)
      as (e & He & Hin).
    { intros e He. by apply (proj1 (Forall_forall _ _) Hall). }
    eauto.
  - apply not_Forall_Exists in Hex; [|apply _].
    apply Exists_exists in Hex as (e0 & Hin0 & Hout0).
    destruct (GetRandomWordEntryExcluding_available app completedWords)
      as (e & He & Hin & _); eauto.
Qed.

End WordChoice.

Lemma randZero_inRange : randInRange randZero.
Proof. intros max n Hmax [= <-]. done. Qed.

(** C5. With the random source answering below its bound and a catalog that
    has a word: when some catalog word is outside the exclusion list (so for
    every proper subset of the catalog, the empty one included),
    [GetRandomWordEntryExcluding] returns a catalog entry whose word is not
    excluded, with [false]; when the list covers the catalog it returns an
    entry of the full catalog, with [true]. *)
Theorem GetRandomWordEntryExcluding_exhaustion
    ctxDone randInt app (completedWords : list string) :
  randInRange randInt →
  WordList app ≠ [] →
  ((∃ e, e ∈ WordList app ∧ Word e ∉ completedWords) →
   ∃ e, game.GetRandomWordEntryExcluding ctxDone randInt app completedWords
          = Some (e, false)
        ∧ e ∈ WordList app ∧ Word e ∉ completedWords)
  ∧
  ((∀ e, e ∈ WordList app → Word e ∈ completedWords) →
   ∃ e, game.GetRandomWordEntryExcluding ctxDone randInt app completedWords
          = Some (e, true)
        ∧ e ∈ WordList app).
Proof.
  intros Hrand Hne. split.
  - by apply GetRandomWordEntryExcluding_available.
  - by apply GetRandomWordEntryExcluding_exhausted.
Qed.

Lemma GetRandomWordEntryExcluding_exhaustion_witness :
  (∃ e, game.GetRandomWordEntryExcluding false randZero demoApp ["APPLE"]
          = Some (e, false)
        ∧ e ∈ WordList demoApp ∧ Word e ∉ ["APPLE"])
  ∧
  (∃ e, game.GetRandomWordEntryExcluding false randZero demoApp ["TABLE"; "APPLE"]
          = Some (e, true)
        ∧ e ∈ WordList demoApp).
Proof.
  split.
  - apply (GetRandomWordEntryExcluding_exhaustion false randZero demoApp ["APPLE"]).
    + apply randZero_inRange.
    + discriminate.
    + exists {| Word := "TABLE"; Hint := "furniture" |}. cbn.
      split; [set_solver|]. intros H%list_elem_of_singleton. discriminate.
  - apply (GetRandomWordEntryExcluding_exhaustion false randZero demoApp
             ["TABLE"; "APPLE"]).
    + apply randZero_inRange.
    + discriminate.
    + cbn. intros e. rewrite !elem_of_cons, elem_of_nil.
      intros [->|[->|[]]]; cbn; auto.
Defined.

(** ** The guess handler *)

Section GuessHandler.
Import game session handlers.

Variable ctxDone : bool.
Variable randInt : nat → RandOutcome.

Local Abbreviation ProcessGuess := (ProcessGuess ctxDone randInt).
Local Abbreviation GetGameState := (GetGameState ctxDone randInt).

Lemma GetGameState_existing app now sessionID g :
  GameSessions app !! sessionID = Some g →
  GetGameState app now sessionID =
    Some (set_GameSessions app
            (<[sessionID := set_LastAccessTime g now]> (GameSessions app)),
          set_LastAccessTime g now).
Proof. intros H. unfold session.GetGameState. by rewrite H. Qed.

Lemma GetGameState_total app now sessionID :
  randInRange randInt →
  WordList app ≠ [] →
  ∃ app0 g0, GetGameState app now sessionID = Some (app0, g0)
    ∧ GameSessions app0 !! sessionID = Some g0
    ∧ AcceptedWordSet app0 = AcceptedWordSet app
    ∧ match GameSessions app !! sessionID with
      | Some g => g0 = set_LastAccessTime g now
      | None => Guesses g0 = emptyBoard ∧ CurrentRow g0 = 0%Z ∧ GameOver g0 = false
                ∧ Won g0 = false ∧ TargetWord g0 = "" ∧ GuessHistory g0 = []
      end.
Proof.
  intros Hrand Hne. unfold session.GetGameState.
  destruct (GameSessions app !! sessionID) as [g|] eqn:Hg.
  - eexists _, _. split; [done|]. cbn. by rewrite lookup_insert_eq.
  - unfold CreateNewGame.
    destruct (GetRandomWordEntry_total ctxDone randInt Hrand app Hne) as (e & -> & _).
    cbn. eexists _, _. split; [done|]. cbn. by rewrite lookup_insert_eq.
Qed.

(** The checks of [ProcessGuess], in the order it makes them. *)
Lemma ProcessGuess_checks app now sessionID g guess :
  (Go.len guess ≠ Z.of_nat WordLength →
   ProcessGuess app now sessionID g guess = Some (app, ErrorCodeInvalidLength))
  ∧ (Go.len guess = Z.of_nat WordLength → (MaxGuesses ≤ CurrentRow g)%Z →
     ProcessGuess app now sessionID g guess = Some (app, ErrorCodeNoMoreGuesses))
  ∧ (Go.len guess = Z.of_nat WordLength → (CurrentRow g < MaxGuesses)%Z →
     ∀ app' code, ProcessGuess app now sessionID g guess = Some (app', code) →
                  code = "").
Proof.
  unfold handlers.ProcessGuess. split_and!.
  - intros H. by rewrite bool_decide_eq_true_2.
  - intros H1 H2. rewrite bool_decide_eq_false_2 by tauto.
    by rewrite bool_decide_eq_true_2.
  - intros H1 H2 app' code. rewrite bool_decide_eq_false_2 by tauto.
    rewrite bool_decide_eq_false_2 by lia.
    intros H. destruct (GetTargetWord _ _ _ _) as [[g1 t]|]; [cbn in H|done].
    destruct (CheckGuess _ _ _) as [[r b]|]; [cbn in H|done].
    destruct (UpdateGameState _ _ _ _ _ _); [cbn in H|done].
    by simplify_eq.
Qed.

(** An error code of [ProcessGuess] comes with the application untouched. *)
Lemma ProcessGuess_error app now sessionID g guess app' code :
  ProcessGuess app now sessionID g guess = Some (app', code) →
  code ≠ "" → app' = app.
Proof.
  intros H Hcode. destruct (ProcessGuess_checks app now sessionID g guess)
    as (Hlen & Hrow & Hok).
  destruct (decide (Go.len guess = Z.of_nat WordLength)) as [Hl|Hl].
  - destruct (decide (MaxGuesses ≤ CurrentRow g)%Z) as [Hr|Hr].
    + rewrite Hrow in H by done. by simplify_eq.
    + destruct Hcode. eapply Hok; [done | lia | done].
  - rewrite Hlen in H by done. by simplify_eq.
Qed.

Variable ToUpper TrimSpace : string → string.

Local Abbreviation GuessHandler := (GuessHandler ctxDone randInt ToUpper TrimSpace).
Local Abbreviation NormalizeGuess := (NormalizeGuess ToUpper TrimSpace).

(** The handler after its get-or-create step: the checks in their order. *)
Lemma GuessHandler_checks app now sessionID rawGuess app0 g0 :
  GetGameState app now sessionID = Some (app0, g0) →
  let guess := NormalizeGuess rawGuess in
  (GameOver g0 = true →
   GuessHandler app now sessionID rawGuess = Some (app0, ErrorCodeGameOver))
  ∧ (GameOver g0 = false → guess ∉ AcceptedWordSet app0 →
     GuessHandler app now sessionID rawGuess = Some (app0, ErrorCodeWordNotAccepted))
  ∧ (GameOver g0 = false → guess ∈ AcceptedWordSet app0 →
     guess ∈ GuessHistory g0 →
     GuessHandler app now sessionID rawGuess = Some (app0, ErrorCodeDuplicateGuess))
  ∧ (GameOver g0 = false → guess ∈ AcceptedWordSet app0 →
     guess ∉ GuessHistory g0 →
     GuessHandler app now sessionID rawGuess
       = ProcessGuess app0 now sessionID g0 guess).
Proof.
  intros Hget guess. unfold handlers.GuessHandler. rewrite Hget. cbn.
  unfold ValidateGameState, IsAcceptedWord. fold guess. split_and!.
  - by intros ->.
  - intros -> Hacc. by rewrite bool_decide_eq_false_2.
  - intros -> Hacc Hdup. rewrite bool_decide_eq_true_2 by done. cbn.
    by rewrite bool_decide_eq_true_2.
  - intros -> Hacc Hdup. rewrite bool_decide_eq_true_2 by done. cbn.
    by rewrite bool_decide_eq_false_2.
Qed.

Lemma GuessHandler_error app now sessionID rawGuess app0 g0 app' code :
  GetGameState app now sessionID = Some (app0, g0) →
  GuessHandler app now sessionID rawGuess = Some (app', code) →
  code ≠ "" → app' = app0.
Proof.
  intros Hget H Hcode.
  destruct (GuessHandler_checks app now sessionID rawGuess app0 g0 Hget)
    as (Hover & Hacc & Hdup & Hproc).
  destruct (GameOver g0) eqn:Ho.
  { rewrite Hover in H by done. by simplify_eq. }
  destruct (decide (NormalizeGuess rawGuess ∈ AcceptedWordSet app0)) as [Ha|Ha].
  2:{ rewrite Hacc in H by done. by simplify_eq. }
  destruct (decide (NormalizeGuess rawGuess ∈ GuessHistory g0)) as [Hd|Hd].
  { rewrite Hdup in H by done. by simplify_eq. }
  rewrite Hproc in H by done. by eapply ProcessGuess_error.
Qed.

End GuessHandler.

(** ** Terminal states (C1) *)

Lemma wonGame_reachable : reachable wonGame.
Proof.
  apply (reachable_step appleGame wonGame 1 "APPLE" "APPLE" appleRow false).
  - apply (reachable_new "APPLE" 0).
  - reflexivity.
Qed.

(** C1, refuted as stated: [wonGame] is a game that is over (won on its
    first row); a transition on it is not a no-op.  It writes a row, extends
    (over the winning one), extends the history and moves [currentRow]. *)
Lemma UpdateGameState_on_won_game_changes_it :
  reachable wonGame ∧ GameOver wonGame = true ∧ Won wonGame = true ∧
  ∃ g', game.UpdateGameState 2 wonGame "WRONG" "APPLE" wrongRow false = Some g' ∧
        CurrentRow wonGame = 0%Z ∧ CurrentRow g' = 1%Z ∧
        GuessHistory wonGame = ["APPLE"] ∧ GuessHistory g' = ["APPLE"; "WRONG"] ∧
        Guesses g' ≠ Guesses wonGame.
Proof.
  split; [apply wonGame_reachable|]. split; [done|]. split; [done|].
  eexists. split; [reflexivity|]. cbn. split_and!; done.
Qed.

(** C1, amended.  [UpdateGameState] is a no-op under its guard,
    [CurrentRow >= MaxGuesses], and never below it; every lost game that play
    reaches is under it.  A game that is over is kept away from the
    transition by the guess handler, which answers [game_over] and only
    refreshes the access time.  The retry handler puts a new game on the
    same session word. *)
Theorem terminal_states_are_guarded :
  (∀ now g guess target row isInvalid,
     (MaxGuesses ≤ CurrentRow g)%Z ↔
     game.UpdateGameState now g guess target row isInvalid = Some g)
  ∧ (∀ g, reachable g → GameOver g = true → Won g = false →
     ∀ now guess target row isInvalid,
       game.UpdateGameState now g guess target row isInvalid = Some g)
  ∧ (∀ ctxDone randInt ToUpper TrimSpace app now sessionID rawGuess g,
       GameSessions app !! sessionID = Some g → GameOver g = true →
       handlers.GuessHandler ctxDone randInt ToUpper TrimSpace app now sessionID rawGuess
       = Some (set_GameSessions app
                 (<[sessionID := set_LastAccessTime g now]> (GameSessions app)),
               ErrorCodeGameOver))
  ∧ (∀ ctxDone randInt app now sessionID g,
       GameSessions app !! sessionID = Some g →
       ∃ app' g', handlers.RetryWordHandler ctxDone randInt app now sessionID = Some app'
         ∧ GameSessions app' !! sessionID = Some g'
         ∧ SessionWord g' = SessionWord g
         ∧ Guesses g' = game.emptyBoard ∧ GuessHistory g' = []
         ∧ CurrentRow g' = 0%Z ∧ Won g' = false ∧ GameOver g' = false
         ∧ TargetWord g' = "").
Proof.
  split_and!.
  - intros now g guess target row isInvalid. split.
    + apply UpdateGameState_guard.
    + intros Heq. destruct (decide (MaxGuesses ≤ CurrentRow g)%Z); [done|].
      by destruct (UpdateGameState_below_guard now g guess target row isInvalid);
        [lia|].
  - intros g Hreach Hover Hwon now guess target row isInvalid.
    apply UpdateGameState_guard.
    destruct (reachable_lost g Hreach) as (_ & _ & H).
    destruct (H Hover) as [Hw|Hr]; [congruence | lia].
  - intros ctxDone randInt ToUpper TrimSpace app now sessionID rawGuess g Hg Hover.
    pose proof (GetGameState_existing ctxDone randInt app now sessionID g Hg) as Hget.
    by apply (GuessHandler_checks ctxDone randInt ToUpper TrimSpace _ _ _ rawGuess _ _ Hget).
  - intros ctxDone randInt app now sessionID g Hg.
    unfold handlers.RetryWordHandler. rewrite Hg.
    eexists _, _. split; [reflexivity|]. cbn. rewrite lookup_insert_eq.
    split_and!; reflexivity.
Qed.

Lemma terminal_states_are_guarded_witness :
  handlers.GuessHandler false randZero id id wonApp 5 "s" "TABLE"
  = Some (set_GameSessions wonApp
            (<["s" := set_LastAccessTime wonGame 5]> (GameSessions wonApp)),
          ErrorCodeGameOver).
Proof.
  destruct terminal_states_are_guarded as (_ & _ & H & _).
  apply H; reflexivity.
Defined.

(** ** The order of the validations (C3) *)

(** C3, refuted as stated: a guess of the wrong length that is not an
    accepted word is answered with the acceptance error, not the length
    error; on a game that is over it is answered with [game_over]. *)
Lemma wrong_length_guess_gets_acceptance_error :
  Go.len (handlers.NormalizeGuess id id "ABC") ≠ Z.of_nat WordLength
  ∧ (∃ app', handlers.GuessHandler false randZero id id demoApp 1 "s" "ABC"
             = Some (app', ErrorCodeWordNotAccepted))
  ∧ (∃ app', handlers.GuessHandler false randZero id id wonApp 5 "s" "ABC"
             = Some (app', ErrorCodeGameOver))
  ∧ ErrorCodeWordNotAccepted ≠ ErrorCodeInvalidLength
  ∧ ErrorCodeGameOver ≠ ErrorCodeInvalidLength.
Proof.
  split_and!; [done | | | done | done].
  - eexists. vm_compute. reflexivity.
  - eexists. vm_compute. reflexivity.
Qed.

(** C3, amended.  After the get-or-create step the guess handler checks, in
    this order: the game is over, the word is not accepted, the guess is a
    duplicate, the length is wrong, no attempt is left; only then comes the
    transition.  A guess that fails several checks gets the code of the
    first one in this order, and the application is then as get-or-create
    left it. *)
Theorem GuessHandler_validation_order
    ctxDone randInt ToUpper TrimSpace app now sessionID rawGuess :
  randInRange randInt →
  WordList app ≠ [] →
  ∃ app0 g0,
    session.GetGameState ctxDone randInt app now sessionID = Some (app0, g0) ∧
    let guess := handlers.NormalizeGuess ToUpper TrimSpace rawGuess in
    let answer :=
      handlers.GuessHandler ctxDone randInt ToUpper TrimSpace app now sessionID rawGuess in
    (GameOver g0 = true → answer = Some (app0, ErrorCodeGameOver))
    ∧ (GameOver g0 = false → guess ∉ AcceptedWordSet app →
       answer = Some (app0, ErrorCodeWordNotAccepted))
    ∧ (GameOver g0 = false → guess ∈ AcceptedWordSet app →
       guess ∈ GuessHistory g0 →
       answer = Some (app0, ErrorCodeDuplicateGuess))
    ∧ (GameOver g0 = false → guess ∈ AcceptedWordSet app →
       guess ∉ GuessHistory g0 → Go.len guess ≠ Z.of_nat WordLength →
       answer = Some (app0, ErrorCodeInvalidLength))
    ∧ (GameOver g0 = false → guess ∈ AcceptedWordSet app →
       guess ∉ GuessHistory g0 → Go.len guess = Z.of_nat WordLength →
       (MaxGuesses ≤ CurrentRow g0)%Z →
       answer = Some (app0, ErrorCodeNoMoreGuesses))
    ∧ (GameOver g0 = false → guess ∈ AcceptedWordSet app →
       guess ∉ GuessHistory g0 → Go.len guess = Z.of_nat WordLength →
       (CurrentRow g0 < MaxGuesses)%Z →
       ∀ app' code, answer = Some (app', code) → code = "").
Proof.
  intros Hrand Hne.
  destruct (GetGameState_total ctxDone randInt app now sessionID Hrand Hne)
    as (app0 & g0 & Hget & _ & Hacc & _).
  exists app0, g0. split; [done|]. intros guess answer.
  destruct (GuessHandler_checks ctxDone randInt ToUpper TrimSpace
              app now sessionID rawGuess app0 g0 Hget)
    as (Hover & Hnacc & Hdup & Hproc).
  rewrite Hacc in Hnacc, Hdup, Hproc.
  destruct (ProcessGuess_checks ctxDone randInt app0 now sessionID g0 guess)
    as (Hlen & Hrow & Hok).
  subst answer. split_and!; auto.
  - intros. fold guess in Hproc. rewrite Hproc by done. auto.
  - intros. fold guess in Hproc. rewrite Hproc by done. auto.
  - intros ???? Hr app' code. fold guess in Hproc. rewrite Hproc by done.
    by apply Hok.
Qed.

Lemma GuessHandler_validation_order_witness :
  ∃ app0 g0,
    session.GetGameState false randZero demoApp 1 "s" = Some (app0, g0) ∧
    handlers.GuessHandler false randZero id id demoApp 1 "s" "ABC"
    = Some (app0, ErrorCodeWordNotAccepted).
Proof.
  destruct (GuessHandler_validation_order false randZero id id demoApp 1 "s" "ABC")
    as (app0 & g0 & Hget & _ & H & _).
  - apply randZero_inRange.
  - discriminate.
  - exists app0, g0. split; [exact Hget|]. apply H.
    + vm_compute in Hget. by simplify_eq.
    + vm_compute. set_solver.
Defined.

(** ** Rejected guesses (C9) *)

(** C9. When the guess handler answers with an error code, the session's
    game has the rows, history, current row, won, game-over and target word
    it had before the call (for a session seen for the first time: those of
    the new game), and no other session is touched. *)
Theorem rejected_guess_leaves_game_unchanged
    ctxDone randInt ToUpper TrimSpace app now sessionID rawGuess app' code :
  handlers.GuessHandler ctxDone randInt ToUpper TrimSpace app now sessionID rawGuess
    = Some (app', code) →
  code ≠ "" →
  (∃ g', GameSessions app' !! sessionID = Some g' ∧
     match GameSessions app !! sessionID with
     | Some g => sameProgress g g' ∧ SessionWord g' = SessionWord g
     | None => Guesses g' = game.emptyBoard ∧ GuessHistory g' = [] ∧
               CurrentRow g' = 0%Z ∧ Won g' = false ∧ GameOver g' = false ∧
               TargetWord g' = ""
     end)
  ∧ (∀ other, other ≠ sessionID →
       GameSessions app' !! other = GameSessions app !! other).
Proof.
  intros H Hcode.
  destruct (session.GetGameState ctxDone randInt app now sessionID)
    as [[app0 g0]|] eqn:Hget.
  2:{ unfold handlers.GuessHandler in H. by rewrite Hget in H. }
  assert (app' = app0) as -> by (by eapply GuessHandler_error).
  clear H. unfold session.GetGameState in Hget.
  destruct (GameSessions app !! sessionID) as [g|] eqn:Hg.
  - simplify_eq. cbn. split.
    + exists (set_LastAccessTime g now). rewrite lookup_insert_eq.
      by repeat split.
    + intros other Ho. by rewrite lookup_insert_ne.
  - unfold game.CreateNewGame in Hget.
    destruct (game.GetRandomWordEntry _ _ _); [cbn in Hget|done].
    simplify_eq. cbn. split.
    + eexists. rewrite lookup_insert_eq. by repeat split.
    + intros other Ho. by rewrite lookup_insert_ne.
Qed.

Lemma rejected_guess_leaves_game_unchanged_witness :
  (∃ g', GameSessions
           (set_GameSessions playedApp
              (<["s" := set_LastAccessTime playedGame 7]> (GameSessions playedApp)))
           !! "s" = Some g' ∧
     match GameSessions playedApp !! "s" with
     | Some g => sameProgress g g' ∧ SessionWord g' = SessionWord g
     | None => Guesses g' = game.emptyBoard ∧ GuessHistory g' = [] ∧
               CurrentRow g' = 0%Z ∧ Won g' = false ∧ GameOver g' = false ∧
               TargetWord g' = ""
     end)
  ∧ (∀ other, other ≠ "s" →
       GameSessions
         (set_GameSessions playedApp
            (<["s" := set_LastAccessTime playedGame 7]> (GameSessions playedApp)))
         !! other = GameSessions playedApp !! other).
Proof.
  apply (rejected_guess_leaves_game_unchanged false randZero id id
           playedApp 7 "s" "WRONG" _ ErrorCodeDuplicateGuess).
  - vm_compute. reflexivity.
  - discriminate.
Defined.

(** ** The reveal of the target word (C8) *)

Lemma UpdateGameState_reveal now g guess target row isInvalid :
  wellFormed g → revealInvariant g → target ≠ "" →
  ∃ g', game.UpdateGameState now g guess target row isInvalid = Some g'
    ∧ wellFormed g' ∧ revealInvariant g'
    ∧ (GameOver g = false →
       ((CurrentRow g < MaxGuesses)%Z →
        (GameOver g' = true
         ↔ (isInvalid = false ∧ guess = target)
           ∨ (CurrentRow g + 1)%Z = MaxGuesses))
       ∧ TargetWord g' = if GameOver g' then target else "")
    ∧ (GameOver g = true →
       GameOver g' = true
       ∧ TargetWord g' = if bool_decide (CurrentRow g < MaxGuesses)%Z then target
                         else TargetWord g).
Proof.
  intros [Hlen Hrow] Hinv Htarget.
  destruct (decide (MaxGuesses ≤ CurrentRow g)%Z) as [Hge|Hlt].
  - exists g. split; [by apply UpdateGameState_guard|].
    split; [done|]. split; [done|]. split.
    + intros Hover. split; [lia|]. rewrite Hover. unfold revealInvariant in Hinv.
      destruct (decide (TargetWord g = "")) as [->|Hne]; [done|].
      apply Hinv in Hne. congruence.
    + intros Hover. split; [done|]. by rewrite bool_decide_eq_false_2 by lia.
  - destruct (UpdateGameState_open now g guess target row isInvalid)
      as (g' & Heq & HG & _ & _ & _ & HR & HW & HO & HT);
      [lia | rewrite Hlen; unfold MaxGuesses in *; lia |].
    exists g'. split; [done|]. cbn in HT.
    assert (Hstill : GameOver g' = false → GameOver g = false).
    { rewrite HO. destruct (negb isInvalid && _); [done|].
      by case_bool_decide. }
    split_and!.
    + split; [by rewrite HG, length_insert|].
      rewrite HR. destruct (negb isInvalid && _); lia.
    + unfold revealInvariant in *. rewrite HT.
      destruct (GameOver g') eqn:Hover'; [done|].
      rewrite Hinv, Hstill by done. done.
    + intros Hover. split.
      * intros _. rewrite HO, Hover.
        destruct isInvalid; cbn [negb andb].
        -- case_bool_decide as Hlast.
           ++ split; [intros _; right; lia | done].
           ++ split; [done | intros [[? _]|?]; [done | lia]].
        -- destruct (String.eqb_spec guess target) as [Heq'|Hne'].
           ++ split; [|done]. intros _. by left.
           ++ case_bool_decide as Hlast.
              ** split; [intros _; right; lia | done].
              ** split; [done | intros [[_ ?]|?]; [done | lia]].
      * rewrite HT. destruct (GameOver g'); [done|].
        destruct (decide (TargetWord g = "")) as [->|Hne]; [done|].
        apply Hinv in Hne. congruence.
    + intros Hover. rewrite bool_decide_eq_true_2 by lia.
      assert (Hover' : GameOver g' = true).
      { rewrite HO, Hover. destruct (negb isInvalid && _); [done|].
        by case_bool_decide. }
      by rewrite HT, Hover'.
Qed.

(** C8, refuted as stated: [wonGame] is over, with its word APPLE revealed.
    A transition on it with the target TABLE is a call on which the game
    does not become over, it was so before, and yet the call sets the target
    word, to TABLE.  The reveal is not tied to the call that ends the game:
    it is made by every call that passes the row guard and leaves the game
    over. *)
Lemma UpdateGameState_rewrites_the_revealed_word :
  reachable wonGame ∧ revealInvariant wonGame
  ∧ GameOver wonGame = true ∧ TargetWord wonGame = "APPLE"
  ∧ ∃ g', game.UpdateGameState 2 wonGame "WRONG" "TABLE" wrongRow false = Some g'
          ∧ GameOver g' = true ∧ TargetWord g' = "TABLE".
Proof.
  split; [apply wonGame_reachable|]. split; [by split|]. split; [done|].
  split; [done|]. eexists. split; [reflexivity|]. by split.
Qed.

(** C8, amended.  Creation (with or without exclusions) and retry give a
    game that is not over and whose target word is empty.  A transition on a
    game with its board, with a non-empty target, returns a game on which
    the target word is non-empty iff the game is over.  From a game that was
    not over and has a row left, the game becomes over exactly when the
    guess wins or the last row is used, and the target word is the target
    then and stays empty otherwise.  On a game that was over already, the
    game stays over, and the target word is written again, with the target
    of this call, whenever the row index is below the guard; under the guard
    it is kept. *)
Theorem targetWord_revealed_iff_gameOver
    ctxDone randInt app now sessionID (completedWords : list string) :
  randInRange randInt →
  WordList app ≠ [] →
  (∃ app' g, game.CreateNewGame ctxDone randInt app now sessionID = Some (app', g)
     ∧ GameSessions app' !! sessionID = Some g
     ∧ GameOver g = false ∧ TargetWord g = "" ∧ revealInvariant g ∧ wellFormed g)
  ∧ (∃ app' g exhausted,
       game.CreateNewGameWithCompletedWords ctxDone randInt app now sessionID
         completedWords = Some (app', g, exhausted)
       ∧ GameSessions app' !! sessionID = Some g
       ∧ GameOver g = false ∧ TargetWord g = "" ∧ revealInvariant g ∧ wellFormed g)
  ∧ (∀ old, GameSessions app !! sessionID = Some old →
       ∃ app' g, handlers.RetryWordHandler ctxDone randInt app now sessionID = Some app'
         ∧ GameSessions app' !! sessionID = Some g
         ∧ GameOver g = false ∧ TargetWord g = "" ∧ revealInvariant g ∧ wellFormed g)
  ∧ (∀ g guess target row isInvalid,
       wellFormed g → revealInvariant g → target ≠ "" →
       ∃ g', game.UpdateGameState now g guess target row isInvalid = Some g'
         ∧ wellFormed g' ∧ revealInvariant g'
         ∧ (GameOver g = false →
            ((CurrentRow g < MaxGuesses)%Z →
             (GameOver g' = true
              ↔ (isInvalid = false ∧ guess = target)
                ∨ (CurrentRow g + 1)%Z = MaxGuesses))
            ∧ TargetWord g' = if GameOver g' then target else "")
         ∧ (GameOver g = true →
            GameOver g' = true
            ∧ TargetWord g' = if bool_decide (CurrentRow g < MaxGuesses)%Z
                              then target else TargetWord g)).
Proof.
  intros Hrand Hne.
  assert (Hfresh : ∀ word, revealInvariant
            {| Guesses := game.emptyBoard; CurrentRow := 0; GameOver := false;
               Won := false; TargetWord := ""; SessionWord := word;
               GuessHistory := []; LastAccessTime := now |}
          ∧ wellFormed
            {| Guesses := game.emptyBoard; CurrentRow := 0; GameOver := false;
               Won := false; TargetWord := ""; SessionWord := word;
               GuessHistory := []; LastAccessTime := now |}).
  { intros word. split; [by split | split; [done | cbn; unfold MaxGuesses; lia]]. }
  split_and!.
  - unfold game.CreateNewGame.
    destruct (GetRandomWordEntry_total ctxDone randInt Hrand app Hne) as (e & -> & _).
    cbn. eexists _, _. split; [reflexivity|]. cbn. rewrite lookup_insert_eq.
    destruct (Hfresh (Word e)). by split_and!.
  - unfold game.CreateNewGameWithCompletedWords.
    destruct (GetRandomWordEntryExcluding_total ctxDone randInt Hrand app
                completedWords Hne) as (e & b & -> & _).
    cbn. eexists _, _, _. split; [reflexivity|]. cbn. rewrite lookup_insert_eq.
    destruct (Hfresh (Word e)). by split_and!.
  - intros old Hold. unfold handlers.RetryWordHandler. rewrite Hold.
    eexists _, _. split; [reflexivity|]. cbn. rewrite lookup_insert_eq.
    destruct (Hfresh (SessionWord old)). by split_and!.
  - intros. by apply UpdateGameState_reveal.
Qed.

Lemma targetWord_revealed_iff_gameOver_witness :
  ∃ g', game.UpdateGameState 1 appleGame "APPLE" "APPLE" appleRow false = Some g'
    ∧ wellFormed g' ∧ revealInvariant g'
    ∧ GameOver g' = true ∧ TargetWord g' = "APPLE".
Proof.
  destruct (targetWord_revealed_iff_gameOver false randZero demoApp 1 "s" [])
    as (_ & _ & _ & H).
  - apply randZero_inRange.
  - discriminate.
  - destruct (H appleGame "APPLE" "APPLE" appleRow false)
      as (g' & Hrun & Hwf & Hinv & Hprogress & _).
    + split; [reflexivity | cbn; unfold MaxGuesses; lia].
    + split; [intros Hne; by destruct Hne | discriminate].
    + discriminate.
    + destruct (Hprogress eq_refl) as [Hover HT].
      assert (Hover' : GameOver g' = true).
      { apply Hover; [cbn; unfold MaxGuesses; lia | by left]. }
      rewrite Hover' in HT. exists g'. by split_and!.
Defined.

(** ** The sweeps (C6, C7) *)

(** The negation of a duration is the opposite number, but for the smallest
    duration, which is its own negation. *)
Lemma neg_opposite d :
  (session.minDuration < d ≤ session.maxDuration)%Z → Go.neg d = (- d)%Z.
Proof.
  unfold session.minDuration, session.maxDuration, Go.neg, Go.wrap64. intros Hd.
  change (2 ^ 63)%Z with 9223372036854775808%Z.
  change (2 ^ 64)%Z with 18446744073709551616%Z.
  rewrite Z.mod_small by lia. lia.
Qed.

Lemma neg_minDuration : Go.neg session.minDuration = session.minDuration.
Proof. reflexivity. Qed.

Section Sweeps.
Import sweeps.

(** A [range] that deletes the entries failing a test leaves the others. *)
Lemma range_delete_lookup {V} (stale : V → bool) (m0 m : gmap string V) k :
  map_fold (λ i x acc, if stale x then delete i acc else acc) m0 m !! k
  = match m !! k with
    | Some v => if stale v then None else m0 !! k
    | None => m0 !! k
    end.
Proof.
  revert k.
  apply (map_fold_weak_ind
           (λ r m, ∀ k, r !! k = match m !! k with
                                | Some v => if stale v then None else m0 !! k
                                | None => m0 !! k
                                end)).
  - intros k. by rewrite lookup_empty.
  - intros i x m' r Hi IH k. destruct (decide (i = k)) as [->|Hne].
    + rewrite lookup_insert_eq. destruct (stale x).
      * by rewrite lookup_delete_eq.
      * by rewrite IH, Hi.
    + rewrite lookup_insert_ne by done. destruct (stale x).
      * by rewrite lookup_delete_ne, IH.
      * by rewrite IH.
Qed.

Lemma range_delete_filter {V} (stale : V → bool) (m : gmap string V) k :
  map_fold (λ i x acc, if stale x then delete i acc else acc) m m !! k
  = match m !! k with
    | Some v => if stale v then None else Some v
    | None => None
    end.
Proof.
  rewrite range_delete_lookup. destruct (m !! k) as [v|] eqn:Hk; [|done].
  by destruct (stale v).
Qed.

Lemma afterTTL_lookup app now k :
  afterTTL app now !! k
  = match LimiterMap app !! k with
    | Some e => if Before (LastAccess e) (now + Go.neg (RateLimiterTTL app))%Z
                then None else Some e
    | None => None
    end.
Proof. unfold afterTTL. apply (range_delete_filter (λ e, Before (LastAccess e) _)). Qed.

Lemma removeKeys_lookup (l : list limiterInfo) (m : gmap string RateLimiterWithTime) k :
  foldl (λ m li, delete (key li) m) m l !! k
  = if decide (k ∈ key <$> l) then None else m !! k.
Proof.
  revert m. induction l as [|li l IH]; intros m; cbn.
  - rewrite decide_False; [done | apply not_elem_of_nil].
  - rewrite IH. destruct (decide (k = key li)) as [->|Hne].
    + rewrite lookup_delete_eq. rewrite (decide_True (P := _ ∈ _ :: _)) by left.
      by destruct (decide _).
    + rewrite lookup_delete_ne by done.
      destruct (decide (k ∈ key <$> l)) as [Hin|Hout].
      * by rewrite decide_True by (by right).
      * rewrite decide_False; [done|]. by intros [?|?]%elem_of_cons.
Qed.

Lemma removeKeys_size (l : list limiterInfo) (m : gmap string RateLimiterWithTime) :
  NoDup (key <$> l) →
  (∀ k, k ∈ key <$> l → is_Some (m !! k)) →
  (size (foldl (λ m li, delete (key li) m) m l) + length l)%nat = size m.
Proof.
  revert m. induction l as [|li l IH]; intros m Hnd Hin; cbn.
  - lia.
  - cbn in Hnd. apply NoDup_cons in Hnd as [Hnotin Hnd].
    assert (Hrest : ∀ k, k ∈ key <$> l → is_Some (delete (key li) m !! k)).
    { intros k Hk. rewrite lookup_delete_ne; [apply Hin; by right|].
      intros <-. done. }
    pose proof (IH (delete (key li) m) Hnd Hrest) as IH'.
    rewrite map_size_delete_Some in IH' by (apply Hin; left).
    assert (size m ≠ 0%nat); [|lia].
    apply map_size_non_empty_iff. intros ->.
    destruct (Hin (key li)) as [? H]; [left|]. by rewrite lookup_empty in H.
Qed.

Variable sortSlice : list limiterInfo → list limiterInfo.

Lemma cleanupStaleRateLimiters_unfold app now :
  LimiterMap (cleanupStaleRateLimiters sortSlice app now)
  = let m := afterTTL app now in
    if bool_decide (50000 < Z.of_nat (size m))%Z then
      removeOldest
        (sortSlice ((λ kv, {| key := kv.1; lastAccess := LastAccess kv.2 |})
                      <$> map_to_list m)) m
    else m.
Proof.
  unfold cleanupStaleRateLimiters. cbn. fold (afterTTL app now).
  repeat case_bool_decide; try done; lia.
Qed.

Lemma cleanupStaleRateLimiters_subset app now k e :
  LimiterMap (cleanupStaleRateLimiters sortSlice app now) !! k = Some e →
  afterTTL app now !! k = Some e.
Proof.
  rewrite cleanupStaleRateLimiters_unfold. cbn. case_bool_decide; [|done].
  unfold removeOldest. rewrite removeKeys_lookup. by case_decide.
Qed.

Hypothesis sortSlice_sorts : sortsByLastAccess sortSlice.

Lemma emergency_purge app now :
  let m := afterTTL app now in
  let m' := LimiterMap (cleanupStaleRateLimiters sortSlice app now) in
  (50000 < Z.of_nat (size m))%Z →
  (size m' + size m / 2)%nat = size m
  ∧ (∀ k e k' e', m !! k = Some e → m' !! k = None → m' !! k' = Some e' →
       (LastAccess e ≤ LastAccess e')%Z).
Proof using sortSlice_sorts.
  intros m m' Hbig. subst m'. rewrite cleanupStaleRateLimiters_unfold.
  cbv zeta. fold m. rewrite bool_decide_eq_true_2 by done.
  set (proj := λ kv : string * RateLimiterWithTime,
                 {| key := kv.1; lastAccess := LastAccess kv.2 |}).
  set (L := sortSlice (proj <$> map_to_list m)).
  destruct (sortSlice_sorts (proj <$> map_to_list m)) as [Hperm Hsorted].
  fold L in Hperm, Hsorted.
  assert (Hlen : length L = size m).
  { by rewrite Hperm, length_fmap, length_map_to_list. }
  assert (Hkeys : key <$> L ≡ₚ (map_to_list m).*1).
  { rewrite Hperm, <-list_fmap_compose. done. }
  assert (Hnd : NoDup (key <$> L)).
  { rewrite Hkeys. apply NoDup_fst_map_to_list. }
  assert (HinL : ∀ k e, m !! k = Some e →
                        {| key := k; lastAccess := LastAccess e |} ∈ L).
  { intros k e Hk. rewrite Hperm. apply list_elem_of_fmap.
    exists (k, e). split; [done|]. by apply elem_of_map_to_list. }
  assert (HofL : ∀ li, li ∈ L → ∃ e, m !! key li = Some e
                                     ∧ lastAccess li = LastAccess e).
  { intros li Hli. rewrite Hperm in Hli.
    apply list_elem_of_fmap in Hli as ([k e] & -> & Hke).
    apply elem_of_map_to_list in Hke. by exists e. }
  unfold removeOldest. rewrite Hlen.
  set (n := Z.to_nat (Z.of_nat (size m) `quot` 2)).
  assert (Hn : n = (size m / 2)%nat).
  { subst n. rewrite Z.quot_div_nonneg by lia.
    rewrite <-(Nat2Z.id (size m / 2)). f_equal.
    by rewrite Nat2Z.inj_div. }
  rewrite <-(take_drop n L) in Hsorted, Hnd, HinL.
  rewrite fmap_app in Hnd. apply NoDup_app in Hnd as (Hnd1 & Hdisj & _).
  split.
  - assert (Hs : ∀ k, k ∈ key <$> take n L → is_Some (m !! k)).
    { intros k Hk. apply list_elem_of_fmap in Hk as (li & -> & Hli).
      destruct (HofL li) as (e & He & _); [by eapply subseteq_take|]. eauto. }
    pose proof (removeKeys_size (take n L) m Hnd1 Hs) as Hsize.
    rewrite length_take, Hlen in Hsize. rewrite <-Hn.
    rewrite Nat.min_l in Hsize; [exact Hsize|].
    rewrite Hn. apply Nat.Div0.div_le_upper_bound. lia.
  - intros k e k' e' Hk Hgone Hkept.
    rewrite removeKeys_lookup in Hgone, Hkept.
    destruct (decide (k' ∈ key <$> take n L)) as [|Hout']; [done|].
    destruct (decide (k ∈ key <$> take n L)) as [Hin|]; [|congruence].
    apply list_elem_of_fmap in Hin as (li & -> & Hli).
    destruct (HofL li) as (e0 & He0 & Hla); [by eapply subseteq_take|].
    assert (e0 = e) as -> by congruence.
    pose proof (HinL k' e' Hkept) as Hin'.
    apply elem_of_app in Hin' as [Hin'|Hin'].
    { destruct Hout'. apply list_elem_of_fmap. by eexists; split; [|done]. }
    pose proof (StronglySorted_app_1_elem_of _ _ _ _ _ Hsorted Hli Hin') as Hle.
    unfold less, Before in Hle. cbn in Hle. apply bool_decide_eq_false in Hle.
    lia.
Qed.

End Sweeps.

(** C6. A session sweep leaves exactly the sessions whose last access does
    not precede the cutoff, each unmodified.  A limiter sweep removes every
    entry whose last access precedes the cutoff, and, when at most 50000
    entries survive (no emergency purge), leaves exactly the others,
    unmodified.  The cutoff is the one the code computes, [now.Add(-ttl)]
    with the negation of [int64]: it is the sweep time minus the TTL for
    every TTL but the smallest duration, which is its own negation, so that
    the cutoff is then 2^63 nanoseconds before the sweep. *)
Theorem sweeps_evict_exactly_the_stale sortSlice app now :
  (∀ ttl, (session.minDuration < ttl ≤ session.maxDuration)%Z →
          (now + Go.neg ttl)%Z = (now - ttl)%Z)
  ∧ (now + Go.neg session.minDuration)%Z = (now + session.minDuration)%Z
  ∧ (∀ sessionID,
     GameSessions (sweeps.cleanupStaleSessions app now) !! sessionID
     = match GameSessions app !! sessionID with
       | Some g => if sweeps.Before (LastAccessTime g) (now + Go.neg (SessionTTL app))%Z
                   then None else Some g
       | None => None
       end)
  ∧ (∀ key e,
       LimiterMap app !! key = Some e →
       sweeps.Before (LastAccess e) (now + Go.neg (RateLimiterTTL app))%Z = true →
       LimiterMap (sweeps.cleanupStaleRateLimiters sortSlice app now) !! key = None)
  ∧ ((Z.of_nat (size (afterTTL app now)) ≤ 50000)%Z →
     ∀ key,
       LimiterMap (sweeps.cleanupStaleRateLimiters sortSlice app now) !! key
       = match LimiterMap app !! key with
         | Some e => if sweeps.Before (LastAccess e) (now + Go.neg (RateLimiterTTL app))%Z
                     then None else Some e
         | None => None
         end).
Proof.
  split_and!.
  - intros ttl Hrange. rewrite neg_opposite by done. lia.
  - by rewrite neg_minDuration.
  - intros sessionID. unfold sweeps.cleanupStaleSessions. cbn.
    apply (range_delete_filter (λ g, sweeps.Before (LastAccessTime g) _)).
  - intros key e He Hstale.
    destruct (LimiterMap (sweeps.cleanupStaleRateLimiters sortSlice app now) !! key)
      as [e'|] eqn:Hk; [|done].
    apply cleanupStaleRateLimiters_subset in Hk.
    rewrite afterTTL_lookup, He, Hstale in Hk. done.
  - intros Hsmall key. rewrite cleanupStaleRateLimiters_unfold. cbv zeta.
    rewrite bool_decide_eq_false_2 by lia. apply afterTTL_lookup.
Qed.

Lemma sweeps_evict_exactly_the_stale_witness :
  LimiterMap (sweeps.cleanupStaleRateLimiters id twoLimiters 3600000000050) !! "old"
  = None
  ∧ LimiterMap (sweeps.cleanupStaleRateLimiters id twoLimiters 3600000000050) !! "new"
    = LimiterMap twoLimiters !! "new".
Proof.
  destruct (sweeps_evict_exactly_the_stale id twoLimiters 3600000000050)
    as (_ & _ & _ & _ & H).
  assert (Hsmall : (Z.of_nat (size (afterTTL twoLimiters 3600000000050)) ≤ 50000)%Z)
    by (vm_compute; discriminate).
  split; rewrite (H Hsmall); reflexivity.
Defined.

Lemma StronglySorted_weaken {A} (R R' : A → A → Prop) l :
  (∀ a b, R a b → R' a b) → StronglySorted R l → StronglySorted R' l.
Proof.
  intros HR. induction 1 as [|a l Hl IH Hall]; constructor; [done|].
  eapply Forall_impl; [exact Hall|]. auto.
Qed.

Lemma sortByLastAccess_sorts : sortsByLastAccess sortByLastAccess.
Proof.
  intros l. split; [apply merge_sort_Permutation|].
  assert (Transitive notLater) by (unfold notLater; intros a b c; lia).
  assert (Total notLater) by (unfold notLater; intros a b; lia).
  eapply StronglySorted_weaken; [|apply StronglySorted_merge_sort; apply _].
  intros a b Hab. unfold notLater in Hab. unfold sweeps.less, sweeps.Before.
  apply bool_decide_eq_false. lia.
Qed.

(** C7. After the TTL phase of a limiter sweep ([afterTTL]): when more than
    50000 entries survive, the sweep removes floor(n/2) of the n survivors,
    nothing else changes, and every removed entry was last used no later
    than every entry that stays; when at most 50000 survive, none is
    removed, also above the mark of 10000. *)
Theorem emergency_purge_removes_oldest_half sortSlice app now :
  sortsByLastAccess sortSlice →
  let m := afterTTL app now in
  let m' := LimiterMap (sweeps.cleanupStaleRateLimiters sortSlice app now) in
  ((50000 < Z.of_nat (size m))%Z →
     (size m' + size m / 2)%nat = size m
     ∧ m' ⊆ m
     ∧ (∀ k e k' e', m !! k = Some e → m' !! k = None → m' !! k' = Some e' →
          (LastAccess e ≤ LastAccess e')%Z))
  ∧ ((Z.of_nat (size m) ≤ 50000)%Z → m' = m).
Proof.
  intros Hsort m m'. split.
  - intros Hbig.
    destruct (emergency_purge sortSlice Hsort app now Hbig) as [Hsize Hold].
    split_and!; [done| |done].
    apply map_subseteq_spec. intros k e. apply cleanupStaleRateLimiters_subset.
  - intros Hsmall. subst m m'. rewrite cleanupStaleRateLimiters_unfold.
    cbv zeta. by rewrite bool_decide_eq_false_2 by lia.
Qed.

Lemma manyLimiters_size n : size (manyLimiters n) = n.
Proof.
  unfold manyLimiters. rewrite map_size_list_to_map.
  - by rewrite length_fmap, length_seq.
  - rewrite <-list_fmap_compose. apply NoDup_fmap_2_strong; [|apply NoDup_seq].
    intros x y _ _ Heq. cbn in Heq. by apply (inj pretty).
Qed.

Lemma manyLimiters_lastAccess n k e :
  manyLimiters n !! k = Some e → (0 ≤ LastAccess e)%Z.
Proof.
  unfold manyLimiters. intros H%elem_of_list_to_map_2.
  apply list_elem_of_fmap in H as (i & [= -> ->] & _). cbn. lia.
Qed.

Lemma crowdedApp_afterTTL : afterTTL crowdedApp 0 = manyLimiters (Z.to_nat 50001).
Proof.
  apply map_eq. intros k. rewrite afterTTL_lookup.
  change (LimiterMap crowdedApp) with (manyLimiters (Z.to_nat 50001)).
  destruct (manyLimiters (Z.to_nat 50001) !! k) as [e|] eqn:Hk; [|reflexivity].
  apply manyLimiters_lastAccess in Hk.
  unfold sweeps.Before. rewrite bool_decide_eq_false_2; [reflexivity|].
  change (RateLimiterTTL crowdedApp) with 3600000000000%Z.
  rewrite neg_opposite by (unfold session.minDuration, session.maxDuration; lia).
  lia.
Qed.

Lemma emergency_purge_removes_oldest_half_witness :
  (size (LimiterMap (sweeps.cleanupStaleRateLimiters sortByLastAccess crowdedApp 0))
   + size (afterTTL crowdedApp 0) / 2)%nat = size (afterTTL crowdedApp 0)
  ∧ LimiterMap (sweeps.cleanupStaleRateLimiters sortByLastAccess crowdedApp 0)
    ⊆ afterTTL crowdedApp 0
  ∧ (∀ k e k' e',
       afterTTL crowdedApp 0 !! k = Some e →
       LimiterMap (sweeps.cleanupStaleRateLimiters sortByLastAccess crowdedApp 0) !! k
         = None →
       LimiterMap (sweeps.cleanupStaleRateLimiters sortByLastAccess crowdedApp 0) !! k'
         = Some e' →
       (LastAccess e ≤ LastAccess e')%Z).
Proof.
  refine (proj1 (emergency_purge_removes_oldest_half sortByLastAccess crowdedApp 0
                   sortByLastAccess_sorts) _).
  rewrite crowdedApp_afterTTL, manyLimiters_size. lia.
Defined.

(** ** The limiter of a client (C10) *)

Lemma refillDivisor_positive app : (0 < middleware.refillDivisor app)%Z.
Proof. unfold middleware.refillDivisor. case_bool_decide; lia. Qed.

Lemma getLimiterAfter_miss seen app now key :
  seen !! key = None →
  ∃ app' lim, middleware.getLimiterAfter seen app now key = Some (app', lim)
    ∧ LimiterMap app' !! key = Some {| TheLimiter := lim; LastAccess := now |}
    ∧ (LimiterMap app !! key = None →
       lim = {| Interval := Z.quot middleware.Second (middleware.refillDivisor app);
                Burst := RateLimitBurst app |}).
Proof.
  intros Hseen. unfold middleware.getLimiterAfter. rewrite Hseen.
  destruct (LimiterMap app !! key) as [e|] eqn:He.
  - eexists _, _. split; [reflexivity|]. cbn. rewrite lookup_insert_eq.
    split; [done | discriminate].
  - unfold Go.div. pose proof (refillDivisor_positive app).
    rewrite bool_decide_eq_false_2 by lia. cbn.
    eexists _, _. split; [reflexivity|]. cbn. rewrite lookup_insert_eq. done.
Qed.

(** The path of a key that the shared lookup found: when the entry is gone
    by the time the exclusive lock is held, [limWithTime] is nil and the
    return dereferences it. *)
Remark getLimiterAfter_entry_gone seen app now key e :
  seen !! key = Some e → LimiterMap app !! key = None →
  middleware.getLimiterAfter seen app now key = None.
Proof.
  intros Hseen Hgone. unfold middleware.getLimiterAfter. by rewrite Hseen, Hgone.
Qed.

(** C10. For every key, time and configuration a call of [getLimiter]
    returns.  The divisor of the refill interval is positive; it is 1 when
    the configured requests per second are zero or negative, and the limiter
    then created refills once per second.  The creating path returns
    whatever the map holds when the exclusive lock is taken. *)
Theorem getLimiter_total app now key :
  (0 < middleware.refillDivisor app)%Z
  ∧ ((RateLimitRPS app ≤ 0)%Z → middleware.refillDivisor app = 1%Z)
  ∧ (∃ app' lim, middleware.getLimiter app now key = Some (app', lim)
       ∧ LimiterMap app' !! key = Some {| TheLimiter := lim; LastAccess := now |}
       ∧ (LimiterMap app !! key = None →
          lim = {| Interval := Z.quot middleware.Second (middleware.refillDivisor app);
                   Burst := RateLimitBurst app |})
       ∧ (LimiterMap app !! key = None → (RateLimitRPS app ≤ 0)%Z →
          Interval lim = middleware.Second))
  ∧ (∀ seen, seen !! key = None →
       is_Some (middleware.getLimiterAfter seen app now key)).
Proof.
  split_and!.
  - apply refillDivisor_positive.
  - intros H. unfold middleware.refillDivisor. by rewrite bool_decide_eq_true_2.
  - unfold middleware.getLimiter.
    destruct (LimiterMap app !! key) as [e|] eqn:He.
    + unfold middleware.getLimiterAfter. rewrite He.
      eexists _, _. split; [reflexivity|]. cbn. rewrite lookup_insert_eq.
      split_and!; [done | discriminate | discriminate].
    + destruct (getLimiterAfter_miss (LimiterMap app) app now key He)
        as (app' & lim & Heq & Hstored & Hnew).
      exists app', lim. split_and!; [done | done | by intros _; apply Hnew |].
      intros _ Hrps. rewrite Hnew by done. cbn.
      unfold middleware.refillDivisor. rewrite bool_decide_eq_true_2 by done.
      reflexivity.
  - intros seen Hseen.
    destruct (getLimiterAfter_miss seen app now key Hseen) as (? & ? & -> & _).
    eauto.
Qed.

(** ** Concurrent first access to a session (C2) *)

(** C2, on the code: two requests for the session "s", unseen so far.  Each
    makes its lookup under the shared lock before the other stores its game:
    both miss, both run [CreateNewGame], two games are created, the two
    callers hold different games and the map keeps the second.  Run one
    after the other, the same two requests create one game. *)
Theorem GetGameState_double_creation :
  (∃ w, race.run false randZero demoApp 1 "s" [0; 1; 0; 1]%nat
          {| race.sessions := ∅; race.heap := [] |} [race.AtLookup; race.AtLookup]
        = Some (w, [race.Returned 0; race.Returned 1])
      ∧ length (race.heap w) = 2%nat
      ∧ race.sessions w !! "s" = Some 1%nat)
  ∧ (∃ w, race.run false randZero demoApp 1 "s" [0; 0; 1; 1]%nat
          {| race.sessions := ∅; race.heap := [] |} [race.AtLookup; race.AtLookup]
        = Some (w, [race.Returned 0; race.Returned 0])
      ∧ length (race.heap w) = 1%nat
      ∧ race.sessions w !! "s" = Some 0%nat).
Proof.
  split; eexists; (split; [vm_compute; reflexivity|]); split; reflexivity.
Qed.

(** ** Scoring (C4) *)

Section Scoring.
Import game scoring_spec.
Local Open Scope list_scope.

Lemma byte_at_bytes s i : Go.byte_at s i = bytes s !! i.
Proof.
  unfold Go.byte_at. revert i. induction s as [|a s IH]; intros i; [done|].
  destruct i as [|i]; cbn; [done | apply IH].
Qed.

Lemma length_bytes s : length (bytes s) = String.length s.
Proof. induction s; cbn; congruence. Qed.

Lemma runes_ascii s : isASCII s → utf8.runes s = bytes s.
Proof.
  unfold isASCII. induction s as [|a s IH]; intros H; [done|].
  cbn [bytes] in *. apply Forall_cons in H as [Ha Hs].
  cbn [utf8.runes]. cbv zeta.
  destruct (Z.ltb_spec (Go.byte_val a) 128); [|lia]. f_equal. by apply IH.
Qed.

Lemma insert_at_length {A} (l1 l2 : list A) x y n :
  n = length l1 → <[n := y]> (l1 ++ x :: l2) = l1 ++ y :: l2.
Proof.
  intros ->. rewrite insert_app_r_alt by lia. by rewrite Nat.sub_diag.
Qed.

(** *** The first pass *)

Lemma pass1_marks guess target :
  Forall (λ m, m = None ∨ m = Some Correct) (pass1 guess target).1
  ∧ length (pass1 guess target).1 = length (pass1 guess target).2
  ∧ length (pass1 guess target).1 = (length guess `min` length target)%nat.
Proof.
  revert target. induction guess as [|g guess IH]; intros [|t target]; cbn;
    try by repeat split.
  destruct (IH target) as (H1 & H2 & H3).
  destruct (pass1 guess target) as [marks consumed]. cbn in *.
  case_bool_decide; cbn; split_and!; try (constructor; auto); lia.
Qed.

Lemma markCorrect_bytes guess target result targetCopy i g t :
  bytes guess !! i = Some g → bytes target !! i = Some t →
  (i < length result)%nat → (i < length targetCopy)%nat →
  markCorrect guess target (result, targetCopy) i
  = Some (if bool_decide (g = t)
          then (<[i := final g Correct]> result, <[i := blank]> targetCopy)
          else (result, targetCopy)).
Proof.
  intros Hg Ht Hr Htc. unfold markCorrect.
  rewrite !byte_at_bytes, Hg, Ht. cbn. case_bool_decide; [|done].
  unfold Go.assign_nat. rewrite !bool_decide_eq_true_2 by done. done.
Qed.

(** Positions before [length pre] are done, the others are untouched. *)
Lemma pass1_refines guess target :
  ∀ gs ts gpre tpre pre tcpre,
    bytes guess = gpre ++ gs → bytes target = tpre ++ ts →
    length gpre = length pre → length tpre = length pre →
    length tcpre = length pre → length gs = length ts →
    Go.for_range (markCorrect guess target) (seq (length pre) (length gs))
      (pre ++ replicate (length gs) (render 0 None), tcpre ++ ts)
    = Some (pre ++ zip_with render gs (pass1 gs ts).1,
            tcpre ++ blanked ts (pass1 gs ts).2).
Proof.
  induction gs as [|g gs IH]; intros ts gpre tpre pre tcpre Hg Ht Hl1 Hl2 Hl3 Hlen.
  { destruct ts; [done | discriminate]. }
  destruct ts as [|t ts]; [discriminate|]. cbn in Hlen.
  cbn [length seq Go.for_range replicate].
  rewrite (markCorrect_bytes _ _ _ _ _ g t).
  2:{ rewrite Hg, <-Hl1. by apply list_lookup_middle. }
  2:{ rewrite Ht, <-Hl2. by apply list_lookup_middle. }
  2:{ rewrite length_app. cbn. lia. }
  2:{ rewrite length_app. cbn. lia. }
  pose proof (IH ts (gpre ++ [g]) (tpre ++ [t])) as IH'.
  cbn [pass1]. destruct (pass1 gs ts) as [marks consumed] eqn:Hp. cbn [fst snd] in *.
  case_bool_decide as Heq.
  - rewrite !insert_at_length by done. cbn [fst snd zip_with blanked].
    specialize (IH' (pre ++ [final g Correct]) (tcpre ++ [blank])).
    rewrite !length_app, <-!(assoc_L (++)) in IH'. cbn in IH'.
    rewrite !Nat.add_1_r in IH'. apply IH'; try done; lia.
  - cbn [fst snd zip_with blanked].
    specialize (IH' (pre ++ [render 0 None]) (tcpre ++ [t])).
    rewrite !length_app, <-!(assoc_L (++)) in IH'. cbn in IH'.
    rewrite !Nat.add_1_r in IH'. apply IH'; try done; lia.
Qed.

(** *** The second pass *)

Lemma findRune_seq tc r :
  ∀ pre, findRune (pre ++ tc) r (seq (length pre) (length tc))
         = Some ((λ j, length pre + j)%nat <$> firstIndex r tc).
Proof.
  induction tc as [|x tc IH]; intros pre; cbn [length seq findRune firstIndex].
  - done.
  - unfold Go.at_nat. rewrite list_lookup_middle by done. cbn.
    case_bool_decide.
    + cbn. do 2 f_equal. lia.
    + specialize (IH (pre ++ [x])).
      rewrite length_app, <-(assoc_L (++)) in IH. cbn in IH.
      rewrite Nat.add_1_r in IH. rewrite IH. f_equal.
      destruct (firstIndex r tc); cbn; [f_equal; lia | done].
Qed.

Lemma findRune_all tc r :
  length tc = WordLength →
  findRune tc r (seq 0 WordLength) = Some (firstIndex r tc).
Proof.
  intros Hlen. rewrite <-Hlen. etrans; [apply (findRune_seq tc r [])|].
  cbn. f_equal. by destruct (firstIndex r tc).
Qed.

Lemma firstIndex_blanked g target :
  g ≠ blank →
  ∀ consumed, firstIndex g (blanked target consumed) = firstUnconsumed g target consumed.
Proof.
  intros Hg. induction target as [|t target IH]; intros [|b consumed]; try done.
  cbn. destruct b; cbn.
  - rewrite bool_decide_eq_false_2 by done. by rewrite IH.
  - case_bool_decide; [done|]. by rewrite IH.
Qed.

Lemma firstUnconsumed_consume g target :
  ∀ consumed j,
    firstUnconsumed g target consumed = Some j →
    (j < length (blanked target consumed))%nat
    ∧ <[j := blank]> (blanked target consumed) = blanked target (<[j := true]> consumed)
    ∧ target !! j = Some g ∧ consumed !! j = Some false.
Proof.
  unfold blanked.
  induction target as [|t target IH]; intros [|b consumed] j; try done.
  cbn. destruct (negb b && bool_decide (t = g)) eqn:Hhead.
  - intros [= <-]. apply andb_true_iff in Hhead as [Hb Ht].
    destruct b; [done|]. apply bool_decide_eq_true in Ht as ->.
    cbn. split_and!; [lia | done..].
  - destruct (firstUnconsumed g target consumed) as [j'|] eqn:Hrest; [|done].
    intros [= <-]. destruct (IH consumed j' Hrest) as (Hlt & Hins & Ht & Hc).
    cbn. split_and!; [lia | | done..]. f_equal. apply Hins.
Qed.

Lemma length_blanked target consumed :
  length target = length consumed → length (blanked target consumed) = length target.
Proof. intros H. unfold blanked. rewrite length_zip_with. lia. Qed.

Lemma pass2_refines guess target :
  length target = WordLength →
  ∀ gl marks gpre pre consumed,
    bytes guess = gpre ++ gl → length gpre = length pre →
    length marks = length gl →
    Forall (λ m, m = None ∨ m = Some Correct) marks →
    Forall (λ g, g ≠ blank) gl →
    length consumed = WordLength →
    ∃ consumed',
      Go.for_range (markPresent guess) (seq (length pre) (length gl))
        (pre ++ zip_with render gl marks, blanked target consumed)
      = Some (pre ++ zip_with final gl (pass2 target (zip gl marks) consumed),
              blanked target consumed').
Proof.
  intros Htarget.
  induction gl as [|g gl IH];
    intros marks gpre pre consumed Hg Hpre Hmarks Hcorrect Hblank Hconsumed.
  { exists consumed. by destruct marks. }
  destruct marks as [|m marks]; [discriminate|]. cbn in Hmarks.
  apply Forall_cons in Hcorrect as [Hm Hcorrect].
  apply Forall_cons in Hblank as [Hgb Hblank].
  assert (Hnext : ∀ x : GuessResult, bytes guess = (gpre ++ [g]) ++ gl
                     ∧ length (gpre ++ [g]) = length (pre ++ [x])).
  { intros x. rewrite <-(assoc_L (++)), !length_app. cbn. split; [done | lia]. }
  cbn [length seq Go.for_range zip zip_with pass2].
  unfold markPresent at 1. unfold Go.at_nat.
  rewrite list_lookup_middle by done. cbn [mbind option_bind].
  destruct Hm as [->| ->].
  - cbn [render Status String.eqb]. rewrite byte_at_bytes, Hg.
    rewrite list_lookup_middle by (by symmetry). cbn [mbind option_bind].
    rewrite findRune_all
      by (rewrite length_blanked; [done | by rewrite Hconsumed]).
    rewrite firstIndex_blanked by done. cbn [mbind option_bind].
    destruct (firstUnconsumed g target consumed) as [j|] eqn:Hfirst.
    + destruct (firstUnconsumed_consume g target consumed j Hfirst)
        as (Hlt & Hins & _).
      unfold Go.assign_nat. rewrite bool_decide_eq_true_2 by done.
      cbn [mbind option_bind]. rewrite Hins, insert_at_length by done.
      destruct (Hnext (final g Present)) as [Hg' Hpre'].
      destruct (IH marks (gpre ++ [g]) (pre ++ [final g Present])
                  (<[j := true]> consumed)) as [consumed' IH'];
        [done | done | lia | done | done | by rewrite length_insert |].
      exists consumed'. rewrite length_app, <-!(assoc_L (++)) in IH'.
      cbn in IH'. rewrite Nat.add_1_r in IH'. apply IH'.
    + rewrite insert_at_length by done.
      destruct (Hnext (final g Absent)) as [Hg' Hpre'].
      destruct (IH marks (gpre ++ [g]) (pre ++ [final g Absent]) consumed)
        as [consumed' IH']; [done | done | lia | done | done | done |].
      exists consumed'. rewrite length_app, <-!(assoc_L (++)) in IH'.
      cbn in IH'. rewrite Nat.add_1_r in IH'. apply IH'.
  - cbn [render Status statusOf]. unfold GuessStatusCorrect. cbn [String.eqb Ascii.eqb].
    destruct (Hnext (final g Correct)) as [Hg' Hpre'].
    destruct (IH marks (gpre ++ [g]) (pre ++ [final g Correct]) consumed)
      as [consumed' IH']; [done | done | lia | done | done | done |].
    exists consumed'. rewrite length_app, <-!(assoc_L (++)) in IH'.
    cbn in IH'. rewrite Nat.add_1_r in IH'. apply IH'.
Qed.

(** *** Both passes *)

Lemma length_pass2 target todo :
  ∀ consumed, length (pass2 target todo consumed) = length todo.
Proof.
  induction todo as [|[g [m|]] todo IH]; intros consumed; cbn; [done|by rewrite IH|].
  destruct (firstUnconsumed g target consumed); cbn; by rewrite IH.
Qed.

Lemma length_score guess target :
  length guess = length target → length (score guess target) = length guess.
Proof.
  intros Hlen. unfold score.
  destruct (pass1_marks guess target) as (_ & _ & Hm).
  destruct (pass1 guess target) as [marks consumed]. cbn in Hm.
  rewrite length_pass2, length_zip. lia.
Qed.

Lemma CheckGuess_refines guess target pool :
  String.length guess = WordLength → String.length target = WordLength →
  isASCII target → Forall (λ g, g ≠ blank) (bytes guess) →
  (∀ buf, pool = Some buf → (WordLength ≤ length buf)%nat) →
  CheckGuess guess target pool
  = Some (zip_with final (bytes guess) (score (bytes guess) (bytes target)),
          cleared pool).
Proof.
  intros Hguess Htarget Hascii Hblank Hpool.
  rewrite <-length_bytes in Hguess, Htarget.
  unfold CheckGuess. rewrite runes_ascii by done.
  assert (Hcopy : match pool with
                  | Some pooledBuf =>
                      if bool_decide (WordLength ≤ length pooledBuf)%nat
                      then Some (copy (take WordLength pooledBuf) (bytes target))
                      else None
                  | None => Some (bytes target)
                  end = Some (bytes target)).
  { destruct pool as [buf|]; [|done].
    specialize (Hpool buf eq_refl). rewrite bool_decide_eq_true_2 by done.
    f_equal. unfold copy. rewrite length_take, Nat.min_l by done.
    rewrite take_ge by lia. rewrite drop_ge by (rewrite length_take; lia).
    apply app_nil_r. }
  rewrite Hcopy. cbn [mbind option_bind].
  pose proof (pass1_refines guess target (bytes guess) (bytes target) [] [] [] []
                eq_refl eq_refl eq_refl eq_refl eq_refl
                (eq_trans Hguess (eq_sym Htarget))) as H1.
  cbn [length app] in H1. rewrite Hguess in H1.
  destruct (pass1_marks (bytes guess) (bytes target)) as (Hcorrect & Hmc & Hml).
  unfold score.
  destruct (pass1 (bytes guess) (bytes target)) as [marks consumed].
  cbn [fst snd] in *.
  destruct (pass2_refines guess (bytes target) Htarget (bytes guess) marks [] []
              consumed)
    as [consumed' H2]; [done | done | lia | done | done | lia |].
  cbn [length app] in H2. rewrite Hguess in H2.
  assert (Hfirst : Go.for_range (markCorrect guess target) (seq 0 WordLength)
            (replicate WordLength {| Letter := ""; Status := "" |}, bytes target)
          = Some (zip_with render (bytes guess) marks, blanked (bytes target) consumed))
    by exact H1.
  rewrite Hfirst. cbn [mbind option_bind]. rewrite H2. done.
Qed.

(** *** Counting *)

Lemma pass1_count c guess target :
  (corrects c (zip guess (pass1 guess target).1)
   + available c target (pass1 guess target).2 ≤ occurrences c target)%nat.
Proof.
  revert target. induction guess as [|g guess IH]; intros [|t target]; cbn;
    try lia.
  specialize (IH target). destruct (pass1 guess target) as [marks consumed].
  cbn [fst snd] in *. case_bool_decide as Hgt; cbn.
  - subst t. destruct (bool_decide (g = c)); cbn; lia.
  - destruct (bool_decide (g = c)), (bool_decide (t = c)); cbn; lia.
Qed.

Lemma available_consume c g target :
  ∀ consumed j,
    firstUnconsumed g target consumed = Some j →
    (available c target (<[j := true]> consumed)
     + (if bool_decide (g = c) then 1 else 0))%nat = available c target consumed.
Proof.
  induction target as [|t target IH]; intros [|b consumed] j; try done.
  cbn. destruct (negb b && bool_decide (t = g)) eqn:Hhead.
  - intros [= <-]. apply andb_true_iff in Hhead as [Hb Ht].
    destruct b; [done|]. apply bool_decide_eq_true in Ht as ->.
    cbn. destruct (bool_decide (g = c)); cbn; lia.
  - destruct (firstUnconsumed g target consumed) as [j'|] eqn:Hrest; [|done].
    intros [= <-]. simpl. pose proof (IH consumed j' Hrest) as IH'.
    destruct (bool_decide (t = c) && negb b), (bool_decide (g = c)); lia.
Qed.

Lemma pass2_count c target todo :
  ∀ consumed,
    Forall (λ p, p.2 = None ∨ p.2 = Some Correct) todo →
    (countMarked c todo.*1 (statusOf <$> pass2 target todo consumed)
     ≤ corrects c todo + available c target consumed)%nat.
Proof.
  induction todo as [|[g m] todo IH]; intros consumed Htodo; [cbn; lia|].
  apply Forall_cons in Htodo as [Hm Htodo]. cbn in Hm.
  destruct Hm as [->| ->]; cbn [pass2 corrects fmap list_fmap fst].
  - destruct (firstUnconsumed g target consumed) as [j|] eqn:Hfirst.
    + specialize (IH (<[j := true]> consumed) Htodo).
      pose proof (available_consume c g target consumed j Hfirst).
      cbn. destruct (bool_decide (g = c)); cbn in *; lia.
    + specialize (IH consumed Htodo). cbn.
      destruct (bool_decide (g = c)); cbn in *; lia.
  - specialize (IH consumed Htodo). cbn.
    destruct (bool_decide (g = c)); cbn in *; lia.
Qed.

Lemma score_count c guess target :
  length guess = length target →
  (countMarked c guess (statusOf <$> score guess target) ≤ occurrences c target)%nat.
Proof.
  intros Hlen. unfold score. pose proof (pass1_count c guess target) as H1.
  destruct (pass1_marks guess target) as (Hcorrect & Hmc & Hml).
  destruct (pass1 guess target) as [marks consumed]. cbn [fst snd] in *.
  pose proof (pass2_count c target (zip guess marks) consumed) as H2.
  rewrite fst_zip in H2 by lia. etrans; [apply H2|]; [|done].
  apply Forall_forall. intros [g m] Hin. cbn.
  apply elem_of_zip_r in Hin. by eapply (proj1 (Forall_forall _ _) Hcorrect).
Qed.

Lemma status_zip_final gs cls :
  length gs = length cls → Status <$> zip_with final gs cls = statusOf <$> cls.
Proof.
  revert cls. induction gs as [|g gs IH]; intros [|c cls]; try done.
  cbn. intros [= Hlen]. by rewrite IH.
Qed.

End Scoring.

(** C4, refuted as stated.  The blank that marks a consumed target position
    is itself matched by a blank of the guess: against APPLE the guess
    "A B C" has both blanks Present, though APPLE holds none.  A target with
    a letter outside ASCII has fewer runes than bytes: without a pool the
    scoring panics, and with one a byte of the guess is matched with a rune
    of the target (here 0xE9, which is no byte of the target). *)
Lemma CheckGuess_blank_and_rune_mismatch :
  String.length "A B C" = WordLength ∧ String.length "APPLE" = WordLength
  ∧ (∃ result, game.CheckGuess "A B C" "APPLE" None = Some (result, None)
       ∧ Status <$> result
         = [GuessStatusCorrect; GuessStatusPresent; GuessStatusAbsent;
            GuessStatusPresent; GuessStatusAbsent]
       ∧ countMarked game.blank (bytes "A B C") (Status <$> result) = 2%nat
       ∧ occurrences game.blank (bytes "APPLE") = 0%nat)
  ∧ String.length accentedWord = WordLength
  ∧ String.length wideGuess = WordLength
  ∧ game.CheckGuess "ABCDE" accentedWord None = None
  ∧ (∃ result back,
       game.CheckGuess wideGuess accentedWord (Some [0; 0; 0; 0; 0]%Z)
       = Some (result, back)
       ∧ countMarked 233 (bytes wideGuess) (Status <$> result) = 1%nat
       ∧ occurrences 233 (bytes accentedWord) = 0%nat).
Proof.
  split_and!; try reflexivity.
  - eexists. split_and!; [vm_compute; reflexivity | reflexivity..].
  - eexists _, _. split_and!; [vm_compute; reflexivity | reflexivity..].
Qed.

(** C4, amended.  For a guess and a target of five bytes, the target in
    ASCII and the guess without a blank (and a pooled buffer, if any, of at
    least five runes): [CheckGuess] returns five results; each has the letter
    of its position and exactly one of the three statuses; the statuses are
    those of the two passes of the specification, where a Present consumes
    the first target position not yet consumed that holds the letter; and
    for every letter the positions marked Correct or Present are no more
    than the letter's occurrences in the target. *)
Theorem CheckGuess_scores guess target pool :
  String.length guess = WordLength →
  String.length target = WordLength →
  isASCII target →
  Forall (λ g, g ≠ game.blank) (bytes guess) →
  (∀ buf, pool = Some buf → (WordLength ≤ length buf)%nat) →
  ∃ result,
    game.CheckGuess guess target pool = Some (result, cleared pool)
    ∧ length result = WordLength
    ∧ (∀ i r, result !! i = Some r →
         (Status r = GuessStatusCorrect ∨ Status r = GuessStatusPresent
          ∨ Status r = GuessStatusAbsent)
         ∧ ∃ g, bytes guess !! i = Some g ∧ Letter r = utf8.string_of_byte g)
    ∧ Status <$> result
      = scoring_spec.statusOf <$> scoring_spec.score (bytes guess) (bytes target)
    ∧ (∀ c, (countMarked c (bytes guess) (Status <$> result)
             ≤ occurrences c (bytes target))%nat).
Proof.
  intros Hguess Htarget Hascii Hblank Hpool.
  eexists. split; [by apply CheckGuess_refines|].
  assert (Hlen : length (bytes guess) = length (bytes target))
    by (rewrite !length_bytes; congruence).
  pose proof (length_score _ _ Hlen) as Hscore.
  assert (Hstatus : Status <$> zip_with final (bytes guess)
                      (scoring_spec.score (bytes guess) (bytes target))
                    = scoring_spec.statusOf <$>
                        scoring_spec.score (bytes guess) (bytes target))
    by (by apply status_zip_final).
  split_and!.
  - rewrite length_zip_with, Hscore, length_bytes, Hguess. lia.
  - intros i r Hr. apply lookup_zip_with_Some in Hr as (g & c & -> & Hg & Hc).
    cbn. split; [|by exists g]. destruct c; cbn; auto.
  - done.
  - intros c. rewrite Hstatus. by apply score_count.
Qed.

Lemma CheckGuess_scores_witness :
  ∃ result,
    game.CheckGuess "PLEAP" "APPLE" (Some [0; 0; 0; 0; 0]%Z)
    = Some (result, cleared (Some [0; 0; 0; 0; 0]%Z))
    ∧ length result = WordLength
    ∧ (∀ i r, result !! i = Some r →
         (Status r = GuessStatusCorrect ∨ Status r = GuessStatusPresent
          ∨ Status r = GuessStatusAbsent)
         ∧ ∃ g, bytes "PLEAP" !! i = Some g ∧ Letter r = utf8.string_of_byte g)
    ∧ Status <$> result
      = scoring_spec.statusOf <$> scoring_spec.score (bytes "PLEAP") (bytes "APPLE")
    ∧ (∀ c, (countMarked c (bytes "PLEAP") (Status <$> result)
             ≤ occurrences c (bytes "APPLE"))%nat).
Proof.
  apply (CheckGuess_scores "PLEAP" "APPLE" (Some [0; 0; 0; 0; 0]%Z)).
  - reflexivity.
  - reflexivity.
  - unfold isASCII. vm_compute. repeat constructor.
  - vm_compute. repeat (constructor; [discriminate|]). constructor.
  - intros buf [= <-]. vm_compute. lia.
Defined.

(** * Further properties *)

(** ** Hints *)

Lemma hints_later_entries (m : gmap string string) l w :
  (∀ e, e ∈ l → Word e ≠ w) →
  foldl (λ result entry, <[Word entry := Hint entry]> result) m l !! w = m !! w.
Proof.
  revert m. induction l as [|e l IH]; intros m Hl; [done|]. cbn.
  rewrite IH by (intros e' He'; apply Hl; by right).
  apply lookup_insert_ne. apply Hl. left.
Qed.

Lemma BuildHintMap_last l1 e l2 :
  (∀ e', e' ∈ l2 → Word e' ≠ Word e) →
  game.BuildHintMap (l1 ++ e :: l2) !! Word e = Some (Hint e).
Proof.
  intros Hl2. unfold game.BuildHintMap. rewrite foldl_app. cbn.
  rewrite hints_later_entries by done. apply lookup_insert_eq.
Qed.

(** X1. With the hint map built from the catalog by [BuildHintMap]: the hint
    of the empty word and of a word outside the catalog is empty, and the
    hint of a catalog word is the hint of its last entry. *)
Theorem hints_of_the_catalog app :
  HintMap app = game.BuildHintMap (WordList app) →
  game.GetHintForWord app "" = ""
  ∧ (∀ w, (∀ e, e ∈ WordList app → Word e ≠ w) → game.GetHintForWord app w = "")
  ∧ (∀ l1 e l2,
       WordList app = (l1 ++ e :: l2)%list → Word e ≠ "" →
       (∀ e', e' ∈ l2 → Word e' ≠ Word e) →
       game.GetHintForWord app (Word e) = Hint e).
Proof.
  intros Hmap. unfold game.GetHintForWord. split_and!.
  - done.
  - intros w Hw. destruct (String.eqb w ""); [done|].
    rewrite Hmap. unfold game.BuildHintMap.
    by rewrite hints_later_entries, lookup_empty.
  - intros l1 e l2 Hl Hne Hlast.
    rewrite (proj2 (String.eqb_neq _ _) Hne).
    by rewrite Hmap, Hl, BuildHintMap_last.
Qed.

Lemma hints_of_the_catalog_witness :
  game.GetHintForWord demoApp "TABLE" = "furniture"
  ∧ game.GetHintForWord demoApp "OTHER" = "".
Proof.
  destruct (hints_of_the_catalog demoApp) as (_ & Hout & Hin).
  - apply map_eq. intros w. vm_compute. reflexivity.
  - split.
    + apply (Hin [ {| Word := "APPLE"; Hint := "fruit" |} ]
                 {| Word := "TABLE"; Hint := "furniture" |} []).
      * reflexivity.
      * discriminate.
      * intros e' He'. by apply elem_of_nil in He'.
    + apply Hout. intros e. cbn. rewrite !elem_of_cons, elem_of_nil.
      intros [->|[->|[]]]; discriminate.
Defined.

(** ** Loading the words *)

Lemma wordSet_of_list (l : list WordEntry) (s0 : gset string) w :
  w ∈ foldl (λ wordSet entry, {[Word entry]} ∪ wordSet) s0 l
  ↔ w ∈ s0 ∨ ∃ e, e ∈ l ∧ Word e = w.
Proof.
  revert s0. induction l as [|e l IH]; intros s0; cbn.
  - split; [auto|]. intros [?|(e & He & _)]; [done|]. by apply elem_of_nil in He.
  - rewrite IH. rewrite elem_of_union, elem_of_singleton. split.
    + intros [[->|?]|(e' & He' & <-)].
      * right. exists e. split; [left | done].
      * by left.
      * right. exists e'. split; [by right | done].
    + intros [?|(e' & He' & <-)]; [auto|].
      apply elem_of_cons in He' as [->|He']; [auto|]. right. eauto.
Qed.

(** X2. When the file was read and parsed, [loadWords] returns: the list it
    keeps is the parsed one without the words that are not five bytes long,
    in the same order, and the word set holds exactly the words kept. *)
Theorem loadWords_keeps_five_byte_words (wl : list WordEntry) :
  ∃ wordList wordSet,
    startup.loadWords (Some wl) = Some (wordList, wordSet)
    ∧ Forall (λ entry, String.length (Word entry) = 5%nat) wordList
    ∧ wordList `sublist_of` wl
    ∧ (∀ entry, entry ∈ wl → String.length (Word entry) = 5%nat → entry ∈ wordList)
    ∧ (∀ w, w ∈ wordSet ↔ ∃ entry, entry ∈ wordList ∧ Word entry = w).
Proof.
  eexists _, _. split; [reflexivity|]. split_and!.
  - apply Forall_forall. intros e He. apply list_elem_of_filter in He as [He _].
    unfold Go.len in He. lia.
  - apply sublist_filter.
  - intros e He Hlen. apply list_elem_of_filter. split; [|done].
    unfold Go.len. lia.
  - intros w. rewrite wordSet_of_list. split; [|auto].
    intros [H|H]; [|done]. by apply elem_of_empty in H.
Qed.

(** ** The target word of a session *)

(** X3. Once [GetTargetWord] has answered for a game, with a catalog whose
    words are not empty, the answer is not empty and is the session word of
    the game it leaves; nothing else of the game changed; and every later
    call on that game, whatever the context and the random source, gives
    the same word and leaves the game as it is. *)
Theorem GetTargetWord_is_stable ctxDone randInt app g g1 w :
  Forall (λ entry, Word entry ≠ "") (WordList app) →
  (SessionWord g = "" → randInRange randInt) →
  game.GetTargetWord ctxDone randInt app g = Some (g1, w) →
  w ≠ "" ∧ SessionWord g1 = w
  ∧ g1 = set_SessionWord g w
  ∧ (SessionWord g ≠ "" → g1 = g)
  ∧ (∀ ctxDone' randInt' app',
       game.GetTargetWord ctxDone' randInt' app' g1 = Some (g1, w)).
Proof.
  intros Hwords Hrand Hget. unfold game.GetTargetWord in Hget.
  destruct (String.eqb (SessionWord g) "") eqn:Hempty.
  - apply String.eqb_eq in Hempty.
    destruct (game.GetRandomWordEntry ctxDone randInt app) as [e|] eqn:He;
      [cbn in Hget|done].
    simplify_eq.
    assert (Hin : e ∈ WordList app).
    { destruct (GetRandomWordEntry_total ctxDone randInt (Hrand Hempty) app)
        as (e' & He' & Hin); [|congruence].
      intros Hnil. unfold game.GetRandomWordEntry in He. rewrite Hnil in He.
      by destruct ctxDone. }
    assert (Hne : Word e ≠ "") by (by eapply (proj1 (Forall_forall _ _) Hwords)).
    split_and!; [done | done | done | congruence |].
    intros c' r' app'. unfold game.GetTargetWord. cbn.
    by rewrite (proj2 (String.eqb_neq _ _) Hne).
  - simplify_eq. apply String.eqb_neq in Hempty.
    split_and!; [done | done | by destruct g1 | done |].
    intros c' r' app'. unfold game.GetTargetWord.
    by rewrite (proj2 (String.eqb_neq _ _) Hempty).
Qed.

Lemma GetTargetWord_is_stable_witness :
  "APPLE" ≠ "" ∧ SessionWord appleGame = "APPLE"
  ∧ appleGame = set_SessionWord appleGame "APPLE"
  ∧ (SessionWord appleGame ≠ "" → appleGame = appleGame)
  ∧ (∀ ctxDone' randInt' app',
       game.GetTargetWord ctxDone' randInt' app' appleGame = Some (appleGame, "APPLE")).
Proof.
  apply (GetTargetWord_is_stable false randZero demoApp appleGame appleGame "APPLE").
  - repeat (constructor; [discriminate|]). constructor.
  - intros _. apply randZero_inRange.
  - reflexivity.
Defined.

(** ** The CSRF check *)

(** X4. A request whose method is none of POST, PUT, DELETE and PATCH passes
    the CSRF check.  One of those four passes only with a non-empty
    [csrf_token] cookie that equals the header, or equals the form field
    when the header is empty: a header that is there and differs from the
    cookie is refused whatever the form field holds. *)
Theorem validateCSRF_lets_through (method cookie header form : string) :
  (method ≠ "POST" → method ≠ "PUT" → method ≠ "DELETE" → method ≠ "PATCH" →
   middleware.validateCSRF method cookie header form = true)
  ∧ (method = "POST" ∨ method = "PUT" ∨ method = "DELETE" ∨ method = "PATCH" →
     (middleware.validateCSRF method cookie header form = true
      ↔ cookie ≠ "" ∧ (header = cookie ∨ (header = "" ∧ form = cookie))))
  ∧ (method = "POST" ∨ method = "PUT" ∨ method = "DELETE" ∨ method = "PATCH" →
     header ≠ "" → header ≠ cookie →
     middleware.validateCSRF method cookie header form = false).
Proof.
  assert (Hmut : method = "POST" ∨ method = "PUT" ∨ method = "DELETE"
                 ∨ method = "PATCH" →
                 String.eqb method "POST" || String.eqb method "PUT"
                 || String.eqb method "DELETE" || String.eqb method "PATCH" = true).
  { intros [-> | [-> | [-> | ->]]]; reflexivity. }
  unfold middleware.validateCSRF. split_and!.
  - intros H1 H2 H3 H4.
    by rewrite !(proj2 (String.eqb_neq _ _)) by done.
  - intros Hm. rewrite (Hmut Hm).
    destruct (String.eqb_spec header "") as [->|Hh]; cbn.
    + destruct (String.eqb_spec form "") as [->|Hf]; cbn.
      * split; [done|]. intros [Hc [<-|[_ <-]]]; done.
      * rewrite (proj2 (String.eqb_neq _ _) Hf). cbn.
        destruct (String.eqb_spec cookie "") as [->|Hc]; cbn.
        { split; [done|]. by intros [? _]. }
        destruct (String.eqb_spec form cookie) as [->|Hfc]; cbn.
        { split; [auto|done]. }
        split; [done|]. intros [_ [<-|[_ ?]]]; done.
    + rewrite (proj2 (String.eqb_neq _ _) Hh). cbn.
      destruct (String.eqb_spec cookie "") as [->|Hc]; cbn.
      { split; [done|]. by intros [? _]. }
      destruct (String.eqb_spec header cookie) as [->|Hhc]; cbn.
      { split; [auto|done]. }
      split; [done|]. intros [_ [?|[? _]]]; done.
  - intros Hm Hh Hhc. rewrite (Hmut Hm).
    rewrite (proj2 (String.eqb_neq _ _) Hh). cbn.
    rewrite (proj2 (String.eqb_neq _ _) Hh). cbn.
    rewrite (proj2 (String.eqb_neq _ _) Hhc). cbn. by rewrite orb_true_r.
Qed.

(** ** The two session sweeps *)

Lemma Sub_exceeds timeout now t :
  (session.minDuration < timeout < session.maxDuration)%Z →
  bool_decide (timeout < session.Sub now t)%Z = sweeps.Before t (now + Go.neg timeout)%Z.
Proof.
  intros Hrange. rewrite neg_opposite by lia. unfold session.Sub, sweeps.Before.
  unfold session.minDuration, session.maxDuration in *.
  repeat case_bool_decide; try done; lia.
Qed.

(** X5. The sweep of the session package, which compares [now.Sub(t)] with
    the timeout, and the sweep of package [main], which compares [t] with
    [now.Add(-ttl)], leave the same sessions when the timeout is the TTL and
    lies strictly between the smallest and the largest duration.  At the
    largest duration the first one removes nothing, however old a session
    is.  At the smallest duration, whose negation is itself, they differ: a
    session accessed within 2^63 nanoseconds of the sweep, before or after,
    is kept by the sweep of package [main] and removed by the other one. *)
Theorem session_sweeps_agree app now timeout :
  ((session.minDuration < timeout < session.maxDuration)%Z →
   SessionTTL app = timeout →
   session.CleanupExpiredSessions timeout app now = sweeps.cleanupStaleSessions app now)
  ∧ session.CleanupExpiredSessions session.maxDuration app now = app
  ∧ (∀ sessionID g,
       SessionTTL app = session.minDuration →
       GameSessions app !! sessionID = Some g →
       (now + session.minDuration ≤ LastAccessTime g < now - session.minDuration)%Z →
       GameSessions (sweeps.cleanupStaleSessions app now) !! sessionID = Some g
       ∧ GameSessions (session.CleanupExpiredSessions session.minDuration app now)
           !! sessionID = None).
Proof.
  split_and!.
  - intros Hrange Httl. unfold session.CleanupExpiredSessions, sweeps.cleanupStaleSessions.
    f_equal. apply map_eq. intros k. rewrite Httl.
    rewrite (range_delete_filter
               (λ g, bool_decide (timeout < session.Sub now (LastAccessTime g))%Z)).
    rewrite (range_delete_filter
               (λ g, sweeps.Before (LastAccessTime g) (now + Go.neg timeout)%Z)).
    destruct (GameSessions app !! k) as [g|]; [|done].
    by rewrite Sub_exceeds.
  - unfold session.CleanupExpiredSessions.
    assert (Hsame : map_fold
              (λ sessionID game sessions,
                 if bool_decide
                      (session.maxDuration < session.Sub now (LastAccessTime game))%Z
                 then delete sessionID sessions else sessions)
              (GameSessions app) (GameSessions app) = GameSessions app).
    { apply map_eq. intros k.
      rewrite (range_delete_filter
                 (λ g, bool_decide
                         (session.maxDuration < session.Sub now (LastAccessTime g))%Z)).
      destruct (GameSessions app !! k) as [g|]; [|done].
      rewrite bool_decide_eq_false_2; [done|].
      unfold session.Sub, session.maxDuration, session.minDuration.
      repeat case_bool_decide; lia. }
    rewrite Hsame. by destruct app.
  - intros sessionID g Httl Hg Hnear.
    unfold session.CleanupExpiredSessions, sweeps.cleanupStaleSessions.
    cbn [GameSessions set_GameSessions]. rewrite Httl, neg_minDuration.
    rewrite (range_delete_filter
               (λ g, sweeps.Before (LastAccessTime g) (now + session.minDuration)%Z)).
    rewrite (range_delete_filter
               (λ g, bool_decide
                       (session.minDuration < session.Sub now (LastAccessTime g))%Z)).
    rewrite Hg. unfold sweeps.Before. split.
    + by rewrite bool_decide_eq_false_2 by lia.
    + rewrite bool_decide_eq_true_2; [done|].
      unfold session.Sub, session.maxDuration, session.minDuration in *.
      repeat case_bool_decide; lia.
Qed.

Lemma session_sweeps_agree_witness :
  session.CleanupExpiredSessions 10800000000000 playedApp 20000000000000
  = sweeps.cleanupStaleSessions playedApp 20000000000000.
Proof.
  apply (session_sweeps_agree playedApp 20000000000000 10800000000000).
  - unfold session.minDuration, session.maxDuration. lia.
  - reflexivity.
Defined.

(** ** Get-or-create, one call after the other *)

(** X6. After a call of [GetGameState] has answered for a session id, a
    second call for that id, whatever its context, random source and time,
    creates nothing: it answers the same game with the new access time, the
    map still has the same number of sessions and every other session is as
    it was. *)
Theorem GetGameState_twice ctxDone randInt app now sessionID app1 g1 :
  session.GetGameState ctxDone randInt app now sessionID = Some (app1, g1) →
  ∀ ctxDone' randInt' now',
    ∃ app2,
      session.GetGameState ctxDone' randInt' app1 now' sessionID
      = Some (app2, set_LastAccessTime g1 now')
      ∧ GameSessions app2 !! sessionID = Some (set_LastAccessTime g1 now')
      ∧ size (GameSessions app2) = size (GameSessions app1)
      ∧ (∀ other, other ≠ sessionID →
           GameSessions app2 !! other = GameSessions app1 !! other).
Proof.
  intros Hget ctxDone' randInt' now'.
  assert (Hstored : GameSessions app1 !! sessionID = Some g1).
  { unfold session.GetGameState in Hget.
    destruct (GameSessions app !! sessionID) as [g|] eqn:Hg.
    - simplify_eq. cbn. apply lookup_insert_eq.
    - unfold game.CreateNewGame in Hget.
      destruct (game.GetRandomWordEntry _ _ _); [cbn in Hget|done].
      simplify_eq. cbn. apply lookup_insert_eq. }
  rewrite (GetGameState_existing ctxDone' randInt' app1 now' sessionID g1 Hstored).
  eexists. split; [reflexivity|]. cbn. split_and!.
  - apply lookup_insert_eq.
  - apply map_size_insert_Some. eauto.
  - intros other Hne. by apply lookup_insert_ne.
Qed.

Lemma GetGameState_twice_witness :
  ∃ app1 g1,
    session.GetGameState false randZero demoApp 1 "s" = Some (app1, g1)
    ∧ ∃ app2,
        session.GetGameState true (λ _, game.RandErr) app1 2 "s"
        = Some (app2, set_LastAccessTime g1 2)
        ∧ GameSessions app2 !! "s" = Some (set_LastAccessTime g1 2)
        ∧ size (GameSessions app2) = size (GameSessions app1)
        ∧ (∀ other, other ≠ "s" →
             GameSessions app2 !! other = GameSessions app1 !! other).
Proof.
  eexists _, _. split; [reflexivity|].
  apply (GetGameState_twice false randZero demoApp 1 "s"). reflexivity.
Defined.

(** X7. After [getLimiter] has answered for a key, a second call for that
    key answers the same limiter and makes no new entry; and a call never
    touches the entry of another key. *)
Theorem getLimiter_twice app now key app1 lim :
  middleware.getLimiter app now key = Some (app1, lim) →
  (∀ other, other ≠ key → LimiterMap app1 !! other = LimiterMap app !! other)
  ∧ ∀ now',
      ∃ app2,
        middleware.getLimiter app1 now' key = Some (app2, lim)
        ∧ LimiterMap app2 !! key = Some {| TheLimiter := lim; LastAccess := now' |}
        ∧ size (LimiterMap app2) = size (LimiterMap app1).
Proof.
  intros Hget.
  assert (Hfirst : LimiterMap app1 !! key = Some {| TheLimiter := lim; LastAccess := now |}
                   ∧ ∀ other, other ≠ key →
                       LimiterMap app1 !! other = LimiterMap app !! other).
  { unfold middleware.getLimiter, middleware.getLimiterAfter in Hget.
    destruct (LimiterMap app !! key) as [e|] eqn:He.
    - simplify_eq. cbn. rewrite lookup_insert_eq. split; [done|].
      intros other Hne. by apply lookup_insert_ne.
    - destruct (Go.div _ _); [cbn in Hget|done]. simplify_eq. cbn.
      rewrite lookup_insert_eq. split; [done|].
      intros other Hne. by apply lookup_insert_ne. }
  destruct Hfirst as [Hstored Hothers]. split; [done|]. intros now'.
  unfold middleware.getLimiter, middleware.getLimiterAfter. rewrite Hstored.
  eexists. split; [reflexivity|]. cbn. rewrite lookup_insert_eq.
  split; [done|]. apply map_size_insert_Some. eauto.
Qed.

Lemma getLimiter_twice_witness :
  ∃ app1 lim,
    middleware.getLimiter demoApp 1 "10.0.0.1" = Some (app1, lim)
    ∧ (∀ other, other ≠ "10.0.0.1" →
         LimiterMap app1 !! other = LimiterMap demoApp !! other)
    ∧ ∀ now',
        ∃ app2,
          middleware.getLimiter app1 now' "10.0.0.1" = Some (app2, lim)
          ∧ LimiterMap app2 !! "10.0.0.1"
            = Some {| TheLimiter := lim; LastAccess := now' |}
          ∧ size (LimiterMap app2) = size (LimiterMap app1).
Proof.
  eexists _, _. split; [reflexivity|].
  apply (getLimiter_twice demoApp 1 "10.0.0.1"). reflexivity.
Defined.

(** ** Access and sweep *)

Lemma GetGameState_stores ctxDone randInt app now sessionID app1 g1 :
  session.GetGameState ctxDone randInt app now sessionID = Some (app1, g1) →
  GameSessions app1 !! sessionID = Some g1 ∧ LastAccessTime g1 = now
  ∧ SessionTTL app1 = SessionTTL app ∧ WordList app1 = WordList app.
Proof.
  intros Hget. unfold session.GetGameState in Hget.
  destruct (GameSessions app !! sessionID) as [g|] eqn:Hg.
  - simplify_eq. cbn. by rewrite lookup_insert_eq.
  - unfold game.CreateNewGame in Hget.
    destruct (game.GetRandomWordEntry _ _ _); [cbn in Hget|done].
    simplify_eq. cbn. by rewrite lookup_insert_eq.
Qed.

(** X8. A session that [GetGameState] touched at time [t] is still there,
    unchanged, after a sweep whose cutoff is not after [t]; after a sweep
    with a later cutoff it is gone, and the next [GetGameState] for its id
    starts a new game.  The cutoff is the one the code computes,
    [now.Add(-ttl)]: the sweep time minus the TTL for every TTL but the
    smallest duration, whose negation is itself. *)
Theorem touched_session_and_sweep ctxDone randInt app t sessionID app1 g1 now :
  session.GetGameState ctxDone randInt app t sessionID = Some (app1, g1) →
  ((session.minDuration < SessionTTL app ≤ session.maxDuration)%Z →
   (now + Go.neg (SessionTTL app))%Z = (now - SessionTTL app)%Z)
  ∧ ((now + Go.neg (SessionTTL app) ≤ t)%Z →
     GameSessions (sweeps.cleanupStaleSessions app1 now) !! sessionID = Some g1)
  ∧ ((t < now + Go.neg (SessionTTL app))%Z →
     GameSessions (sweeps.cleanupStaleSessions app1 now) !! sessionID = None
     ∧ ∀ ctxDone' randInt' now',
         randInRange randInt' → WordList app ≠ [] →
         ∃ app2 g2,
           session.GetGameState ctxDone' randInt'
             (sweeps.cleanupStaleSessions app1 now) now' sessionID = Some (app2, g2)
           ∧ Guesses g2 = game.emptyBoard ∧ GuessHistory g2 = []
           ∧ CurrentRow g2 = 0%Z ∧ Won g2 = false ∧ GameOver g2 = false
           ∧ TargetWord g2 = "").
Proof.
  intros Hget.
  destruct (GetGameState_stores _ _ _ _ _ _ _ Hget) as (Hstored & Htime & Httl & Hwords).
  assert (Hlookup : GameSessions (sweeps.cleanupStaleSessions app1 now) !! sessionID
                    = if sweeps.Before t (now + Go.neg (SessionTTL app))%Z
                      then None else Some g1).
  { unfold sweeps.cleanupStaleSessions. cbn.
    rewrite (range_delete_filter
               (λ g, sweeps.Before (LastAccessTime g) (now + Go.neg (SessionTTL app1))%Z)).
    by rewrite Hstored, Htime, Httl. }
  unfold sweeps.Before in Hlookup. split_and!.
  - intros Hrange. rewrite neg_opposite by done. lia.
  - intros Hfresh. by rewrite Hlookup, bool_decide_eq_false_2 by lia.
  - intros Hstale. rewrite bool_decide_eq_true_2 in Hlookup by lia.
    split; [done|]. intros ctxDone' randInt' now' Hrand Hne.
    destruct (GetGameState_total ctxDone' randInt'
                (sweeps.cleanupStaleSessions app1 now) now' sessionID Hrand)
      as (app2 & g2 & Hget2 & _ & _ & Hnew).
    { unfold sweeps.cleanupStaleSessions. cbn. by rewrite Hwords. }
    rewrite Hlookup in Hnew. destruct Hnew as (? & ? & ? & ? & ? & ?).
    exists app2, g2. by split_and!.
Qed.

Lemma touched_session_and_sweep_witness :
  GameSessions
    (sweeps.cleanupStaleSessions
       (set_GameSessions playedApp
          (<["s" := set_LastAccessTime playedGame 7]> (GameSessions playedApp)))
       10800000000007) !! "s"
  = Some (set_LastAccessTime playedGame 7).
Proof.
  refine (proj1 (proj2 (touched_session_and_sweep false randZero playedApp 7 "s" _ _
                          10800000000007 _)) _).
  - reflexivity.
  - by vm_compute.
Defined.

Lemma getLimiter_stores app t key app1 lim :
  middleware.getLimiter app t key = Some (app1, lim) →
  LimiterMap app1 !! key = Some {| TheLimiter := lim; LastAccess := t |}
  ∧ RateLimiterTTL app1 = RateLimiterTTL app.
Proof.
  intros Hget. unfold middleware.getLimiter, middleware.getLimiterAfter in Hget.
  destruct (LimiterMap app !! key) as [e|] eqn:He.
  - simplify_eq. cbn. by rewrite lookup_insert_eq.
  - destruct (Go.div _ _); [cbn in Hget|done]. simplify_eq. cbn.
    by rewrite lookup_insert_eq.
Qed.

(** X9. A limiter that [getLimiter] touched at time [t] is still there, with
    that access time, after a limiter sweep whose cutoff is not after [t],
    as long as the map has at most 50000 entries; after a sweep with a
    later cutoff it is gone, whatever the size of the map.  The cutoff is
    the one the code computes, [now.Add(-ttl)]: the sweep time minus the TTL
    for every TTL but the smallest duration, whose negation is itself. *)
Theorem touched_limiter_and_sweep sortSlice app t key app1 lim now :
  middleware.getLimiter app t key = Some (app1, lim) →
  ((session.minDuration < RateLimiterTTL app ≤ session.maxDuration)%Z →
   (now + Go.neg (RateLimiterTTL app))%Z = (now - RateLimiterTTL app)%Z)
  ∧ ((now + Go.neg (RateLimiterTTL app) ≤ t)%Z →
     (Z.of_nat (size (LimiterMap app1)) ≤ 50000)%Z →
     LimiterMap (sweeps.cleanupStaleRateLimiters sortSlice app1 now) !! key
     = Some {| TheLimiter := lim; LastAccess := t |})
  ∧ ((t < now + Go.neg (RateLimiterTTL app))%Z →
     LimiterMap (sweeps.cleanupStaleRateLimiters sortSlice app1 now) !! key = None).
Proof.
  intros Hget. destruct (getLimiter_stores _ _ _ _ _ Hget) as [Hstored Httl].
  assert (Hafter : afterTTL app1 now !! key
                   = if sweeps.Before t (now + Go.neg (RateLimiterTTL app))%Z then None
                     else Some {| TheLimiter := lim; LastAccess := t |}).
  { by rewrite afterTTL_lookup, Hstored, Httl. }
  unfold sweeps.Before in Hafter. split_and!.
  - intros Hrange. rewrite neg_opposite by done. lia.
  - intros Hfresh Hsize. rewrite bool_decide_eq_false_2 in Hafter by lia.
    rewrite cleanupStaleRateLimiters_unfold. cbv zeta.
    rewrite bool_decide_eq_false_2; [done|].
    assert (Hsub : afterTTL app1 now ⊆ LimiterMap app1).
    { apply map_subseteq_spec. intros k e. rewrite afterTTL_lookup.
      destruct (LimiterMap app1 !! k) as [e'|]; [|done].
      by destruct (sweeps.Before _ _). }
    pose proof (map_subseteq_size _ _ Hsub). lia.
  - intros Hstale. rewrite bool_decide_eq_true_2 in Hafter by lia.
    destruct (LimiterMap (sweeps.cleanupStaleRateLimiters sortSlice app1 now) !! key)
      as [e|] eqn:Hk; [|done].
    apply cleanupStaleRateLimiters_subset in Hk. congruence.
Qed.

Lemma touched_limiter_and_sweep_witness :
  ∃ app1 lim,
    middleware.getLimiter twoLimiters 3600000000100 "new" = Some (app1, lim)
    ∧ LimiterMap (sweeps.cleanupStaleRateLimiters id app1 3600000000200) !! "new"
      = Some {| TheLimiter := lim; LastAccess := 3600000000100 |}.
Proof.
  eexists _, _. split; [reflexivity|].
  refine (proj1 (proj2 (touched_limiter_and_sweep id twoLimiters 3600000000100 "new"
                          _ _ 3600000000200 _)) _ _).
  - reflexivity.
  - by vm_compute.
  - vm_compute. discriminate.
Defined.

(** ** Losing a game *)

Lemma playAll_without_win now target :
  ∀ moves g,
    wellFormed g → GameOver g = false → Won g = false →
    Forall (λ move, isWinning target move = false) moves →
    (CurrentRow g + Z.of_nat (length moves) ≤ MaxGuesses)%Z →
    ∃ g',
      playAll now g target moves = Some g'
      ∧ wellFormed g'
      ∧ CurrentRow g' = (CurrentRow g + Z.of_nat (length moves))%Z
      ∧ Won g' = false
      ∧ GuessHistory g' = (GuessHistory g ++ ((λ move : Move, move.1.1) <$> moves))%list
      ∧ SessionWord g' = SessionWord g
      ∧ (moves ≠ [] →
         GameOver g' = bool_decide (CurrentRow g' = MaxGuesses)
         ∧ TargetWord g' = if GameOver g' then target else TargetWord g)
      ∧ (∀ j, (j < Z.to_nat (CurrentRow g))%nat → Guesses g' !! j = Guesses g !! j)
      ∧ (∀ i move, moves !! i = Some move →
           Guesses g' !! (Z.to_nat (CurrentRow g) + i)%nat = Some move.1.2).
Proof.
  induction moves as [|move moves IH]; intros g Hwf Hover Hwon Hmoves Hrows.
  - exists g. cbn. rewrite Z.add_0_r, app_nil_r. by split_and!.
  - apply Forall_cons in Hmoves as [Hmove Hmoves].
    destruct Hwf as [Hlen Hrow]. cbn [length] in Hrows.
    destruct (UpdateGameState_open now g move.1.1 target move.1.2 move.2)
      as (g1 & Hstep & HG & HH & _ & HS & HR & HW & HO & HT);
      [lia | rewrite Hlen; unfold MaxGuesses in *; lia |].
    cbn in HT. unfold isWinning in Hmove. rewrite Hmove in HR, HW, HO.
    rewrite Hover in HO. rewrite Hwon in HW.
    cbn [playAll]. rewrite Hstep.
    destruct moves as [|move' moves].
    + exists g1. cbn [playAll length fmap list_fmap]. split_and!.
      * done.
      * split; [by rewrite HG, length_insert | lia].
      * lia.
      * done.
      * by rewrite HH.
      * done.
      * intros _. split; [|by rewrite HT].
        rewrite HO, HR. cbn [length] in Hrows.
        repeat case_bool_decide; try done; lia.
      * intros j Hj. rewrite HG. apply list_lookup_insert_ne. lia.
      * intros [|i] move0; [|done]. intros [= <-]. rewrite HG, Nat.add_0_r.
        apply list_lookup_insert_eq. lia.
    + assert (Hnotover : GameOver g1 = false).
      { rewrite HO. cbn [length] in Hrows. case_bool_decide; [lia | done]. }
      destruct (IH g1) as (g' & Hplay & Hwf' & HR' & HW' & HH' & HS' & HT' & Hlow
                           & Hrowsof);
        [split; [by rewrite HG, length_insert | lia] | done | done | done
        | cbn [length] in *; lia |].
      destruct HT' as [HO' HT']; [done|].
      exists g'. split_and!; try done.
      * rewrite HR', HR. cbn [length]. lia.
      * rewrite HH', HH, <-(assoc_L (++)). done.
      * congruence.
      * intros _. split; [done|]. rewrite HT', HT, Hnotover. done.
      * intros j Hj. rewrite Hlow by lia. rewrite HG.
        apply list_lookup_insert_ne. lia.
      * intros [|i] move0 Hi.
        -- cbn in Hi. simplify_eq. rewrite Nat.add_0_r, Hlow by lia.
           rewrite HG. apply list_lookup_insert_eq. lia.
        -- cbn in Hi. rewrite <-(Hrowsof i move0 Hi). f_equal. lia.
Qed.

(** X10. From a game in progress whose board has its rows, guesses that do
    not win, no more of them than rows are left: every transition returns;
    the game is not won; each guess is appended to the history, in order;
    each row is written at its index and the rows before are kept; the game
    is over exactly when the last row was used, and then the target word is
    revealed, while before that the field is as it was. *)
Theorem missed_guesses_lose now target moves g :
  wellFormed g → GameOver g = false → Won g = false →
  Forall (λ move, isWinning target move = false) moves →
  moves ≠ [] →
  (CurrentRow g + Z.of_nat (length moves) ≤ MaxGuesses)%Z →
  ∃ g',
    playAll now g target moves = Some g'
    ∧ Won g' = false
    ∧ CurrentRow g' = (CurrentRow g + Z.of_nat (length moves))%Z
    ∧ GameOver g'
      = bool_decide (CurrentRow g + Z.of_nat (length moves) = MaxGuesses)%Z
    ∧ TargetWord g' = (if GameOver g' then target else TargetWord g)
    ∧ GuessHistory g' = (GuessHistory g ++ ((λ move : Move, move.1.1) <$> moves))%list
    ∧ (∀ j, (j < Z.to_nat (CurrentRow g))%nat → Guesses g' !! j = Guesses g !! j)
    ∧ (∀ i move, moves !! i = Some move →
         Guesses g' !! (Z.to_nat (CurrentRow g) + i)%nat = Some move.1.2).
Proof.
  intros Hwf Hover Hwon Hmoves Hne Hrows.
  destruct (playAll_without_win now target moves g Hwf Hover Hwon Hmoves Hrows)
    as (g' & Hplay & _ & HR & HW & HH & _ & HT & Hlow & Hrowsof).
  destruct (HT Hne) as [HO HT'].
  exists g'. split_and!; try done. by rewrite HO, HR.
Qed.

Lemma missed_guesses_lose_witness :
  ∃ g',
    playAll 7 appleGame "APPLE" sixMisses = Some g'
    ∧ Won g' = false ∧ GameOver g' = true ∧ TargetWord g' = "APPLE"
    ∧ GuessHistory g' = ["WRONG"; "TABLE"; "CHAIR"; "GRAPE"; "LEMON"; "PEACH"].
Proof.
  destruct (missed_guesses_lose 7 "APPLE" sixMisses appleGame)
    as (g' & Hplay & HW & _ & HO & HT & HH & _).
  - split; [reflexivity | unfold MaxGuesses; cbn; lia].
  - reflexivity.
  - reflexivity.
  - repeat constructor.
  - discriminate.
  - unfold MaxGuesses. cbn. lia.
  - exists g'. rewrite HO in HT. cbn in HO, HT, HH. by split_and!.
Defined.

(** ** Scoring, position by position *)

Section Positions.
Import game scoring_spec.
Local Open Scope list_scope.

Lemma pass1_lookup guess target :
  ∀ i g t, guess !! i = Some g → target !! i = Some t →
    (pass1 guess target).1 !! i
    = Some (if bool_decide (g = t) then Some Correct else None).
Proof.
  revert target. induction guess as [|g0 guess IH]; intros [|t0 target] i g t Hg Ht;
    try done.
  cbn [pass1]. specialize (IH target).
  destruct (pass1 guess target) as [marks consumed].
  destruct i as [|i]; cbn in Hg, Ht.
  - simplify_eq. by case_bool_decide.
  - specialize (IH i g t Hg Ht). by destruct (bool_decide (g0 = t0)).
Qed.

Lemma firstUnconsumed_holds c target :
  ∀ consumed j, firstUnconsumed c target consumed = Some j → target !! j = Some c.
Proof.
  induction target as [|t target IH]; intros [|b consumed] j Hj; try done.
  cbn in Hj. destruct (negb b && bool_decide (t = c)) eqn:Hb.
  - simplify_eq. apply andb_true_iff in Hb as [_ Hb]. by case_bool_decide; simplify_eq.
  - destruct (firstUnconsumed c target consumed) as [j'|] eqn:Hj'; [|done].
    cbn in Hj. simplify_eq. cbn. by eapply IH.
Qed.

Lemma pass2_lookup target todo :
  ∀ consumed i g m, todo !! i = Some (g, m) →
    ∃ c, pass2 target todo consumed !! i = Some c
         ∧ match m with
           | Some m => c = m
           | None => c ≠ Correct ∧ (c = Present → g ∈ target)
           end.
Proof.
  induction todo as [|[g0 [m0|]] todo IH]; intros consumed i g m Hi; [done|..].
  - destruct i as [|i]; cbn in Hi.
    + simplify_eq. by exists m0.
    + cbn. by apply IH.
  - cbn [pass2].
    destruct (firstUnconsumed g0 target consumed) as [j|] eqn:Hj.
    + destruct i as [|i]; cbn in Hi.
      * simplify_eq. exists Present. split_and!; [done..|].
        intros _. apply firstUnconsumed_holds in Hj. by eapply list_elem_of_lookup_2.
      * cbn. by apply IH.
    + destruct i as [|i]; cbn in Hi.
      * simplify_eq. by exists Absent.
      * cbn. by apply IH.
Qed.

Lemma score_lookup guess target i g t :
  guess !! i = Some g → target !! i = Some t →
  ∃ c, score guess target !! i = Some c
       ∧ (c = Correct ↔ g = t)
       ∧ (c = Present → g ≠ t ∧ g ∈ target).
Proof.
  intros Hg Ht. pose proof (pass1_lookup guess target i g t Hg Ht) as H1.
  unfold score. destruct (pass1 guess target) as [marks consumed]. cbn in H1.
  destruct (pass2_lookup target (zip guess marks) consumed i g
              (if bool_decide (g = t) then Some Correct else None))
    as (c & Hc & Hm).
  { apply lookup_zip_with_Some. eauto. }
  exists c. split; [done|]. case_bool_decide as Heq.
  - subst c. by split.
  - destruct Hm as [Hnc Hp]. split; [by split | auto].
Qed.

Lemma byte_val_inj a b : Go.byte_val a = Go.byte_val b → a = b.
Proof.
  unfold Go.byte_val. intros H. apply N2Z.inj in H.
  by rewrite <-(ascii_N_embedding a), <-(ascii_N_embedding b), H.
Qed.

Lemma bytes_inj s : ∀ s', bytes s = bytes s' → s = s'.
Proof.
  induction s as [|a s IH]; intros [|b s'] H; try done.
  cbn in H. injection H as Hab Hs. f_equal; [by apply byte_val_inj | by apply IH].
Qed.

Lemma statusOf_Correct c : statusOf c = GuessStatusCorrect ↔ c = Correct.
Proof. by destruct c. Qed.

Lemma statusOf_Present c : statusOf c = GuessStatusPresent ↔ c = Present.
Proof. by destruct c. Qed.

Lemma statusOf_Absent c : statusOf c = GuessStatusAbsent ↔ c = Absent.
Proof. by destruct c. Qed.

End Positions.

(** X11. For a guess and a target of five bytes, the target in ASCII and the
    guess without a blank: at every position the status is Correct exactly
    when the guess has the target's letter there, Present only for a letter
    that the target holds at another position, and Absent for a letter that
    the target does not hold at all. *)
Theorem CheckGuess_by_position guess target pool :
  String.length guess = WordLength →
  String.length target = WordLength →
  isASCII target →
  Forall (λ g, g ≠ game.blank) (bytes guess) →
  (∀ buf, pool = Some buf → (WordLength ≤ length buf)%nat) →
  ∃ result,
    game.CheckGuess guess target pool = Some (result, cleared pool)
    ∧ ∀ i g t, bytes guess !! i = Some g → bytes target !! i = Some t →
        ∃ r, result !! i = Some r
             ∧ (Status r = GuessStatusCorrect ↔ g = t)
             ∧ (Status r = GuessStatusPresent → g ≠ t ∧ g ∈ bytes target)
             ∧ (g ∉ bytes target → Status r = GuessStatusAbsent).
Proof.
  intros Hguess Htarget Hascii Hblank Hpool.
  eexists. split; [by apply CheckGuess_refines|].
  intros i g t Hg Ht.
  destruct (score_lookup _ _ i g t Hg Ht) as (c & Hc & Hcorrect & Hpresent).
  exists (final g c). split_and!.
  - apply lookup_zip_with_Some. eauto.
  - cbn. by rewrite statusOf_Correct.
  - cbn. by rewrite statusOf_Present.
  - cbn. rewrite statusOf_Absent. intros Hnotin. destruct c; [|tauto|done].
    exfalso. apply Hnotin. assert (g = t) as -> by tauto.
    by eapply list_elem_of_lookup_2.
Qed.

Lemma CheckGuess_by_position_witness :
  ∃ result,
    game.CheckGuess "TABLE" "APPLE" None = Some (result, cleared None)
    ∧ ∀ i g t, bytes "TABLE" !! i = Some g → bytes "APPLE" !! i = Some t →
        ∃ r, result !! i = Some r
             ∧ (Status r = GuessStatusCorrect ↔ g = t)
             ∧ (Status r = GuessStatusPresent → g ≠ t ∧ g ∈ bytes "APPLE")
             ∧ (g ∉ bytes "APPLE" → Status r = GuessStatusAbsent).
Proof.
  apply (CheckGuess_by_position "TABLE" "APPLE" None).
  - reflexivity.
  - reflexivity.
  - unfold isASCII. vm_compute. repeat constructor.
  - vm_compute. repeat (constructor; [discriminate|]). constructor.
  - discriminate.
Defined.

(** X12. Under the same conditions, on a game with its board that has a row
    left and is not won: the row that [CheckGuess] returns is all Correct
    exactly when the guess is the target, and exactly when [UpdateGameState],
    given that row for a guess among the target words, leaves the game won.
    For a guess outside the target words the transition leaves the game not
    won, also when the row is all Correct. *)
Theorem all_correct_iff_target now g guess target pool :
  String.length guess = WordLength →
  String.length target = WordLength →
  isASCII target →
  Forall (λ b, b ≠ game.blank) (bytes guess) →
  (∀ buf, pool = Some buf → (WordLength ≤ length buf)%nat) →
  wellFormed g → (CurrentRow g < MaxGuesses)%Z → Won g = false →
  ∃ result g' g'',
    game.CheckGuess guess target pool = Some (result, cleared pool)
    ∧ game.UpdateGameState now g guess target result false = Some g'
    ∧ game.UpdateGameState now g guess target result true = Some g''
    ∧ (Forall (λ r, Status r = GuessStatusCorrect) result ↔ guess = target)
    ∧ (Forall (λ r, Status r = GuessStatusCorrect) result ↔ Won g' = true)
    ∧ Won g'' = false.
Proof.
  intros Hguess Htarget Hascii Hblank Hpool [Hboard Hrow] Hleft Hwon.
  assert (Hlen : length (bytes guess) = length (bytes target))
    by (rewrite !length_bytes; congruence).
  pose proof (length_score _ _ Hlen) as Hscore.
  set (result := zip_with final (bytes guess)
                   (scoring_spec.score (bytes guess) (bytes target))).
  assert (Hiff : Forall (λ r, Status r = GuessStatusCorrect) result ↔ guess = target).
  { unfold result. rewrite Forall_lookup. split.
    - intros Hall. apply bytes_inj. apply list_eq_same_length with (length (bytes guess));
        [done | done |].
      intros i b t _ Hb Ht.
      destruct (score_lookup _ _ i b t Hb Ht) as (c & Hc & Hcorrect & _).
      apply Hcorrect. apply statusOf_Correct.
      apply (Hall i (final b c)). apply lookup_zip_with_Some. eauto.
    - intros <- i r Hr. apply lookup_zip_with_Some in Hr as (b & c & -> & Hb & Hc).
      destruct (score_lookup _ _ i b b Hb Hb) as (c' & Hc' & Hcorrect & _).
      cbn. apply statusOf_Correct. rewrite Hc in Hc'. simplify_eq. tauto. }
  destruct (UpdateGameState_open now g guess target result false)
    as (g' & Hrun' & _ & _ & _ & _ & _ & HW' & _);
    [lia | rewrite Hboard; unfold MaxGuesses in *; lia |].
  destruct (UpdateGameState_open now g guess target result true)
    as (g'' & Hrun'' & _ & _ & _ & _ & _ & HW'' & _);
    [lia | rewrite Hboard; unfold MaxGuesses in *; lia |].
  cbn [negb andb] in HW', HW''.
  exists result, g', g''. split; [by apply CheckGuess_refines|].
  split_and!; [done | done | done | | by rewrite HW''].
  rewrite Hiff, HW', Hwon. destruct (String.eqb_spec guess target); by split.
Qed.

Lemma all_correct_iff_target_witness :
  ∃ result g' g'',
    game.CheckGuess "APPLE" "APPLE" None = Some (result, cleared None)
    ∧ game.UpdateGameState 1 appleGame "APPLE" "APPLE" result false = Some g'
    ∧ game.UpdateGameState 1 appleGame "APPLE" "APPLE" result true = Some g''
    ∧ (Forall (λ r, Status r = GuessStatusCorrect) result ↔ "APPLE" = "APPLE")
    ∧ (Forall (λ r, Status r = GuessStatusCorrect) result ↔ Won g' = true)
    ∧ Won g'' = false.
Proof.
  apply (all_correct_iff_target 1 appleGame "APPLE" "APPLE" None).
  - reflexivity.
  - reflexivity.
  - unfold isASCII. vm_compute. repeat constructor.
  - vm_compute. repeat (constructor; [discriminate|]). constructor.
  - discriminate.
  - split; [reflexivity | cbn; unfold MaxGuesses; lia].
  - cbn. unfold MaxGuesses. lia.
  - reflexivity.
Defined.

(** ** Scoring with a pooled buffer *)

Section Pooled.
Import game.
Local Open Scope list_scope.

Lemma for_range_seq {S} (P : nat → S → Prop) (body : S → nat → option S) n :
  (∀ s i, (i < n)%nat → P i s → ∃ s', body s i = Some s' ∧ P (Datatypes.S i) s') →
  ∀ s, P 0%nat s → ∃ s', Go.for_range body (seq 0 n) s = Some s' ∧ P n s'.
Proof.
  intros Hbody.
  assert (Hgen : ∀ m k s, (k + m = n)%nat → P k s →
                   ∃ s', Go.for_range body (seq k m) s = Some s' ∧ P n s').
  { induction m as [|m IH]; intros k s Hk Hs.
    - exists s. cbn. split; [done|]. by replace n with k by lia.
    - destruct (Hbody s k) as (s1 & Hs1 & HP1); [lia | done |].
      cbn [seq Go.for_range]. rewrite Hs1. apply IH; [lia | done]. }
  intros s Hs. by apply Hgen.
Qed.

Lemma firstIndex_lt r l j : firstIndex r l = Some j → (j < length l)%nat.
Proof.
  revert j. induction l as [|x l IH]; intros j Hj; [done|].
  cbn in Hj. case_bool_decide.
  - simplify_eq. cbn. lia.
  - destruct (firstIndex r l) as [j'|]; [|done]. cbn in Hj. simplify_eq.
    cbn. specialize (IH j' eq_refl). lia.
Qed.

Lemma bytes_lookup_lt s i : (i < String.length s)%nat → is_Some (bytes s !! i).
Proof. intros H. apply lookup_lt_is_Some. by rewrite length_bytes. Qed.

Variables guess target : string.
Hypothesis Hguess : (WordLength ≤ String.length guess)%nat.
Hypothesis Htarget : (WordLength ≤ String.length target)%nat.

Lemma pass1_total targetCopy :
  length targetCopy = WordLength →
  ∃ result targetCopy',
    Go.for_range (markCorrect guess target) (seq 0 WordLength)
      (replicate WordLength {| Letter := ""; Status := "" |}, targetCopy)
    = Some (result, targetCopy')
    ∧ markedUpTo guess target WordLength result
    ∧ length targetCopy' = WordLength.
Proof using Hguess Htarget.
  intros Hlen.
  destruct (for_range_seq
              (λ k st, markedUpTo guess target k st.1 ∧ length st.2 = WordLength)
              (markCorrect guess target) WordLength) with
    (s := (replicate WordLength {| Letter := ""; Status := "" |}, targetCopy))
    as ([result tc'] & Hrun & Hmarked & Hlen').
  - intros [result tc] i Hi [[Hres Hmarked] Htc]. cbn [fst snd] in *.
    destruct (bytes_lookup_lt guess i) as [g Hg]; [lia|].
    destruct (bytes_lookup_lt target i) as [t Ht]; [lia|].
    unfold markCorrect. rewrite !byte_at_bytes, Hg, Ht. cbn [mbind option_bind].
    case_bool_decide as Heq.
    + unfold Go.assign_nat. rewrite !bool_decide_eq_true_2 by lia.
      cbn [mbind option_bind]. eexists. split; [done|]. cbn [fst snd].
      split; [split|]; [by rewrite length_insert | | by rewrite length_insert].
      intros i0 g0 t0 Hg0 Ht0 Hi0. destruct (decide (i0 = i)) as [->|Hne].
      * simplify_eq. rewrite list_lookup_insert_eq by lia.
        rewrite !bool_decide_eq_true_2 by (done || lia). done.
      * rewrite list_lookup_insert_ne by done. rewrite (Hmarked i0 g0 t0) by done.
        by rewrite (bool_decide_ext (i0 < Datatypes.S i)%nat (i0 < i)%nat) by lia.
    + eexists. split; [done|]. cbn [fst snd]. split; [split|]; [done | | done].
      intros i0 g0 t0 Hg0 Ht0 Hi0. rewrite (Hmarked i0 g0 t0) by done.
      destruct (decide (i0 = i)) as [->|Hne].
      * simplify_eq. by rewrite !bool_decide_eq_false_2 by done.
      * by rewrite (bool_decide_ext (i0 < Datatypes.S i)%nat (i0 < i)%nat) by lia.
  - cbn [fst snd]. split; [split|]; [by rewrite length_replicate | | done].
    intros i g t Hg Ht Hi. rewrite lookup_replicate_2 by done.
    rewrite (bool_decide_eq_false_2 (i < 0)%nat) by lia.
    by rewrite andb_false_r.
  - by exists result, tc'.
Qed.

Lemma pass2_total result targetCopy :
  markedUpTo guess target WordLength result →
  length targetCopy = WordLength →
  ∃ result' targetCopy',
    Go.for_range (markPresent guess) (seq 0 WordLength) (result, targetCopy)
    = Some (result', targetCopy')
    ∧ scoredUpTo guess target WordLength result'.
Proof using Hguess Htarget.
  intros [Hres Hmarked] Hlen.
  destruct (for_range_seq
              (λ k st, scoredUpTo guess target k st.1 ∧ length st.2 = WordLength)
              (markPresent guess) WordLength) with (s := (result, targetCopy))
    as ([result' tc'] & Hrun & Hscored & _).
  - clear result targetCopy Hres Hmarked Hlen.
    intros [result tc] i Hi [[Hres Hscored] Htc]. cbn [fst snd] in *.
    destruct (bytes_lookup_lt guess i) as [g Hg]; [lia|].
    destruct (bytes_lookup_lt target i) as [t Ht]; [lia|].
    destruct (Hscored i g t Hg Ht Hi) as (r & Hr & Hri).
    unfold markPresent, Go.at_nat. rewrite Hr. cbn [mbind option_bind].
    case_bool_decide as Heq.
    + subst r. cbn [Status]. cbn [String.eqb].
      replace (String.eqb GuessStatusCorrect "") with false by done.
      eexists. split; [done|]. cbn [fst snd]. split; [split|]; [done | | done].
      intros i0 g0 t0 Hg0 Ht0 Hi0.
      destruct (Hscored i0 g0 t0 Hg0 Ht0 Hi0) as (r0 & Hr0 & Hri0).
      exists r0. split; [done|]. case_bool_decide; [done|].
      destruct (decide (i0 = i)) as [->|Hne]; [by simplify_eq|].
      rewrite (bool_decide_ext (i0 < Datatypes.S i)%nat (i0 < i)%nat) by lia. done.
    + rewrite bool_decide_eq_false_2 in Hri by lia. subst r. cbn [Status String.eqb].
      rewrite byte_at_bytes, Hg. cbn [mbind option_bind].
      rewrite findRune_all by done. cbn [mbind option_bind].
      assert (Hstep : ∀ status (tc1 : list Z),
                status = GuessStatusPresent ∨ status = GuessStatusAbsent →
                length tc1 = WordLength →
                scoredUpTo guess target (Datatypes.S i)
                  (<[i := {| Letter := utf8.string_of_byte g; Status := status |}]> result)
                ∧ length tc1 = WordLength).
      { intros status tc1 Hstatus Htc1. split; [split|]; [by rewrite length_insert | | done].
        intros i0 g0 t0 Hg0 Ht0 Hi0. destruct (decide (i0 = i)) as [->|Hne].
        - simplify_eq. rewrite list_lookup_insert_eq by lia. eexists. split; [done|].
          rewrite bool_decide_eq_false_2 by done.
          rewrite bool_decide_eq_true_2 by lia. done.
        - rewrite list_lookup_insert_ne by done.
          destruct (Hscored i0 g0 t0 Hg0 Ht0 Hi0) as (r0 & Hr0 & Hri0).
          exists r0. split; [done|]. case_bool_decide; [done|].
          rewrite (bool_decide_ext (i0 < Datatypes.S i)%nat (i0 < i)%nat) by lia.
          done. }
      destruct (firstIndex g tc) as [j|] eqn:Hj.
      * apply firstIndex_lt in Hj. unfold Go.assign_nat.
        rewrite bool_decide_eq_true_2 by lia. cbn [mbind option_bind].
        eexists. split; [done|]. cbn [fst snd].
        apply Hstep; [by left | by rewrite length_insert].
      * eexists. split; [done|]. cbn [fst snd]. apply Hstep; [by right | done].
  - cbn [fst snd]. split; [split|]; [done | | done].
    intros i g t Hg Ht Hi. eexists. split; [by apply Hmarked|].
    rewrite (bool_decide_eq_true_2 (i < WordLength)%nat) by done.
    rewrite (bool_decide_eq_false_2 (i < 0)%nat) by lia.
    rewrite andb_true_r. by case_bool_decide.
  - by exists result', tc'.
Qed.

Lemma CheckGuess_pooled pooledBuf :
  (WordLength ≤ length pooledBuf)%nat →
  ∃ result,
    CheckGuess guess target (Some pooledBuf)
    = Some (result, Some (replicate (length pooledBuf) 0%Z))
    ∧ scoredUpTo guess target WordLength result.
Proof using Hguess Htarget.
  intros Hbuf. unfold CheckGuess. rewrite bool_decide_eq_true_2 by done.
  cbn [mbind option_bind].
  destruct (pass1_total (copy (take WordLength pooledBuf) (utf8.runes target)))
    as (result1 & tc1 & -> & Hmarked & Htc1).
  { unfold copy. rewrite length_app, length_take, length_drop, !length_take. lia. }
  cbn [mbind option_bind].
  destruct (pass2_total result1 tc1 Hmarked Htc1) as (result & tc & -> & Hscored).
  cbn [mbind option_bind fst]. by exists result.
Qed.

End Pooled.

Lemma scoredUpTo_position guess target result i g t :
  String.length guess = WordLength →
  scoredUpTo guess target WordLength result →
  bytes guess !! i = Some g → bytes target !! i = Some t →
  ∃ r, result !! i = Some r
       ∧ Letter r = utf8.string_of_byte g
       ∧ (Status r = GuessStatusCorrect ↔ g = t)
       ∧ (Status r = GuessStatusCorrect ∨ Status r = GuessStatusPresent
          ∨ Status r = GuessStatusAbsent).
Proof.
  intros Hguess [Hlen Hscored] Hg Ht.
  assert (Hi : (i < WordLength)%nat).
  { apply lookup_lt_Some in Hg. rewrite length_bytes in Hg. lia. }
  destruct (Hscored i g t Hg Ht Hi) as (r & Hr & Hri).
  exists r. split; [done|]. case_bool_decide as Heq.
  - subst r. cbn. split_and!; [done | done | by left].
  - rewrite bool_decide_eq_true_2 in Hri by done. destruct Hri as [Hl Hs].
    split_and!; [done | | tauto].
    split; [|done]. intros Hc. destruct Hs as [Hs|Hs]; rewrite Hs in Hc; done.
Qed.

Lemma scoredUpTo_all_correct guess target result :
  String.length guess = WordLength → String.length target = WordLength →
  scoredUpTo guess target WordLength result →
  Forall (λ r, Status r = GuessStatusCorrect) result ↔ guess = target.
Proof.
  intros Hguess Htarget Hscored. rewrite Forall_lookup. split.
  - intros Hall. apply bytes_inj.
    apply list_eq_same_length with WordLength; [by rewrite length_bytes..|].
    intros i g t _ Hg Ht.
    destruct (scoredUpTo_position _ _ _ i g t Hguess Hscored Hg Ht)
      as (r & Hr & _ & Hc & _).
    apply Hc. by apply (Hall i r).
  - intros <- i r Hr.
    assert (Hi : (i < WordLength)%nat).
    { apply lookup_lt_Some in Hr. by rewrite (proj1 Hscored) in Hr. }
    destruct (bytes_lookup_lt guess i) as [g Hg]; [lia|].
    destruct (scoredUpTo_position _ _ _ i g g Hguess Hscored Hg Hg)
      as (r' & Hr' & _ & Hc & _).
    simplify_eq. tauto.
Qed.

(** X13. With a pooled buffer of at least five runes, whatever the bytes of
    a five-byte guess and a five-byte target: [CheckGuess] returns, the buffer
    goes back zeroed, and the row has five results; each has the letter of
    its position and one of the three statuses; a position is Correct
    exactly when the two bytes agree there; and the row is all Correct
    exactly when the guess is the target. *)
Theorem CheckGuess_with_pool guess target pooledBuf :
  String.length guess = WordLength →
  String.length target = WordLength →
  (WordLength ≤ length pooledBuf)%nat →
  ∃ result,
    game.CheckGuess guess target (Some pooledBuf)
    = Some (result, Some (replicate (length pooledBuf) 0%Z))
    ∧ length result = WordLength
    ∧ (∀ i g t, bytes guess !! i = Some g → bytes target !! i = Some t →
         ∃ r, result !! i = Some r
              ∧ Letter r = utf8.string_of_byte g
              ∧ (Status r = GuessStatusCorrect ↔ g = t)
              ∧ (Status r = GuessStatusCorrect ∨ Status r = GuessStatusPresent
                 ∨ Status r = GuessStatusAbsent))
    ∧ (Forall (λ r, Status r = GuessStatusCorrect) result ↔ guess = target).
Proof.
  intros Hguess Htarget Hbuf.
  destruct (CheckGuess_pooled guess target) with (pooledBuf := pooledBuf)
    as (result & Hrun & Hscored); [lia | lia | done |].
  exists result. split_and!.
  - done.
  - apply Hscored.
  - intros i g t. by apply scoredUpTo_position.
  - by apply scoredUpTo_all_correct.
Qed.

Lemma CheckGuess_with_pool_witness :
  ∃ result,
    game.CheckGuess wideGuess accentedWord (Some [7; 7; 7; 7; 7; 7]%Z)
    = Some (result, Some [0; 0; 0; 0; 0; 0]%Z)
    ∧ length result = WordLength
    ∧ (Forall (λ r, Status r = GuessStatusCorrect) result ↔ wideGuess = accentedWord).
Proof.
  destruct (CheckGuess_with_pool wideGuess accentedWord [7; 7; 7; 7; 7; 7]%Z)
    as (result & Hrun & Hlen & _ & Hall).
  - reflexivity.
  - reflexivity.
  - cbn. unfold WordLength. lia.
  - by exists result.
Defined.

(** ** The handlers and the consistency of the games *)

Section Serving.
Import game session handlers.
Variable ctxDone : bool.
Variable randInt : nat → RandOutcome.
Hypothesis randInt_bound : randInRange randInt.

Lemma consistent_touch g now : consistent g → consistent (set_LastAccessTime g now).
Proof. done. Qed.

Lemma consistent_new word now :
  String.length word = WordLength →
  consistent {| Guesses := emptyBoard; CurrentRow := 0; GameOver := false;
                Won := false; TargetWord := ""; SessionWord := word;
                GuessHistory := []; LastAccessTime := now |}.
Proof.
  intros Hword. unfold consistent, wellFormed. cbn. split_and!; try done.
  - unfold MaxGuesses. lia.
  - constructor.
Qed.

Lemma consistent_in_progress g :
  consistent g → GameOver g = false →
  Won g = false ∧ (0 ≤ CurrentRow g < MaxGuesses)%Z ∧ TargetWord g = ""
  ∧ String.eqb (SessionWord g) "" = false.
Proof.
  intros ([Hlen Hrow] & Hword & Hwon & Hover & Hhist & Hdup & Htarget) Ho.
  rewrite Ho in Htarget. split_and!.
  - destruct (Won g); [|done]. destruct Hwon as [? _]; [done | congruence].
  - lia.
  - assert (CurrentRow g ≠ MaxGuesses); [|lia].
    intros Heq. assert (GameOver g = true) by (apply Hover; by right). congruence.
  - done.
  - destruct (SessionWord g); [done | done].
Qed.

Lemma sameSetup_refl app : sameSetup app app.
Proof. unfold sameSetup. by split_and!. Qed.

Lemma sameSetup_sessions app m : sameSetup app (set_GameSessions app m).
Proof. unfold sameSetup. by split_and!. Qed.

Lemma sameSetup_trans app1 app2 app3 :
  sameSetup app1 app2 → sameSetup app2 app3 → sameSetup app1 app3.
Proof. unfold sameSetup. intros H1 H2. destruct_and!. split_and!; congruence. Qed.

Lemma served_insert app sessionID g :
  served app → consistent g →
  served (set_GameSessions app (<[sessionID := g]> (GameSessions app))).
Proof.
  intros (Hne & Hfive & Hpool & Hgames) Hg. split_and!; try done.
  cbn. by apply map_Forall_insert_2.
Qed.

Lemma served_delete app sessionID :
  served app → served (set_GameSessions app (delete sessionID (GameSessions app))).
Proof.
  intros (Hne & Hfive & Hpool & Hgames). split_and!; try done.
  cbn. by apply map_Forall_delete.
Qed.

Lemma CreateNewGame_served app now sessionID :
  served app →
  ∃ g, CreateNewGame ctxDone randInt app now sessionID
       = Some (set_GameSessions app (<[sessionID := g]> (GameSessions app)), g)
       ∧ consistent g ∧ GameOver g = false ∧ GuessHistory g = []
       ∧ (∃ e, e ∈ WordList app ∧ SessionWord g = Word e).
Proof using randInt_bound.
  intros (Hne & Hfive & Hpool & Hgames). unfold CreateNewGame.
  destruct (GetRandomWordEntry_total ctxDone randInt randInt_bound app Hne)
    as (e & -> & Hin).
  cbn. eexists. split; [done|]. split_and!; [|done|done|by exists e].
  apply consistent_new. by apply (proj1 (Forall_forall _ _) Hfive).
Qed.

Lemma CreateNewGameWithCompletedWords_served app now sessionID completedWords :
  served app →
  ∃ g needsReset,
    CreateNewGameWithCompletedWords ctxDone randInt app now sessionID completedWords
    = Some (set_GameSessions app (<[sessionID := g]> (GameSessions app)), g, needsReset)
    ∧ consistent g ∧ GameOver g = false ∧ GuessHistory g = []
    ∧ (∃ e, e ∈ WordList app ∧ SessionWord g = Word e)
    ∧ (needsReset = false → completedWords ≠ [] → SessionWord g ∉ completedWords)
    ∧ (needsReset = true ↔
       completedWords ≠ [] ∧ ∀ e, e ∈ WordList app → Word e ∈ completedWords).
Proof using randInt_bound.
  intros (Hne & Hfive & Hpool & Hgames). unfold CreateNewGameWithCompletedWords.
  assert (Hshape : ∀ e b,
            GetRandomWordEntryExcluding ctxDone randInt app completedWords = Some (e, b) →
            e ∈ WordList app →
            (b = false → completedWords ≠ [] → Word e ∉ completedWords) →
            (b = true ↔ completedWords ≠ []
                        ∧ ∀ e, e ∈ WordList app → Word e ∈ completedWords) →
            ∃ g needsReset,
              ('(selectedEntry, needsReset) ←
                 GetRandomWordEntryExcluding ctxDone randInt app completedWords;
               Some (set_GameSessions app
                       (<[sessionID := {| Guesses := emptyBoard; CurrentRow := 0;
                                          GameOver := false; Won := false;
                                          TargetWord := "";
                                          SessionWord := Word selectedEntry;
                                          GuessHistory := [];
                                          LastAccessTime := now |}]>
                          (GameSessions app)),
                     {| Guesses := emptyBoard; CurrentRow := 0; GameOver := false;
                        Won := false; TargetWord := "";
                        SessionWord := Word selectedEntry; GuessHistory := [];
                        LastAccessTime := now |}, needsReset))
              = Some (set_GameSessions app (<[sessionID := g]> (GameSessions app)),
                      g, needsReset)
              ∧ consistent g ∧ GameOver g = false ∧ GuessHistory g = []
              ∧ (∃ e, e ∈ WordList app ∧ SessionWord g = Word e)
              ∧ (needsReset = false → completedWords ≠ [] →
                 SessionWord g ∉ completedWords)
              ∧ (needsReset = true ↔
                 completedWords ≠ []
                 ∧ ∀ e, e ∈ WordList app → Word e ∈ completedWords)).
  { intros e b -> Hin Hout Hreset. cbn. eexists _, b. split; [done|].
    split_and!; [|done|done|by exists e|done|done].
    apply consistent_new. by apply (proj1 (Forall_forall _ _) Hfive). }
  destruct (decide (Forall (λ e, Word e ∈ completedWords) (WordList app)))
    as [Hall|Hex].
  - assert (Hall' : ∀ e, e ∈ WordList app → Word e ∈ completedWords)
      by (intros e He; by apply (proj1 (Forall_forall _ _) Hall)).
    destruct (GetRandomWordEntryExcluding_exhausted ctxDone randInt randInt_bound
                app completedWords Hne Hall') as (e & He & Hin).
    apply (Hshape e true He Hin); [done|]. split; [|done]. intros _. split; [|done].
    intros ->. destruct (WordList app) as [|e0 l]; [done|].
    specialize (Hall' e0). rewrite elem_of_nil in Hall'. apply Hall'. left.
  - apply not_Forall_Exists in Hex; [|apply _].
    apply Exists_exists in Hex as (e0 & Hin0 & Hout0).
    destruct (GetRandomWordEntryExcluding_available ctxDone randInt randInt_bound
                app completedWords) as (e & He & Hin & Hout); [by eauto|].
    apply (Hshape e false He Hin); [done|]. split; [done|].
    intros [_ Hall]. destruct Hout0. by apply Hall.
Qed.

Lemma GetGameState_served app now sessionID :
  served app →
  ∃ g0,
    GetGameState ctxDone randInt app now sessionID
    = Some (set_GameSessions app (<[sessionID := g0]> (GameSessions app)), g0)
    ∧ consistent g0
    ∧ match GameSessions app !! sessionID with
      | Some g => g0 = set_LastAccessTime g now
      | None => GameOver g0 = false ∧ GuessHistory g0 = []
      end.
Proof using randInt_bound.
  intros Hserved. unfold GetGameState.
  destruct (GameSessions app !! sessionID) as [g|] eqn:Hg.
  - eexists. split; [done|]. split; [|done]. apply consistent_touch.
    destruct Hserved as (_ & _ & _ & Hgames). by apply (Hgames sessionID).
  - destruct (CreateNewGame_served app now sessionID Hserved)
      as (g0 & -> & Hc & Ho & Hh & _).
    by exists g0.
Qed.

(** An accepted guess that is new in a game in progress: what [ProcessGuess]
    does with it. *)
Lemma ProcessGuess_played app now sessionID g guess :
  RuneBufPool app = true → consistent g → GameOver g = false →
  guess ∉ GuessHistory g → String.length guess = WordLength →
  ∃ row g',
    ProcessGuess ctxDone randInt app now sessionID g guess
    = Some (set_GameSessions app (<[sessionID := g']> (GameSessions app)), "")
    ∧ consistent g'
    ∧ scoredUpTo guess (SessionWord g) WordLength row
    ∧ Guesses g' = <[Z.to_nat (CurrentRow g) := row]> (Guesses g)
    ∧ GuessHistory g' = (GuessHistory g ++ [guess])%list
    ∧ SessionWord g' = SessionWord g
    ∧ LastAccessTime g' = now
    ∧ Won g' = IsValidWord app guess && String.eqb guess (SessionWord g)
    ∧ CurrentRow g' = (if Won g' then CurrentRow g else CurrentRow g + 1)%Z
    ∧ GameOver g' = (Won g' || bool_decide (CurrentRow g' = MaxGuesses)).
Proof.
  intros Hpool Hg Ho Hnew Hlen.
  destruct (consistent_in_progress g Hg Ho) as (Hw & Hrow & Ht & Hword).
  pose proof Hg as ([Hboard _] & Hwordlen & _ & _ & Hhist & Hdup & _).
  unfold ProcessGuess, Go.len. rewrite Hlen.
  rewrite bool_decide_eq_false_2 by (intros Hn; by apply Hn).
  rewrite bool_decide_eq_false_2 by lia.
  unfold GetTargetWord. rewrite Hword. cbn [mbind option_bind].
  unfold poolGet. rewrite Hpool.
  destruct (CheckGuess_pooled guess (SessionWord g)) with
    (pooledBuf := replicate WordLength 0%Z) as (row & -> & Hscored);
    [lia | lia | by rewrite length_replicate |].
  cbn [mbind option_bind].
  destruct (UpdateGameState_open now g guess (SessionWord g) row
              (negb (IsValidWord app guess)))
    as (g1 & -> & HG & HH & HL & HS & HR & HW & HO & HT);
    [lia | rewrite Hboard; unfold MaxGuesses in *; lia |].
  cbn [mbind option_bind]. rewrite negb_involutive in HR, HW, HO.
  set (win := IsValidWord app guess && String.eqb guess (SessionWord g)) in *.
  exists row, (set_LastAccessTime g1 now). split; [done|].
  assert (HO' : GameOver g1 = (Won g1 || bool_decide (CurrentRow g1 = MaxGuesses))).
  { rewrite HO, HW, HR, Ho, Hw. destruct win; [done|].
    cbn. repeat case_bool_decide; try done; lia. }
  split_and!; try done.
  - apply consistent_touch. rewrite Hw in Hhist.
    assert (Hnodup : NoDup (GuessHistory g ++ [guess])).
    { apply NoDup_app. split_and!; [done | | apply NoDup_singleton].
      intros x Hx Hx'. apply list_elem_of_singleton in Hx'. by subst. }
    unfold consistent, wellFormed.
    rewrite HG, length_insert, HS, HH, length_app, HT, HO', HW, HR, Hw, Ht.
    cbn [length]. destruct win; cbn [orb].
    + split_and!; try done; try lia.
    + split_and!; try done; try lia.
      rewrite bool_decide_eq_true. split; [by right | by intros [|]].
  - cbn. rewrite HW, Hw. by destruct win.
  - cbn. rewrite HR, HW, Hw. by destruct win.
Qed.

End Serving.

Lemma demoApp_served : served demoApp.
Proof.
  split_and!; [done | repeat constructor | done | apply map_Forall_empty].
Qed.

Lemma playedGame_consistent : consistent playedGame.
Proof.
  unfold consistent, wellFormed. cbn.
  split_and!; try done; try (unfold MaxGuesses; lia).
  apply NoDup_singleton.
Qed.

Lemma playedApp_served : served playedApp.
Proof.
  split_and!; [done | repeat constructor | done |].
  apply map_Forall_singleton. apply playedGame_consistent.
Qed.

Lemma wonApp_served : served wonApp.
Proof.
  split_and!; [done | repeat constructor | done |].
  apply map_Forall_singleton. unfold consistent, wellFormed. cbn.
  split_and!; try done; try (unfold MaxGuesses; lia).
  apply NoDup_singleton.
Qed.

(** X14. On an application with a non-empty catalog of five-byte words, a
    rune pool and consistent games, and with the random source answering
    below its bound, the guess handler returns, whatever the posted guess;
    the games are consistent afterwards; nothing but the sessions is changed
    and no session but the request's; the request's session is stored; and
    the error code is never [no_more_guesses]. *)
Theorem GuessHandler_keeps_games_consistent
    ctxDone randInt ToUpper TrimSpace app now sessionID rawGuess :
  randInRange randInt → served app →
  ∃ app' code,
    handlers.GuessHandler ctxDone randInt ToUpper TrimSpace app now sessionID rawGuess
    = Some (app', code)
    ∧ served app'
    ∧ sameSetup app app'
    ∧ (∀ other, other ≠ sessionID →
         GameSessions app' !! other = GameSessions app !! other)
    ∧ is_Some (GameSessions app' !! sessionID)
    ∧ code ≠ ErrorCodeNoMoreGuesses.
Proof.
  intros Hrand Hserved.
  destruct (GetGameState_served ctxDone randInt Hrand app now sessionID Hserved)
    as (g0 & Hget & Hg0 & _).
  set (app0 := set_GameSessions app (<[sessionID := g0]> (GameSessions app))) in *.
  assert (Hserved0 : served app0) by (by apply served_insert).
  assert (Hframe0 : ∀ other, other ≠ sessionID →
            GameSessions app0 !! other = GameSessions app !! other).
  { intros other Hne. cbn. by rewrite lookup_insert_ne. }
  assert (Hstored0 : is_Some (GameSessions app0 !! sessionID)).
  { cbn. rewrite lookup_insert_eq. by eexists. }
  destruct (GuessHandler_checks ctxDone randInt ToUpper TrimSpace app now sessionID
              rawGuess app0 g0 Hget) as (Hover & Hacc & Hdup & Hproc).
  set (guess := handlers.NormalizeGuess ToUpper TrimSpace rawGuess) in *.
  cbv zeta in Hover, Hacc, Hdup, Hproc.
  assert (Hrejected : ∀ code,
            code ≠ ErrorCodeNoMoreGuesses →
            handlers.GuessHandler ctxDone randInt ToUpper TrimSpace app now sessionID
              rawGuess = Some (app0, code) →
            ∃ app' code,
              handlers.GuessHandler ctxDone randInt ToUpper TrimSpace app now sessionID
                rawGuess = Some (app', code)
              ∧ served app' ∧ sameSetup app app'
              ∧ (∀ other, other ≠ sessionID →
                   GameSessions app' !! other = GameSessions app !! other)
              ∧ is_Some (GameSessions app' !! sessionID)
              ∧ code ≠ ErrorCodeNoMoreGuesses).
  { intros code Hcode Hrun. exists app0, code. by split_and!. }
  destruct (GameOver g0) eqn:Ho.
  { apply (Hrejected ErrorCodeGameOver); [done | by apply Hover]. }
  destruct (decide (guess ∈ AcceptedWordSet app0)) as [Ha|Ha].
  2:{ apply (Hrejected ErrorCodeWordNotAccepted); [done | by apply Hacc]. }
  destruct (decide (guess ∈ GuessHistory g0)) as [Hd|Hd].
  { apply (Hrejected ErrorCodeDuplicateGuess); [done | by apply Hdup]. }
  rewrite Hproc by done.
  destruct (decide (String.length guess = WordLength)) as [Hl|Hl].
  - destruct (ProcessGuess_played ctxDone randInt app0 now sessionID g0 guess)
      as (row & g' & -> & Hg' & _); [apply Hserved0 | done..|].
    eexists _, _. split; [done|]. split_and!.
    + by apply served_insert.
    + done.
    + intros other Hne. cbn. by rewrite !lookup_insert_ne.
    + cbn. rewrite lookup_insert_eq. by eexists.
    + done.
  - destruct (ProcessGuess_checks ctxDone randInt app0 now sessionID g0 guess)
      as (Hlen & _).
    rewrite <-Hproc by done. apply (Hrejected ErrorCodeInvalidLength); [done|].
    rewrite Hproc by done. apply Hlen. unfold Go.len. lia.
Qed.

Lemma GuessHandler_keeps_games_consistent_witness :
  ∃ app' code,
    handlers.GuessHandler false randZero id id playedApp 5 "s" "TABLE"
    = Some (app', code)
    ∧ served app'
    ∧ sameSetup playedApp app'
    ∧ (∀ other, other ≠ "s" →
         GameSessions app' !! other = GameSessions playedApp !! other)
    ∧ is_Some (GameSessions app' !! "s")
    ∧ code ≠ ErrorCodeNoMoreGuesses.
Proof.
  apply (GuessHandler_keeps_games_consistent false randZero id id playedApp 5 "s"
           "TABLE").
  - apply randZero_inRange.
  - apply playedApp_served.
Defined.

(** X15. An accepted guess of five bytes that is new in a stored, consistent
    game in progress is played: the handler renders no error; the row of the
    guess is written at the current row and the guess is appended to the
    history; the row is all Correct exactly when the guess is the session
    word; the game is won exactly when the guess is the session word and is
    among the target words; the row index moves on unless the game is won;
    the game is over exactly when it is won or the last row was used; and
    the target word is revealed exactly then. *)
Theorem accepted_guess_is_played
    ctxDone randInt ToUpper TrimSpace app now sessionID rawGuess g :
  served app →
  GameSessions app !! sessionID = Some g →
  GameOver g = false →
  let guess := handlers.NormalizeGuess ToUpper TrimSpace rawGuess in
  guess ∈ AcceptedWordSet app →
  guess ∉ GuessHistory g →
  String.length guess = WordLength →
  ∃ app' g' row,
    handlers.GuessHandler ctxDone randInt ToUpper TrimSpace app now sessionID rawGuess
    = Some (app', "")
    ∧ GameSessions app' !! sessionID = Some g'
    ∧ Guesses g' = <[Z.to_nat (CurrentRow g) := row]> (Guesses g)
    ∧ Guesses g' !! Z.to_nat (CurrentRow g) = Some row
    ∧ GuessHistory g' = (GuessHistory g ++ [guess])%list
    ∧ (Forall (λ r, Status r = GuessStatusCorrect) row ↔ guess = SessionWord g)
    ∧ (Won g' = true ↔ guess = SessionWord g ∧ guess ∈ WordSet app)
    ∧ CurrentRow g' = (if Won g' then CurrentRow g else CurrentRow g + 1)%Z
    ∧ (GameOver g' = true ↔ Won g' = true ∨ CurrentRow g = MaxGuesses - 1)%Z
    ∧ TargetWord g' = (if GameOver g' then SessionWord g else "").
Proof.
  intros Hserved Hstored Ho guess Ha Hd Hl.
  pose proof Hserved as (_ & _ & Hpool & Hgames).
  pose proof (Hgames sessionID g Hstored) as Hg. cbn in Hg.
  pose proof (GetGameState_existing ctxDone randInt app now sessionID g Hstored)
    as Hget.
  destruct (GuessHandler_checks ctxDone randInt ToUpper TrimSpace app now sessionID
              rawGuess _ _ Hget) as (_ & _ & _ & Hproc).
  cbv zeta in Hproc. fold guess in Hproc. rewrite Hproc by done.
  destruct (ProcessGuess_played ctxDone randInt
              (set_GameSessions app
                 (<[sessionID := set_LastAccessTime g now]> (GameSessions app)))
              now sessionID (set_LastAccessTime g now) guess)
    as (row & g' & -> & Hg' & Hscored & HG & HH & HS & _ & HW & HR & HO);
    [exact Hpool | by apply consistent_touch | exact Ho | exact Hd | exact Hl |].
  cbn [SessionWord set_LastAccessTime Guesses GuessHistory CurrentRow] in *.
  destruct (consistent_in_progress g) as (_ & Hrow' & _); [done | done |].
  destruct Hg as ([Hboard Hrow] & Hword & _).
  eexists _, g', row. split; [done|]. split_and!.
  - cbn. by rewrite lookup_insert_eq.
  - done.
  - rewrite HG. apply list_lookup_insert_eq. rewrite Hboard. unfold MaxGuesses in *. lia.
  - done.
  - by apply scoredUpTo_all_correct.
  - rewrite HW, andb_true_iff, String.eqb_eq. unfold game.IsValidWord.
    rewrite bool_decide_eq_true. cbn. tauto.
  - done.
  - rewrite HO, orb_true_iff, bool_decide_eq_true, HR.
    destruct (Won g'); [tauto|]. split; intros [|]; try done; right; lia.
  - destruct Hg' as (_ & _ & _ & _ & _ & _ & HT). by rewrite HT, HS.
Qed.

Lemma accepted_guess_is_played_witness :
  ∃ app' g' row,
    handlers.GuessHandler false randZero id id playedApp 5 "s" "APPLE"
    = Some (app', "")
    ∧ GameSessions app' !! "s" = Some g'
    ∧ Guesses g' !! 1%nat = Some row
    ∧ GuessHistory g' = ["WRONG"; "APPLE"]
    ∧ (Won g' = true ↔ "APPLE" = "APPLE" ∧ "APPLE" ∈ WordSet playedApp).
Proof.
  destruct (accepted_guess_is_played false randZero id id playedApp 5 "s" "APPLE"
              playedGame)
    as (app' & g' & row & Hrun & Hstored & _ & Hrow & Hhist & _ & Hwon & _).
  - apply playedApp_served.
  - reflexivity.
  - reflexivity.
  - apply (bool_decide_unpack _). by vm_compute.
  - apply (bool_decide_unpack _). by vm_compute.
  - reflexivity.
  - by exists app', g', row.
Defined.

(** X16. On such an application the retry handler returns and leaves the
    games consistent; nothing but the request's session is changed; that
    session holds a game in progress with an empty history on its first row
    and no target word revealed; and the word of a session that was there is
    kept, the game being over or not. *)
Theorem RetryWordHandler_restarts_the_word ctxDone randInt app now sessionID :
  randInRange randInt → served app →
  ∃ app' g',
    handlers.RetryWordHandler ctxDone randInt app now sessionID = Some app'
    ∧ served app'
    ∧ sameSetup app app'
    ∧ (∀ other, other ≠ sessionID →
         GameSessions app' !! other = GameSessions app !! other)
    ∧ GameSessions app' !! sessionID = Some g'
    ∧ Guesses g' = game.emptyBoard ∧ CurrentRow g' = 0%Z
    ∧ GameOver g' = false ∧ Won g' = false
    ∧ TargetWord g' = "" ∧ GuessHistory g' = []
    ∧ (∀ g, GameSessions app !! sessionID = Some g → SessionWord g' = SessionWord g).
Proof.
  intros Hrand Hserved. unfold handlers.RetryWordHandler.
  destruct (GameSessions app !! sessionID) as [g|] eqn:Hg.
  - pose proof Hserved as (_ & _ & _ & Hgames).
    pose proof (Hgames sessionID g Hg) as (_ & Hword & _). cbn in Hword.
    eexists _, _. split; [done|]. split_and!.
    + apply served_insert; [done|]. by apply consistent_new.
    + done.
    + intros other Hne. cbn. by rewrite lookup_insert_ne.
    + cbn. by rewrite lookup_insert_eq.
    + done.
    + done.
    + done.
    + done.
    + done.
    + done.
    + by intros g0 [= <-].
  - unfold game.CreateNewGame.
    destruct (GetRandomWordEntry_total ctxDone randInt Hrand app) as (e & -> & Hin);
      [apply Hserved|].
    cbn. eexists _, _. split; [done|]. split_and!.
    + apply served_insert; [done|]. apply consistent_new.
      destruct Hserved as (_ & Hfive & _). by apply (proj1 (Forall_forall _ _) Hfive).
    + done.
    + intros other Hne. cbn. by rewrite lookup_insert_ne.
    + cbn. by rewrite lookup_insert_eq.
    + done.
    + done.
    + done.
    + done.
    + done.
    + done.
    + done.
Qed.

Lemma RetryWordHandler_restarts_the_word_witness :
  ∃ app' g',
    handlers.RetryWordHandler false randZero wonApp 9 "s" = Some app'
    ∧ GameSessions app' !! "s" = Some g'
    ∧ GameOver g' = false ∧ GuessHistory g' = [] ∧ SessionWord g' = "APPLE".
Proof.
  destruct (RetryWordHandler_restarts_the_word false randZero wonApp 9 "s")
    as (app' & g' & Hrun & _ & _ & _ & Hstored & _ & _ & Ho & _ & _ & Hh & Hword).
  - apply randZero_inRange.
  - apply wonApp_served.
  - exists app', g'. split_and!; try done. by apply (Hword wonGame).
Defined.

(** What [NewGameHandler] does on such an application.  [completedWords] is
    the list it passes on: the words of the form value that are target
    words, for a POST whose value parses, and no word otherwise. *)
Lemma NewGameHandler_outcome
    ctxDone randInt (unmarshal : string → option (list string)) (app : App) now
    sessionID (isPost : bool) (completedWordsStr : string) reset newSessionID isHTMX :
  randInRange randInt → served app →
  let completedWords :=
    if isPost then
      if negb (String.eqb completedWordsStr "") then
        match unmarshal completedWordsStr with
        | None => []
        | Some completedWords => filter (λ word, word ∈ WordSet app) completedWords
        end
      else []
    else [] in
  ∃ app' trigger g',
    handlers.NewGameHandler ctxDone randInt unmarshal app now sessionID isPost
      completedWordsStr reset newSessionID isHTMX
    = Some (app', if reset then newSessionID else sessionID, trigger)
    ∧ served app'
    ∧ sameSetup app app'
    ∧ GameSessions app' !! (if reset then newSessionID else sessionID) = Some g'
    ∧ Guesses g' = game.emptyBoard ∧ CurrentRow g' = 0%Z
    ∧ GameOver g' = false ∧ Won g' = false
    ∧ TargetWord g' = "" ∧ GuessHistory g' = []
    ∧ (∃ e, e ∈ WordList app ∧ SessionWord g' = Word e)
    ∧ (reset = true → newSessionID ≠ sessionID →
       GameSessions app' !! sessionID = None)
    ∧ (∀ other, other ≠ sessionID → other ≠ newSessionID →
         GameSessions app' !! other = GameSessions app !! other)
    ∧ (trigger = false → SessionWord g' ∉ completedWords)
    ∧ (trigger = true ↔
       completedWords ≠ [] ∧ ∀ e, e ∈ WordList app → Word e ∈ completedWords).
Proof.
  intros Hrand Hserved. unfold handlers.NewGameHandler.
  set (completedWords :=
         if isPost then
           if negb (String.eqb completedWordsStr "") then
             match unmarshal completedWordsStr with
             | None => []
             | Some completedWords => filter (λ word, word ∈ WordSet app) completedWords
             end
           else []
         else []).
  cbv zeta.
  set (app1 := set_GameSessions app (delete sessionID (GameSessions app))).
  assert (Hserved1 : served app1) by (by apply served_delete).
  assert (Hcreated : ∀ sid, ∃ g needsReset,
            (if bool_decide (0 < length completedWords)%nat then
               '(app, _, needsReset) ←
                 game.CreateNewGameWithCompletedWords ctxDone randInt app1 now sid
                   completedWords;
               Some (app, sid, needsReset)
             else
               '(app, _) ← game.CreateNewGame ctxDone randInt app1 now sid;
               Some (app, sid, false))
            = Some (set_GameSessions app1 (<[sid := g]> (GameSessions app1)), sid,
                    needsReset)
            ∧ consistent g ∧ Guesses g = game.emptyBoard ∧ CurrentRow g = 0%Z
            ∧ GameOver g = false ∧ Won g = false ∧ TargetWord g = ""
            ∧ GuessHistory g = []
            ∧ (∃ e, e ∈ WordList app ∧ SessionWord g = Word e)
            ∧ (needsReset = false → SessionWord g ∉ completedWords)
            ∧ (needsReset = true ↔
               completedWords ≠ []
               ∧ ∀ e, e ∈ WordList app → Word e ∈ completedWords)).
  { intros sid. case_bool_decide as Hsome.
    - assert (Hne : completedWords ≠ []) by (intros Hnil; rewrite Hnil in Hsome; cbn in Hsome; lia).
      destruct (CreateNewGameWithCompletedWords_served ctxDone randInt Hrand app1 now
                  sid completedWords Hserved1)
        as (g & needsReset & Hrun & Hg & Ho & Hh & He & Hout & Hreset).
      unfold game.CreateNewGameWithCompletedWords in *.
      destruct (game.GetRandomWordEntryExcluding ctxDone randInt app1 completedWords)
        as [[e b]|]; [|done].
      cbn in Hrun |- *. injection Hrun as Hg' Hb. subst g needsReset.
      eexists _, b. split; [done|]. split_and!; try done. auto.
    - assert (Hnil : completedWords = []).
      { destruct completedWords; [done|]. cbn in Hsome. lia. }
      destruct (CreateNewGame_served ctxDone randInt Hrand app1 now sid Hserved1)
        as (g & Hrun & Hg & Ho & Hh & He).
      unfold game.CreateNewGame in *.
      destruct (game.GetRandomWordEntry ctxDone randInt app1) as [e|]; [|done].
      cbn in Hrun |- *. injection Hrun as Hg'. subst g.
      eexists _, false. split; [done|]. split_and!; try done.
      + intros _. rewrite Hnil. apply not_elem_of_nil.
      + split; [done|]. by intros [? _]. }
  set (sid := if reset then newSessionID else sessionID).
  destruct (Hcreated sid)
    as (g & needsReset & Hrun & Hg & HG & HR & HO & HW & HT & HH & He & Hout & Hreset).
  assert (Hbranch :
            (if reset then
               if bool_decide (0 < length completedWords)%nat then
                 '(app, _, needsReset) ←
                   game.CreateNewGameWithCompletedWords ctxDone randInt app1 now
                     newSessionID completedWords;
                 Some (app, newSessionID, needsReset)
               else
                 '(app, _) ← game.CreateNewGame ctxDone randInt app1 now newSessionID;
                 Some (app, newSessionID, false)
             else
               if bool_decide (0 < length completedWords)%nat then
                 '(app, _, needsReset) ←
                   game.CreateNewGameWithCompletedWords ctxDone randInt app1 now
                     sessionID completedWords;
                 Some (app, sessionID, needsReset)
               else
                 '(app, _) ← game.CreateNewGame ctxDone randInt app1 now sessionID;
                 Some (app, sessionID, false))
            = Some (set_GameSessions app1 (<[sid := g]> (GameSessions app1)), sid,
                    needsReset)).
  { unfold sid in *. by destruct reset. }
  rewrite Hbranch. cbn [mbind option_bind].
  set (app2 := set_GameSessions app1 (<[sid := g]> (GameSessions app1))).
  assert (Hserved2 : served app2) by (by apply served_insert).
  assert (Hgone : reset = true → newSessionID ≠ sessionID →
                  (<[sid := g]> (delete sessionID (GameSessions app)) : gmap _ _)
                    !! sessionID = None).
  { intros -> Hne. unfold sid. rewrite lookup_insert_ne by done.
    apply lookup_delete_eq. }
  assert (Hothers : ∀ other, other ≠ sessionID → other ≠ newSessionID →
                    (<[sid := g]> (delete sessionID (GameSessions app)) : gmap _ _)
                      !! other = GameSessions app !! other).
  { intros other Hne1 Hne2. rewrite lookup_insert_ne by (unfold sid; by destruct reset).
    by apply lookup_delete_ne. }
  destruct isHTMX.
  - assert (Hstored : GameSessions app2 !! sid = Some g)
      by (cbn; by rewrite lookup_insert_eq).
    rewrite (GetGameState_existing ctxDone randInt app2 now sid g Hstored).
    cbn [mbind option_bind].
    exists (set_GameSessions app2
              (<[sid := set_LastAccessTime g now]> (GameSessions app2))),
      needsReset, (set_LastAccessTime g now).
    split; [done|]. split_and!; try done.
    + apply served_insert; [done|]. by apply consistent_touch.
    + cbn. by rewrite lookup_insert_eq.
    + intros Hreset' Hne. cbn.
      rewrite lookup_insert_ne by (unfold sid; by rewrite Hreset').
      by apply Hgone.
    + intros other Hne1 Hne2. cbn.
      rewrite lookup_insert_ne by (unfold sid; by destruct reset).
      by apply Hothers.
  - exists app2, needsReset, g. split; [done|]. split_and!; try done.
    cbn. by rewrite lookup_insert_eq.
Qed.

(** X17. On such an application the new-game handler returns, whatever the
    method, the form value and the flags, and leaves the games consistent;
    the client is left with the fresh session id when a reset was asked and
    with its own otherwise; that session holds a game in progress on its
    first row, with an empty history, whose word is a word of the catalog;
    with a reset the session of the request is gone; and no other session is
    changed. *)
Theorem NewGameHandler_starts_a_game
    ctxDone randInt unmarshal app now sessionID isPost completedWordsStr reset
    newSessionID isHTMX :
  randInRange randInt → served app →
  ∃ app' trigger g',
    handlers.NewGameHandler ctxDone randInt unmarshal app now sessionID isPost
      completedWordsStr reset newSessionID isHTMX
    = Some (app', if reset then newSessionID else sessionID, trigger)
    ∧ served app'
    ∧ sameSetup app app'
    ∧ GameSessions app' !! (if reset then newSessionID else sessionID) = Some g'
    ∧ Guesses g' = game.emptyBoard ∧ CurrentRow g' = 0%Z
    ∧ GameOver g' = false ∧ Won g' = false
    ∧ TargetWord g' = "" ∧ GuessHistory g' = []
    ∧ (∃ e, e ∈ WordList app ∧ SessionWord g' = Word e)
    ∧ (reset = true → newSessionID ≠ sessionID →
       GameSessions app' !! sessionID = None)
    ∧ (∀ other, other ≠ sessionID → other ≠ newSessionID →
         GameSessions app' !! other = GameSessions app !! other).
Proof.
  intros Hrand Hserved.
  destruct (NewGameHandler_outcome ctxDone randInt unmarshal app now sessionID isPost
              completedWordsStr reset newSessionID isHTMX Hrand Hserved)
    as (app' & trigger & g' & H).
  exists app', trigger, g'. destruct_and!. by split_and!.
Qed.

Lemma NewGameHandler_starts_a_game_witness :
  ∃ app' trigger g',
    handlers.NewGameHandler false randZero (λ _, Some ["APPLE"]) wonApp 9 "s" true
      "[APPLE]" true "fresh" true
    = Some (app', "fresh", trigger)
    ∧ served app'
    ∧ GameSessions app' !! "fresh" = Some g'
    ∧ GuessHistory g' = []
    ∧ GameSessions app' !! "s" = None.
Proof.
  destruct (NewGameHandler_starts_a_game false randZero (λ _, Some ["APPLE"]) wonApp
              9 "s" true "[APPLE]" true "fresh" true)
    as (app' & trigger & g' & Hrun & Hserved & _ & Hstored & _ & _ & _ & _ & _ & Hh
        & _ & Hgone & _).
  - apply randZero_inRange.
  - apply wonApp_served.
  - exists app', trigger, g'. split_and!; try done. by apply Hgone.
Defined.

(** X18. For a POST whose [completedWords] form value parses, on such an
    application: when the [clear-completed-words] trigger is not sent, the
    word of the new game is none of the completed words that are target
    words; and the trigger is sent exactly when some completed word is a
    target word and every word of the catalog is a completed word and a
    target word. *)
Theorem NewGameHandler_avoids_completed_words
    ctxDone randInt unmarshal app now sessionID completedWordsStr completedWords
    reset newSessionID isHTMX :
  randInRange randInt → served app →
  completedWordsStr ≠ "" →
  unmarshal completedWordsStr = Some completedWords →
  ∃ app' trigger g',
    handlers.NewGameHandler ctxDone randInt unmarshal app now sessionID true
      completedWordsStr reset newSessionID isHTMX
    = Some (app', if reset then newSessionID else sessionID, trigger)
    ∧ GameSessions app' !! (if reset then newSessionID else sessionID) = Some g'
    ∧ (trigger = false →
       ∀ word, word ∈ completedWords → word ∈ WordSet app → SessionWord g' ≠ word)
    ∧ (trigger = true ↔
       (∃ word, word ∈ completedWords ∧ word ∈ WordSet app)
       ∧ ∀ e, e ∈ WordList app → Word e ∈ completedWords ∧ Word e ∈ WordSet app).
Proof.
  intros Hrand Hserved Hstr Hparsed.
  destruct (NewGameHandler_outcome ctxDone randInt unmarshal app now sessionID true
              completedWordsStr reset newSessionID isHTMX Hrand Hserved)
    as (app' & trigger & g' & Hrun & _ & _ & Hstored & _ & _ & _ & _ & _ & _ & _ & _
        & _ & Hout & Hreset).
  rewrite Hparsed in Hout, Hreset.
  assert (Hnonempty : negb (String.eqb completedWordsStr "") = true).
  { apply negb_true_iff. by apply String.eqb_neq. }
  rewrite Hnonempty in Hout, Hreset.
  exists app', trigger, g'. split_and!; [done | done | |].
  - intros Htrigger word Hin Hvalid <-. apply (Hout Htrigger).
    by apply list_elem_of_filter.
  - rewrite Hreset. split.
    + intros [Hne Hall]. split.
      * destruct (filter _ completedWords) as [|word l] eqn:Hf; [done|].
        assert (Hword : word ∈ filter (λ word, word ∈ WordSet app) completedWords)
          by (rewrite Hf; left).
        apply list_elem_of_filter in Hword as [? ?]. by exists word.
      * intros e He. specialize (Hall e He).
        apply list_elem_of_filter in Hall as [? ?]. done.
    + intros [(word & Hin & Hvalid) Hall]. split.
      * intros Hnil.
        assert (Hword : word ∈ filter (λ word, word ∈ WordSet app) completedWords)
          by (by apply list_elem_of_filter).
        rewrite Hnil in Hword. by apply elem_of_nil in Hword.
      * intros e He. apply list_elem_of_filter. destruct (Hall e He). done.
Qed.

Lemma NewGameHandler_avoids_completed_words_witness :
  ∃ app' trigger g',
    handlers.NewGameHandler false randZero (λ _, Some ["APPLE"; "OTHER"]) demoApp 9
      "s" true "[APPLE,OTHER]" false "fresh" false
    = Some (app', "s", trigger)
    ∧ GameSessions app' !! "s" = Some g'
    ∧ trigger = false
    ∧ SessionWord g' ≠ "APPLE".
Proof.
  destruct (NewGameHandler_avoids_completed_words false randZero
              (λ _, Some ["APPLE"; "OTHER"]) demoApp 9 "s" "[APPLE,OTHER]"
              ["APPLE"; "OTHER"] false "fresh" false)
    as (app' & trigger & g' & Hrun & Hstored & Hout & Hreset).
  - apply randZero_inRange.
  - apply demoApp_served.
  - discriminate.
  - reflexivity.
  - assert (Htrigger : trigger = false) by (vm_compute in Hrun; by simplify_eq).
    exists app', trigger, g'. split_and!; try done.
    apply (Hout Htrigger).
    + left.
    + apply (bool_decide_unpack _). by vm_compute.
Defined.

(** ** Startup *)

Lemma acceptedWords_fold ToUpper TrimSpace (lines : list string) (s0 : gset string) w :
  w ∈ foldl (λ (acceptedWordSet : gset string) l,
               let l := TrimSpace l in
               if String.eqb l "" then acceptedWordSet
               else {[ToUpper l]} ∪ acceptedWordSet) s0 lines
  ↔ w ∈ s0 ∨ ∃ l, l ∈ lines ∧ TrimSpace l ≠ "" ∧ w = ToUpper (TrimSpace l).
Proof.
  revert s0. induction lines as [|l lines IH]; intros s0; cbn [foldl].
  - split; [auto|]. intros [?|(l & Hl & _)]; [done|]. by apply elem_of_nil in Hl.
  - rewrite IH. cbv zeta. destruct (String.eqb_spec (TrimSpace l) "") as [Heq|Hne].
    + split.
      * intros [?|(l0 & Hl0 & ?)]; [auto|]. right. exists l0. split; [by right | done].
      * intros [?|(l0 & Hl0 & Hne0 & ?)]; [auto|]. right.
        apply elem_of_cons in Hl0 as [->|Hl0]; [done|]. by exists l0.
    + rewrite elem_of_union, elem_of_singleton. split.
      * intros [[->|?]|(l0 & Hl0 & ?)]; [|auto|].
        -- right. exists l. split; [left | done].
        -- right. exists l0. split; [by right | done].
      * intros [?|(l0 & Hl0 & Hne0 & ->)]; [auto|].
        apply elem_of_cons in Hl0 as [->|Hl0]; [auto|]. right. by exists l0.
Qed.

(** X19. When the file was read, [loadAcceptedWords] returns the set of the
    upper-cased, trimmed lines that are not blank.  So a guess posted as it
    stands on a line of the file that is not blank passes the acceptance
    check of the guess handler, which normalises it in the same way. *)
Theorem accepted_words_are_the_lines ToUpper TrimSpace (lines : list string) :
  ∃ acceptedWordSet,
    startup.loadAcceptedWords ToUpper TrimSpace (Some lines) = Some acceptedWordSet
    ∧ (∀ w, w ∈ acceptedWordSet
            ↔ ∃ l, l ∈ lines ∧ TrimSpace l ≠ "" ∧ w = ToUpper (TrimSpace l))
    ∧ (∀ app rawGuess,
         AcceptedWordSet app = acceptedWordSet →
         rawGuess ∈ lines → TrimSpace rawGuess ≠ "" →
         game.IsAcceptedWord app (handlers.NormalizeGuess ToUpper TrimSpace rawGuess)
         = true).
Proof.
  eexists. split; [done|].
  assert (Hset : ∀ w,
            w ∈ foldl (λ (acceptedWordSet : gset string) l,
                         let l := TrimSpace l in
                         if String.eqb l "" then acceptedWordSet
                         else {[ToUpper l]} ∪ acceptedWordSet) ∅ lines
            ↔ ∃ l, l ∈ lines ∧ TrimSpace l ≠ "" ∧ w = ToUpper (TrimSpace l)).
  { intros w. rewrite acceptedWords_fold. split; [|auto].
    intros [Hw|?]; [|done]. by apply elem_of_empty in Hw. }
  split; [done|].
  intros app rawGuess Happ Hin Hne. unfold game.IsAcceptedWord.
  apply bool_decide_eq_true. rewrite Happ. apply Hset. by exists rawGuess.
Qed.

Lemma loadWords_result (wl : list WordEntry) :
  ∃ wordSet,
    startup.loadWords (Some wl)
    = Some (filter (λ entry, Go.len (Word entry) = 5%Z) wl, wordSet).
Proof. by eexists. Qed.

(** X20. The application that [main] builds from a word file that parses
    and an accepted-words file that was read satisfies the conditions under
    which the handlers keep the games consistent exactly when the word file
    has a word of five bytes.  When it has none, [main] starts all the same,
    and the guess handler and the new-game handler panic on the first
    request, whatever it is. *)
Theorem mainApp_serves_iff_a_word
    buildHintMap (wl : list WordEntry) (accepted : gset string)
    rateLimitRPS rateLimitBurst rateLimiterTTL sessionTTL :
  ∃ app,
    startup.mainApp buildHintMap (startup.loadWords (Some wl)) (Some accepted)
      rateLimitRPS rateLimitBurst rateLimiterTTL sessionTTL = Some app
    ∧ (served app ↔ Exists (λ entry, String.length (Word entry) = WordLength) wl)
    ∧ (¬ Exists (λ entry, String.length (Word entry) = WordLength) wl →
       ∀ ctxDone randInt ToUpper TrimSpace unmarshal now sessionID rawGuess isPost
         completedWordsStr reset newSessionID isHTMX,
         handlers.GuessHandler ctxDone randInt ToUpper TrimSpace app now sessionID
           rawGuess = None
         ∧ handlers.NewGameHandler ctxDone randInt unmarshal app now sessionID isPost
             completedWordsStr reset newSessionID isHTMX = None).
Proof.
  destruct (loadWords_result wl) as [wordSet Hload]. rewrite Hload.
  eexists. split; [done|].
  set (wordList := filter (λ entry, Go.len (Word entry) = 5%Z) wl).
  assert (Hfive : Forall (λ entry, String.length (Word entry) = WordLength) wordList).
  { apply Forall_forall. intros e He. apply list_elem_of_filter in He as [He _].
    unfold Go.len in He. unfold WordLength. lia. }
  assert (Hne : wordList ≠ []
                ↔ Exists (λ entry, String.length (Word entry) = WordLength) wl).
  { rewrite Exists_exists. split.
    - intros Hne. destruct wordList as [|e l] eqn:Hl; [done|].
      assert (He : e ∈ wordList) by (rewrite Hl; left).
      apply list_elem_of_filter in He as [He Hin].
      exists e. split; [done|]. unfold Go.len in He. unfold WordLength. lia.
    - intros (e & Hin & He) Hnil.
      assert (Hin0 : e ∈ wordList).
      { apply list_elem_of_filter. split; [|done]. unfold Go.len.
        rewrite He. done. }
      rewrite Hnil in Hin0. by apply elem_of_nil in Hin0. }
  split.
  - split.
    + intros (Hnonempty & _). by apply Hne.
    + intros Hnonempty%Hne.
      split_and!; [done | done | done | apply map_Forall_empty].
  - intros Hnone. assert (Hnil : wordList = []).
    { destruct (decide (wordList = [])) as [Hnil|Hnonempty]; [done|].
      destruct Hnone. by apply Hne. }
    intros. unfold handlers.GuessHandler, handlers.NewGameHandler,
      session.GetGameState, game.CreateNewGame,
      game.CreateNewGameWithCompletedWords, game.GetRandomWordEntryExcluding,
      game.GetRandomWordEntry.
    cbn [GameSessions WordList set_GameSessions]. fold wordList. rewrite Hnil.
    rewrite lookup_empty. cbn [length filter list_filter lookup list_lookup].
    split.
    + by destruct ctxDone.
    + destruct reset; repeat case_bool_decide; by destruct ctxDone.
Qed.

Lemma mainApp_serves_iff_a_word_witness :
  ∃ app,
    startup.mainApp game.BuildHintMap
      (startup.loadWords (Some [ {| Word := "TOOLONG"; Hint := "seven" |} ]))
      (Some {[ "APPLE" ]}) 5 10 3600000000000 10800000000000 = Some app
    ∧ ¬ served app
    ∧ handlers.GuessHandler false randZero id id app 0 "s" "APPLE" = None.
Proof.
  destruct (mainApp_serves_iff_a_word game.BuildHintMap
              [ {| Word := "TOOLONG"; Hint := "seven" |} ] {[ "APPLE" ]}
              5 10 3600000000000 10800000000000)
    as (app & Hrun & Hiff & Hpanic).
  assert (Hnone : ¬ Exists (λ entry, String.length (Word entry) = WordLength)
                      [ {| Word := "TOOLONG"; Hint := "seven" |} ]).
  { intros H. apply Exists_cons in H as [H|H]; [done|]. by apply Exists_nil in H. }
  exists app. split_and!.
  - exact Hrun.
  - intros Hserved. apply Hnone. by apply Hiff.
  - apply (Hpanic Hnone false randZero id id (λ _, None) 0%Z "s" "APPLE" false ""
             false "" false).
Defined.

(** ** The sweeps and the games *)

Lemma served_subseteq app (m : gmap string GameState) :
  served app → m ⊆ GameSessions app → served (set_GameSessions app m).
Proof.
  intros (Hne & Hfive & Hpool & Hgames) Hsub. split_and!; try done.
  cbn. intros k g Hk. apply (Hgames k g). by eapply lookup_weaken.
Qed.

Lemma range_delete_subseteq {V} (stale : V → bool) (m : gmap string V) :
  map_fold (λ i x acc, if stale x then delete i acc else acc) m m ⊆ m.
Proof.
  apply map_subseteq_spec. intros k v. rewrite range_delete_filter.
  destruct (m !! k) as [v0|]; [|done]. by destruct (stale v0).
Qed.

(** X21. The three sweeps keep the conditions under which the handlers keep
    the games consistent: a session sweep, of package main or of the session
    package, only removes games, and a limiter sweep leaves the sessions and
    the catalog as they are. *)
Theorem sweeps_keep_games_consistent sortSlice app now timeout :
  served app →
  served (sweeps.cleanupStaleSessions app now)
  ∧ GameSessions (sweeps.cleanupStaleSessions app now) ⊆ GameSessions app
  ∧ served (session.CleanupExpiredSessions timeout app now)
  ∧ GameSessions (session.CleanupExpiredSessions timeout app now) ⊆ GameSessions app
  ∧ served (sweeps.cleanupStaleRateLimiters sortSlice app now)
  ∧ GameSessions (sweeps.cleanupStaleRateLimiters sortSlice app now)
    = GameSessions app.
Proof.
  intros Hserved.
  pose proof (range_delete_subseteq
                (λ g, sweeps.Before (LastAccessTime g) (now + Go.neg (SessionTTL app))%Z)
                (GameSessions app)) as Hmain.
  pose proof (range_delete_subseteq
                (λ g, bool_decide (timeout < session.Sub now (LastAccessTime g))%Z)
                (GameSessions app)) as Hsession.
  split_and!.
  - by apply served_subseteq.
  - done.
  - by apply served_subseteq.
  - done.
  - done.
  - done.
Qed.

Lemma sweeps_keep_games_consistent_witness :
  served (sweeps.cleanupStaleSessions playedApp 20000000000000)
  ∧ GameSessions (sweeps.cleanupStaleSessions playedApp 20000000000000)
    ⊆ GameSessions playedApp
  ∧ served (sweeps.cleanupStaleRateLimiters id playedApp 20000000000000).
Proof.
  destruct (sweeps_keep_games_consistent id playedApp 20000000000000 0)
    as (H1 & H2 & _ & _ & H3 & _).
  - apply playedApp_served.
  - by split_and!.
Defined.

(** ** Words that cannot be won *)

(** X22. A game in progress whose word is not in the accepted set cannot be
    won: whatever is posted, the guess handler returns and the stored game
    is not won.  The acceptance check looks at the accepted set alone, so a
    target word has to be listed there as well. *)
Theorem unaccepted_word_is_never_won
    ctxDone randInt ToUpper TrimSpace app now sessionID g rawGuess :
  served app →
  GameSessions app !! sessionID = Some g →
  GameOver g = false →
  SessionWord g ∉ AcceptedWordSet app →
  ∃ app' code g',
    handlers.GuessHandler ctxDone randInt ToUpper TrimSpace app now sessionID rawGuess
    = Some (app', code)
    ∧ GameSessions app' !! sessionID = Some g'
    ∧ SessionWord g' = SessionWord g
    ∧ Won g' = false.
Proof.
  intros Hserved Hstored Ho Hword.
  pose proof Hserved as (_ & _ & Hpool & Hgames).
  pose proof (Hgames sessionID g Hstored) as Hg. cbn in Hg.
  destruct (consistent_in_progress g Hg Ho) as (Hw & _).
  pose proof (GetGameState_existing ctxDone randInt app now sessionID g Hstored)
    as Hget.
  set (g0 := set_LastAccessTime g now) in *.
  set (app0 := set_GameSessions app (<[sessionID := g0]> (GameSessions app))) in *.
  assert (Hstored0 : GameSessions app0 !! sessionID = Some g0)
    by (cbn; by rewrite lookup_insert_eq).
  destruct (GuessHandler_checks ctxDone randInt ToUpper TrimSpace app now sessionID
              rawGuess app0 g0 Hget) as (_ & Hacc & Hdup & Hproc).
  set (guess := handlers.NormalizeGuess ToUpper TrimSpace rawGuess) in *.
  cbv zeta in Hacc, Hdup, Hproc.
  destruct (decide (guess ∈ AcceptedWordSet app0)) as [Ha|Ha].
  2:{ exists app0, ErrorCodeWordNotAccepted, g0. split_and!; [by apply Hacc | done..]. }
  destruct (decide (guess ∈ GuessHistory g0)) as [Hd|Hd].
  { exists app0, ErrorCodeDuplicateGuess, g0. split_and!; [by apply Hdup | done..]. }
  rewrite Hproc by done.
  destruct (decide (String.length guess = WordLength)) as [Hl|Hl].
  - destruct (ProcessGuess_played ctxDone randInt app0 now sessionID g0 guess)
      as (row & g' & -> & _ & _ & _ & _ & HS & _ & HW & _);
      [exact Hpool | by apply consistent_touch | exact Ho | exact Hd | exact Hl |].
    eexists _, _, g'. split; [done|]. split_and!.
    + cbn. by rewrite lookup_insert_eq.
    + done.
    + rewrite HW. apply andb_false_iff. right. apply String.eqb_neq.
      intros Heq. apply Hword. cbn in Heq. by rewrite <-Heq.
  - destruct (ProcessGuess_checks ctxDone randInt app0 now sessionID g0 guess)
      as (Hlen & _).
    rewrite Hlen by (unfold Go.len; lia).
    exists app0, ErrorCodeInvalidLength, g0. by split_and!.
Qed.

Lemma unaccepted_word_is_never_won_witness :
  ∃ app' code g',
    handlers.GuessHandler false randZero id id
      (set_GameSessions demoApp {[ "s" := set_SessionWord playedGame "GRAPE" ]})
      5 "s" "GRAPE"
    = Some (app', code)
    ∧ GameSessions app' !! "s" = Some g'
    ∧ SessionWord g' = "GRAPE"
    ∧ Won g' = false.
Proof.
  apply (unaccepted_word_is_never_won false randZero id id
           (set_GameSessions demoApp {[ "s" := set_SessionWord playedGame "GRAPE" ]})
           5 "s" (set_SessionWord playedGame "GRAPE") "GRAPE").
  - split_and!; [done | repeat constructor | done |].
    apply map_Forall_singleton. unfold consistent, wellFormed. cbn.
    split_and!; try done; try (unfold MaxGuesses; lia).
    apply NoDup_singleton.
  - reflexivity.
  - reflexivity.
  - apply (bool_decide_unpack _). by vm_compute.
Defined.

(** ** The pages *)

Lemma hints_some_entry l w :
  ∀ m : gmap string string,
    (∃ e0, e0 ∈ l ∧ Word e0 = w) →
    ∃ e, e ∈ l ∧ Word e = w
         ∧ foldl (λ result entry, <[Word entry := Hint entry]> result) m l !! w
           = Some (Hint e).
Proof.
  induction l as [|e1 l IH]; intros m (e0 & Hin & Hw).
  - by apply elem_of_nil in Hin.
  - cbn [foldl].
    destruct (decide (Exists (λ e, Word e = w) l)) as [Hlater|Hnone].
    + apply Exists_exists in Hlater as (e2 & Hin2 & Hw2).
      destruct (IH (<[Word e1 := Hint e1]> m)) as (e & He & Hwe & Hlookup);
        [by exists e2|].
      exists e. split_and!; [by right | done | done].
    + assert (Hl : ∀ e, e ∈ l → Word e ≠ w).
      { intros e He Hwe. apply Hnone. apply Exists_exists. by exists e. }
      apply elem_of_cons in Hin as [Heq|Hin]; [|by destruct (Hl e0 Hin)].
      subst e0. exists e1. split_and!; [left | done |].
      rewrite hints_later_entries by done. rewrite <-Hw. apply lookup_insert_eq.
Qed.

(** X23. On an application whose hint map is built from the catalog, for a
    session that is not stored yet: the home page and the game-state page
    start a game on a word of the catalog, store it, and show with it the
    hint of a catalog entry for that very word; the games stay consistent. *)
Theorem pages_show_the_hint_of_the_word ctxDone randInt app now sessionID :
  randInRange randInt → served app →
  HintMap app = game.BuildHintMap (WordList app) →
  GameSessions app !! sessionID = None →
  ∃ app' g e,
    handlers.HomeHandler ctxDone randInt app now sessionID = Some (app', g, Hint e)
    ∧ handlers.GameStateHandler ctxDone randInt app now sessionID
      = Some (app', g, Hint e)
    ∧ e ∈ WordList app ∧ Word e = SessionWord g
    ∧ GameSessions app' !! sessionID = Some g
    ∧ GameOver g = false ∧ GuessHistory g = []
    ∧ served app'.
Proof.
  intros Hrand Hserved Hmap Hnew.
  unfold handlers.HomeHandler, handlers.GameStateHandler, session.GetGameState.
  rewrite Hnew.
  destruct (CreateNewGame_served ctxDone randInt Hrand app now sessionID Hserved)
    as (g & -> & Hg & Ho & Hh & e0 & Hin0 & Hword).
  cbn [mbind option_bind].
  destruct (hints_some_entry (WordList app) (SessionWord g) ∅) as (e & Hin & Hw & Hhint);
    [by exists e0|].
  assert (Hshown : game.GetHintForWord
                     (set_GameSessions app (<[sessionID := g]> (GameSessions app)))
                     (SessionWord g) = Hint e).
  { unfold game.GetHintForWord.
    destruct (consistent_in_progress g Hg Ho) as (_ & _ & _ & ->).
    cbn [HintMap set_GameSessions]. rewrite Hmap. unfold game.BuildHintMap.
    by rewrite Hhint. }
  cbv zeta. rewrite Hshown. eexists _, g, e. split_and!; try done.
  - cbn. by rewrite lookup_insert_eq.
  - by apply served_insert.
Qed.

Lemma pages_show_the_hint_of_the_word_witness :
  ∃ app' g e,
    handlers.HomeHandler false randZero demoApp 3 "s" = Some (app', g, Hint e)
    ∧ e ∈ WordList demoApp ∧ Word e = SessionWord g
    ∧ GameSessions app' !! "s" = Some g.
Proof.
  destruct (pages_show_the_hint_of_the_word false randZero demoApp 3 "s")
    as (app' & g & e & Hhome & _ & Hin & Hword & Hstored & _).
  - apply randZero_inRange.
  - apply demoApp_served.
  - apply map_eq. intros w. vm_compute. reflexivity.
  - reflexivity.
  - by exists app', g, e.
Defined.
